(** * LargeFileBuster: the native scanner and the item store

    A shallow embedding of [native/src/scanner.cc], [native/src/database.cc]
    and the parts of [native/src/addon.cc] that guard the store, with the
    properties of the recursive scanner and of the path-keyed store that the
    specification states about them, and further properties that the code
    shows: of the table and its queries, of the two scans and of a shallow
    scan into the store, of paths, timestamps and run identifiers, and of
    scans that share a [Scanner] between threads.

    Conventions.
    - [std::string] is [string] (a sequence of bytes).  Text reaches SQLite
      through [c_str()] with length [-1], and comes back through a
      [const char*]: both stop at the first NUL byte, which [c_str] models.
    - [int64_t] and [int] are [Z] with the wrap-around written out
      ([wrap64], [wrap32]); signed overflow is taken as two's complement.
    - The table [items] is the list of its rows in rowid order.
    - The filesystem below a path is a finite tree ([FsNode]) that says, for
      every entry, what the [std::filesystem] queries answer or that they
      throw.  A link answers as what it points to does.
    - Paths and timestamps are those of libstdc++ on a POSIX system: [/]
      separates, and [system_clock] counts nanoseconds in an [int64_t].
    - The system clock is a function: each time it is read it may answer
      another time.
    - Text handed to JavaScript is the bytes it is made from; a number is
      the [double] that the binding makes of it. *)

From Stdlib Require Import ZArith List Bool Ascii String DecimalString Lia.
From Stdlib Require Import Permutation Sorted.
Import ListNotations.
Open Scope string_scope.
Open Scope list_scope.
Open Scope Z_scope.

(** ** Machine integers *)

Definition wrap (bits : Z) (z : Z) : Z :=
  (z + 2 ^ (bits - 1)) mod 2 ^ bits - 2 ^ (bits - 1).

Definition wrap64 : Z -> Z := wrap 64.
Definition wrap32 : Z -> Z := wrap 32.

Definition in_int64 (z : Z) : Prop := - 2 ^ 63 <= z < 2 ^ 63.
Definition in_int32 (z : Z) : Prop := - 2 ^ 31 <= z < 2 ^ 31.

(** ** Record model ([types.h]) *)

Record ItemRecord := mkItem {
  path : string;
  parent : string;
  type : string;
  sizeBytes : Z;
  fileCount : Z;
  folderCount : Z;
  lastWriteUtc : string;
  scannedUtc : string;
  depth : Z;
  runId : string
}.

Record ScanProgress := mkProgress {
  pr_runId : string;
  pr_itemsScanned : Z;
  pr_currentPath : string;
  pr_state : string;
  pr_message : string
}.

Record ScanResult := mkResult {
  res_sizeBytes : Z;
  res_fileCount : Z;
  res_folderCount : Z;
  res_latestMs : Z
}.

(** ** Text as SQLite sees it *)

Definition NUL : ascii := Ascii.zero.

Fixpoint c_str (s : string) : string :=
  match s with
  | EmptyString => EmptyString
  | String c rest => if Ascii.eqb c NUL then EmptyString else String c (c_str rest)
  end.

Definition is_empty (s : string) : bool :=
  match s with EmptyString => true | _ => false end.

(** ** The table [items] ([Database::createSchema]) *)

Record Row := mkRow {
  r_path : string;
  r_parent : option string;      (* nullable column *)
  r_type : string;
  r_sizeBytes : Z;
  r_fileCount : Z;
  r_folderCount : Z;
  r_lastWriteUtc : string;
  r_scannedUtc : string;
  r_depth : Z;
  r_runId : string
}.

Definition Table := list Row.

(** The handle [db_] is either null or a connection to the file that holds
    the table. *)
Record Database := mkDb {
  db_ : bool;
  items : Table
}.

Definition isOpen (db : Database) : bool := db_ db.

(** [Database::open]: [rc_ok] is whether [sqlite3_open] answers [SQLITE_OK].
    The schema is created only if it does not exist. *)
Definition open (rc_ok : bool) (db : Database) : bool * Database :=
  if db_ db then (true, db)
  else if rc_ok then (true, mkDb true (items db))
  else (false, mkDb false (items db)).

Definition close (db : Database) : Database := mkDb false (items db).

(** [Database::reset].  [stepped] says whether [stmtGetByPath_] stands on
    a row: [getItemByPath] leaves it there when it has found one, since it
    resets the statement only when it is called again.  [DROP TABLE] then
    fails, the table being read; [exec] keeps the answer to itself and
    [createSchema] finds the table in place, so the rows stay. *)
Definition reset (stepped : bool) (db : Database) : Database :=
  if db_ db then (if stepped then db else mkDb true []) else db.

Definition vacuum (db : Database) : Database := db.

(** *** Upsert *)

(** The ten parameters bound to [stmtUpsert_] for one item: the row
    [excluded] of the statement. *)
Definition bind_item (item : ItemRecord) : Row :=
  {| r_path := c_str (path item);
     r_parent := if is_empty (parent item) then None else Some (c_str (parent item));
     r_type := c_str (type item);
     r_sizeBytes := sizeBytes item;
     r_fileCount := fileCount item;
     r_folderCount := folderCount item;
     r_lastWriteUtc := c_str (lastWriteUtc item);
     r_scannedUtc := c_str (scannedUtc item);
     r_depth := depth item;
     r_runId := c_str (runId item) |}.

(** [ON CONFLICT(path) DO UPDATE SET ...]: the row that replaces [old]. *)
Definition on_conflict (old excluded : Row) : Row :=
  {| r_path := r_path old;
     r_parent := r_parent excluded;
     r_type := r_type excluded;
     r_sizeBytes := r_sizeBytes excluded;
     r_fileCount := r_fileCount excluded;
     r_folderCount := r_folderCount excluded;
     r_lastWriteUtc := r_lastWriteUtc excluded;
     r_scannedUtc := if is_empty (r_scannedUtc excluded)
                     then r_scannedUtc old else r_scannedUtc excluded;
     r_depth := r_depth excluded;
     r_runId := r_runId excluded |}.

(** [INSERT INTO items ... ON CONFLICT(path) DO UPDATE]: the row with the
    same path is updated where it is, a new row goes to the end. *)
Fixpoint upsert_row (excluded : Row) (t : Table) : Table :=
  match t with
  | [] => [excluded]
  | r :: rest =>
      if String.eqb (r_path r) (r_path excluded)
      then on_conflict r excluded :: rest
      else r :: upsert_row excluded rest
  end.

Definition valid_type (ty : string) : bool :=
  String.eqb ty "File" || String.eqb ty "Folder".

(** One turn of the loop of [Database::upsertItems]. *)
Definition upsert_step (t : Table) (item : ItemRecord) : Table :=
  if negb (valid_type (type item)) then t      (* continue *)
  else upsert_row (bind_item item) t.

(** [BEGIN TRANSACTION] and [COMMIT], on the one connection that the mutex
    guards: the table is left as it is. *)
Definition beginTransaction (db : Database) : Database := db.
Definition commitTransaction (db : Database) : Database := db.

Definition upsertItems (batch : list ItemRecord) (db : Database) : Database :=
  if negb (db_ db) || match batch with [] => true | _ => false end then db
  else
    let db1 := beginTransaction db in
    commitTransaction (mkDb (db_ db1) (fold_left upsert_step batch (items db1))).

(** *** Reading rows back *)

Definition row_to_item (r : Row) : ItemRecord :=
  {| path := c_str (r_path r);
     parent := match r_parent r with Some p => c_str p | None => "" end;
     type := c_str (r_type r);
     sizeBytes := r_sizeBytes r;
     fileCount := wrap32 (r_fileCount r);
     folderCount := wrap32 (r_folderCount r);
     lastWriteUtc := c_str (r_lastWriteUtc r);
     scannedUtc := c_str (r_scannedUtc r);
     depth := wrap32 (r_depth r);
     runId := c_str (r_runId r) |}.

(** [ORDER BY]: rows that compare equal keep the order of the table. *)
Fixpoint insert_by (le : Row -> Row -> bool) (x : Row) (l : list Row) : list Row :=
  match l with
  | [] => [x]
  | y :: rest => if le x y then x :: y :: rest else y :: insert_by le x rest
  end.

Definition sort_by (le : Row -> Row -> bool) (l : list Row) : list Row :=
  fold_right (insert_by le) [] l.

Definition by_size_desc (a b : Row) : bool := r_sizeBytes b <=? r_sizeBytes a.
Definition by_path_asc (a b : Row) : bool := String.leb (r_path a) (r_path b).

Definition order_by (sort : string) : Row -> Row -> bool :=
  if String.eqb sort "name_asc" then by_path_asc else by_size_desc.

(** [LIMIT ?]: a negative limit is no limit.  [OFFSET ?]: a negative offset
    is none. *)
Definition sql_limit (limit : Z) (l : list Row) : list Row :=
  if limit <? 0 then l else firstn (Z.to_nat limit) l.

Definition sql_offset (offset : Z) (l : list Row) : list Row :=
  skipn (Z.to_nat offset) l.

Definition text_eqb (a b : string) : bool := String.eqb a b.

Definition getItemByPath (p : string) (db : Database) : option ItemRecord :=
  if negb (db_ db) then None
  else match find (fun r => text_eqb (r_path r) (c_str p)) (items db) with
       | Some r => Some (row_to_item r)
       | None => None
       end.

(** [WHERE parent = ?] or [WHERE parent IS NULL]. *)
Definition parent_matches (parent : option string) (r : Row) : bool :=
  match parent, r_parent r with
  | None, None => true
  | Some p, Some q => text_eqb q (c_str p)
  | _, _ => false
  end.

Definition getChildren (parent : option string) (limit offset : Z)
    (sort : string) (includeFiles : bool) (db : Database) : list ItemRecord :=
  if negb (db_ db) then []
  else
    let selected :=
      filter (fun r => parent_matches parent r
                       && (includeFiles || text_eqb (r_type r) "Folder"))
             (items db) in
    map row_to_item
        (sql_limit limit (sql_offset offset (sort_by (order_by sort) selected))).

Definition getTop (ty : string) (limit : Z) (db : Database) : list ItemRecord :=
  if negb (db_ db) then []
  else
    map row_to_item
        (sql_limit limit
           (sort_by by_size_desc
              (filter (fun r => text_eqb (r_type r) (c_str ty)) (items db)))).

(** *** Root inference ([Database::getRoots]) *)

(** SQLite reads text a character at a time ([sqlite3Utf8Read]): a byte
    below [0xC0] is a character; a byte from [0xC0] on begins one that
    takes in every byte of the form [10xxxxxx] after it, six bits from
    each, in an [unsigned int]; what comes out below [0x80], as a
    surrogate or as [U+FFFE] or [U+FFFF] is read as [U+FFFD]. *)
Definition is_continuation (n : N) : bool := ((128 <=? n) && (n <? 192))%N.

(** [sqlite3Utf8Trans1], for a first byte from [0xC0] on. *)
Definition utf8_first (n : N) : N :=
  (if n <? 224 then n - 192
   else if n <? 240 then n - 224
   else if n <? 248 then n - 240
   else if n <? 252 then n - 248
   else if n <? 254 then n - 252
   else 0)%N.

Definition utf8_code (c : N) : N :=
  (if (c <? 128) || ((55296 <=? c) && (c <? 57344)) || (c =? 65534) || (c =? 65535)
   then 65533 else c)%N.

(** The characters of a text; [pending] is the character whose bytes are
    being read. *)
Fixpoint characters_from (pending : option N) (s : string) : list N :=
  match s with
  | EmptyString =>
      match pending with
      | Some c => [utf8_code c]
      | None => []
      end
  | String b rest =>
      let n := N_of_ascii b in
      match pending with
      | Some c =>
          if is_continuation n
          then characters_from (Some ((c * 64 + n mod 64) mod 2 ^ 32)%N) rest
          else utf8_code c
               :: (if (n <? 192)%N then n :: characters_from None rest
                   else characters_from (Some (utf8_first n)) rest)
      | None =>
          if (n <? 192)%N then n :: characters_from None rest
          else characters_from (Some (utf8_first n)) rest
      end
  end.

Definition characters (s : string) : list N := characters_from None (c_str s).

(** [sqlite3Tolower], on the code of a character below [0x80]. *)
Definition to_lower (c : N) : N :=
  (if (65 <=? c) && (c <=? 90) then c + 32 else c)%N.

Definition PERCENT : N := 37%N.
Definition UNDERSCORE : N := 95%N.

(** The comparison of [patternCompare] for a character of the pattern that
    is not [%]: [_] takes any character, a character takes itself, and two
    characters below [0x80] that differ by case take each other. *)
Definition matches_one (p c : N) : bool :=
  ((p =? UNDERSCORE) || (p =? c)
   || ((p <? 128) && (c <? 128) && (to_lower p =? to_lower c)))%N.

Fixpoint like_characters (pattern text : list N) {struct pattern} : bool :=
  match pattern with
  | [] => match text with [] => true | _ => false end
  | p :: pattern' =>
      if (p =? PERCENT)%N then
        (fix any (t : list N) : bool :=
           like_characters pattern' t
           || match t with
              | [] => false
              | _ :: t' => any t'
              end) text
      else
        match text with
        | [] => false
        | c :: text' => matches_one p c && like_characters pattern' text'
        end
  end.

(** SQLite's [LIKE] with its defaults ([case_sensitive_like] is left off
    and the statement gives no escape character): [%] stands for any run
    of characters, [_] for any one character, and a letter of ASCII
    matches in either case.  The engine refuses a pattern of more than
    [SQLITE_MAX_LIKE_PATTERN_LENGTH] bytes, which no definition here
    reflects: the properties that evaluate [like] are stated for patterns
    within the limit. *)
Definition like (pattern text : string) : bool :=
  like_characters (characters pattern) (characters text).

Definition SQLITE_MAX_LIKE_PATTERN_LENGTH : Z := 50000.

(** [parent NOT IN (SELECT path FROM items)], for a parent that is not
    NULL. *)
Definition parent_indexed (t : Table) (p : string) : bool :=
  existsb (fun x => text_eqb (r_path x) p) t.

(** [EXISTS (SELECT 1 FROM items r WHERE r.parent IS NULL
             AND items.path LIKE r.path || '%')]. *)
Definition under_known_root (t : Table) (r : Row) : bool :=
  existsb (fun x => match r_parent x with
                    | None => like (r_path x ++ "%")%string (r_path r)
                    | Some _ => false
                    end) t.

(** The [WHERE] clause of the query. *)
Definition is_root (t : Table) (r : Row) : bool :=
  match r_parent r with
  | None => true
  | Some p => negb (parent_indexed t p) && negb (under_known_root t r)
  end.

Definition getRoots (limit : Z) (sort : string) (db : Database) : list ItemRecord :=
  if negb (db_ db) then []
  else
    map row_to_item
        (sql_limit limit
           (sort_by (order_by sort) (filter (is_root (items db)) (items db)))).

(** ** The filesystem seen by the scanner *)

(** What [std::filesystem] answers for one path.
    - [RegularFile size mtime]: [is_regular_file()] holds; [file_size()]
      answers [size], [fileTimeMs(last_write_time())] answers [mtime], and
      [None] stands for a call that throws.
    - [Directory entries complete]: [is_directory()] holds and a
      [directory_iterator] yields [entries] in this order, then reaches the
      end ([complete]) or throws.  A directory skipped for lack of
      permission has no entries.
    - [NoListing]: constructing the [directory_iterator] throws (a directory
      that cannot be opened, or a start path that does not exist).
    - [OtherEntry]: neither a regular file nor a directory.
    - [StatError]: the query of the status of the entry throws. *)
#[local] Unset Elimination Schemes.
Inductive FsNode : Type :=
| RegularFile (size : option Z) (mtime : option Z)
| Directory (entries : list (string * FsNode)) (complete : bool)
| NoListing
| OtherEntry
| StatError.
#[local] Set Elimination Schemes.

(** *** Paths (POSIX form of [std::filesystem::path]) *)

Definition SEP : ascii := "/"%char.

Fixpoint ends_with_sep (s : string) : bool :=
  match s with
  | EmptyString => false
  | String c EmptyString => Ascii.eqb c SEP
  | String _ rest => ends_with_sep rest
  end.

(** [dir / name], the path of an entry of [dir]. *)
Definition child_path (dir name : string) : string :=
  if is_empty dir || ends_with_sep dir then (dir ++ name)%string
  else (dir ++ String SEP name)%string.

Fixpoint join_sep (pieces : list string) : string :=
  match pieces with
  | [] => EmptyString
  | [p] => p
  | p :: rest => (p ++ String SEP (join_sep rest))%string
  end.

(** The text up to its last character that is not a separator. *)
Fixpoint strip_sep (s : string) : string :=
  match s with
  | EmptyString => EmptyString
  | String c rest =>
      let rest' := strip_sep rest in
      if Ascii.eqb c SEP && is_empty rest' then EmptyString else String c rest'
  end.

(** The text up to its last separator. *)
Fixpoint strip_name (s : string) : string :=
  match s with
  | EmptyString => EmptyString
  | String c rest =>
      let rest' := strip_name rest in
      if negb (Ascii.eqb c SEP) && is_empty rest' then EmptyString else String c rest'
  end.

(** [path::parent_path()], as libstdc++ has it: the path itself when it
    has no relative part; otherwise the text as it is written, up to the
    end of the element before the last.  The elements are the root
    directory (the first of the separators the text begins with), the
    names between separators, and an empty element after separators that
    end the text. *)
Definition parent_path (s : string) : string :=
  if is_empty (strip_sep s) then s                  (* no relative path *)
  else if ends_with_sep s then strip_sep s          (* the last element is empty *)
  else
    let before := strip_name s in
    if is_empty before then EmptyString             (* one name *)
    else if is_empty (strip_sep before)
         then String SEP EmptyString                (* the root directory *)
         else strip_sep before.

Definition has_parent_path (s : string) : bool := negb (is_empty (parent_path s)).

Definition getParent (p : string) : string :=
  if has_parent_path p then
    let parent := parent_path p in
    if is_empty parent || String.eqb parent p then "" else parent
  else "".

(** ** Scanner ([scanner.cc]) *)

Definition PROGRESS_INTERVAL : Z := 5000.
Definition MIN_FILE_SIZE_FOR_DB : Z := 100 * 1024.

(** *** Timestamps *)

Definition decimal (z : Z) : string := NilZero.string_of_int (Z.to_int z).

Definition two_digits (z : Z) : string :=
  if z <? 10 then ("0" ++ decimal z)%string else decimal z.

(** The calendar date of a day count from 1970-01-01 ([gmtime]). *)
Definition civil_from_days (days : Z) : Z * Z * Z :=
  let z := days + 719468 in
  let era := z / 146097 in
  let doe := z - era * 146097 in
  let yoe := (doe - doe / 1460 + doe / 36524 - doe / 146096) / 365 in
  let doy := doe - (365 * yoe + yoe / 4 - yoe / 100) in
  let mp := (5 * doy + 2) / 153 in
  let d := doy - (153 * mp + 2) / 5 + 1 in
  let m := if mp <? 10 then mp + 3 else mp - 9 in
  let y := yoe + era * 400 + (if m <=? 2 then 1 else 0) in
  (y, m, d).

(** [toIsoString]: the milliseconds become a [system_clock::time_point],
    which counts nanoseconds in an [int64_t], and [to_time_t] cuts that to
    whole seconds; the milliseconds are always written [.000]. *)
Definition toIsoString (epochMs : Z) : string :=
  let tp := wrap64 (epochMs * 1000000) in
  let time := Z.quot tp 1000000000 in
  let '(y, m, d) := civil_from_days (time / 86400) in
  let s := time mod 86400 in
  (decimal y ++ "-" ++ two_digits m ++ "-" ++ two_digits d ++ "T"
   ++ two_digits (s / 3600) ++ ":" ++ two_digits (s / 60 mod 60) ++ ":"
   ++ two_digits (s mod 60) ++ ".000Z")%string.

(** *** Shallow scan *)

Definition zero_result : ScanResult := mkResult 0 0 0 0.

(** One entry of the loop of [Scanner::statDirShallow]. *)
Definition stat_entry (result : ScanResult) (entry : string * FsNode) : ScanResult :=
  match snd entry with
  | RegularFile (Some size) mtime =>
      let counted :=
        mkResult (wrap64 (res_sizeBytes result + size))
                 (wrap32 (res_fileCount result + 1))
                 (res_folderCount result)
                 (res_latestMs result) in
      match mtime with
      | Some lwt =>
          mkResult (res_sizeBytes counted) (res_fileCount counted)
                   (res_folderCount counted) (Z.max (res_latestMs counted) lwt)
      | None => counted
      end
  | RegularFile None _ => result
  | Directory _ _ | NoListing =>
      mkResult (res_sizeBytes result) (res_fileCount result)
               (wrap32 (res_folderCount result + 1)) (res_latestMs result)
  | OtherEntry | StatError => result
  end.

(** [Scanner::statDirShallow], on what is found at [dirPath]. *)
Definition statDirShallow (dir : FsNode) : ScanResult :=
  match dir with
  | Directory entries _ => fold_left stat_entry entries zero_result
  | _ => zero_result
  end.

(** The locals of [Scanner::scanShallow]. *)
Record ShallowAcc := mkAcc {
  totalSize : Z;
  totalFiles : Z;
  totalFolders : Z;
  latest : Z;
  emitted : list ItemRecord
}.

Section Shallow.

(** [now k]: what the system clock reads when it is read after [k]
    records have been made; the clock is read for a record, when it is
    read at all, before the record is added to those made. *)
Variables (now : nat -> Z) (startPath runId : string).

Definition shallow_entry (acc : ShallowAcc) (entry : string * FsNode) : ShallowAcc :=
  let childPath := child_path startPath (fst entry) in
  match snd entry with
  | RegularFile (Some size) (Some lwt) =>
      mkAcc (wrap64 (totalSize acc + size))
            (wrap32 (totalFiles acc + 1))
            (totalFolders acc)
            (Z.max (latest acc) lwt)
            (emitted acc ++
             [ mkItem childPath startPath "File" (wrap64 size) 1 0
                      (toIsoString lwt) "" 1 runId ])
  | RegularFile _ _ => acc
  | Directory _ _ | NoListing =>
      let dirStats := statDirShallow (snd entry) in
      mkAcc (wrap64 (totalSize acc + res_sizeBytes dirStats))
            (totalFiles acc)
            (wrap32 (totalFolders acc + 1))
            (Z.max (latest acc) (res_latestMs dirStats))
            (emitted acc ++
             [ mkItem childPath startPath "Folder"
                      (res_sizeBytes dirStats) (res_fileCount dirStats)
                      (res_folderCount dirStats)
                      (toIsoString (if 0 <? res_latestMs dirStats
                                    then res_latestMs dirStats
                                    else now (List.length (emitted acc))))
                      "" 1 runId ])
  | OtherEntry | StatError => acc
  end.

Definition shallow_children (entries : list (string * FsNode)) : ShallowAcc :=
  fold_left shallow_entry entries (mkAcc 0 0 0 0 []).

(** The record of [startPath] itself.  [rootLwt] is the modification time
    of the start directory, when it exists and can be read. *)
Definition rootRec (rootLwt : option Z) (acc : ShallowAcc) : ItemRecord :=
  let latest' := match rootLwt with
                 | Some lwt => Z.max (latest acc) lwt
                 | None => latest acc
                 end in
  mkItem startPath (getParent startPath) "Folder"
         (totalSize acc) (totalFiles acc) (totalFolders acc)
         (toIsoString (if 0 <? latest' then latest'
                       else now (List.length (emitted acc))))
         "" 0 runId.

(** [Scanner::scanShallow].  When the iteration throws, the outer handler
    returns what was collected, without the record of [startPath]. *)
Definition scanShallow (rootLwt : option Z) (start : FsNode) : list ItemRecord :=
  match start with
  | Directory entries complete =>
      let acc := shallow_children entries in
      if complete then emitted acc ++ [rootRec rootLwt acc] else emitted acc
  | _ => []
  end.

End Shallow.

(** *** Deep scan *)

(** What a run does besides computing its result. *)
Inductive Event : Type :=
| CancelledLoad (answer : bool)     (* cancelled.load() *)
| Iterate (dir : string)            (* fs::directory_iterator(dir) *)
| Examine (entry : string)          (* an entry taken from the iterator *)
| Progress (p : ScanProgress).      (* progressCb(progress) *)

(** The two counters of the [Scanner] object, the number of times the
    cancellation flag has been read, and the events so far, oldest first. *)
Record ScanState := mkState {
  itemsScanned_ : Z;
  lastProgressUpdate_ : Z;
  loads : nat;
  log : list Event
}.

Definition record (e : Event) (st : ScanState) : ScanState :=
  mkState (itemsScanned_ st) (lastProgressUpdate_ st) (loads st) (log st ++ [e]).

Section Deep.

(** [signal]: the canceller sets the flag once; [Some k] says that the
    reads numbered [k] and later see it set, [None] that it is never set.
    [hasCb]: whether [progressCb] holds a function.
    [now k]: what the system clock reads when it is read after [k] reads
    of the flag; a record is made between two reads of the flag, so each
    record has a reading of the clock to itself. *)
Variables (now : nat -> Z) (runId : string) (signal : option nat) (hasCb : bool).

Definition flag_at (n : nat) : bool :=
  match signal with
  | Some k => (k <=? n)%nat
  | None => false
  end.

Definition load_cancelled (st : ScanState) : bool * ScanState :=
  let answer := flag_at (loads st) in
  (answer,
   mkState (itemsScanned_ st) (lastProgressUpdate_ st) (S (loads st))
           (log st ++ [CancelledLoad answer])).

(** The progress block that ends the handling of an entry.  In a single
    thread nothing runs between the load of [lastProgressUpdate_] and the
    [compare_exchange_strong], which therefore succeeds. *)
Definition report_progress (startPath : string) (st : ScanState) : ScanState :=
  let current := itemsScanned_ st in
  let lastUpdate := lastProgressUpdate_ st in
  if PROGRESS_INTERVAL <=? wrap32 (current - lastUpdate) then
    mkState (itemsScanned_ st) current (loads st)
            (if hasCb
             then log st ++ [Progress (mkProgress runId current startPath "running" "")]
             else log st)
  else st.

Definition count_file (result : ScanResult) (size lwt : Z) : ScanResult :=
  mkResult (wrap64 (res_sizeBytes result + size))
           (wrap32 (res_fileCount result + 1))
           (res_folderCount result)
           (Z.max (res_latestMs result) lwt).

Definition fold_subdir (result subResult : ScanResult) : ScanResult :=
  mkResult (wrap64 (res_sizeBytes result + res_sizeBytes subResult))
           (wrap32 (res_fileCount result + res_fileCount subResult))
           (wrap32 (res_folderCount result + wrap32 (res_folderCount subResult + 1)))
           (Z.max (res_latestMs result) (res_latestMs subResult)).

(** The record of a file; [scanned] is what the clock reads when the
    record is made. *)
Definition file_record (childPath startPath : string) (depth size lwt scanned : Z)
  : ItemRecord :=
  mkItem childPath startPath "File" (wrap64 size) 1 0
         (toIsoString lwt) (toIsoString scanned) (wrap32 (depth + 1)) runId.

Definition increment_itemsScanned (st : ScanState) : ScanState :=
  mkState (wrap32 (itemsScanned_ st + 1)) (lastProgressUpdate_ st) (loads st) (log st).

(** The loop of [scanFullAsync] over the entries of [startPath], from the
    running [result] and [batchItems]; [recurse] is the recursive call. *)
Definition scan_entries
    (recurse : FsNode -> string -> Z -> ScanState -> ScanResult * ScanState)
    (startPath : string) (depth : Z)
  : list (string * FsNode) -> ScanResult -> list ItemRecord -> ScanState
    -> ScanResult * list ItemRecord * ScanState :=
  fix loop entries result batchItems st :=
    match entries with
    | [] => (result, batchItems, st)
    | (name, child) :: rest =>
        let (stop, st1) := load_cancelled st in
        if stop then (result, batchItems, st1)          (* break *)
        else
          let childPath := child_path startPath name in
          let st2 := record (Examine childPath) st1 in
          match child with
          | RegularFile (Some size) (Some lwt) =>
              let result' := count_file result size lwt in
              let st3 := increment_itemsScanned st2 in
              let batchItems' :=
                if MIN_FILE_SIZE_FOR_DB <=? size
                then batchItems
                     ++ [file_record childPath startPath depth size lwt (now (loads st3))]
                else batchItems in
              loop rest result' batchItems' (report_progress startPath st3)
          | RegularFile _ _ =>
              loop rest result batchItems st2            (* caught: continue *)
          | Directory _ _ | NoListing =>
              let (subResult, st3) := recurse child childPath (wrap32 (depth + 1)) st2 in
              loop rest (fold_subdir result subResult) batchItems
                   (report_progress startPath st3)
          | OtherEntry =>
              loop rest result batchItems (report_progress startPath st2)
          | StatError =>
              loop rest result batchItems st2            (* caught: continue *)
          end
    end.

(** [Scanner::scanFullAsync] on what is found at [startPath].  The batch
    of file records is a local of the call: nothing is done with it
    before the call returns its aggregate. *)
Fixpoint scanFullAsync (start : FsNode) (startPath : string) (depth : Z)
    (st : ScanState) {struct start} : ScanResult * ScanState :=
  let (stop, st1) := load_cancelled st in
  if stop then (zero_result, st1)
  else
    let st2 := record (Iterate startPath) st1 in
    match start with
    | Directory entries _ =>
        let '(result, _, st3) :=
          scan_entries scanFullAsync startPath depth entries zero_result [] st2 in
        (result, st3)
    | _ => (zero_result, st2)
    end.

(** The batch that the outermost call of a run has collected when it
    returns. *)
Definition batch_at_return (start : FsNode) (startPath : string) (depth : Z)
    (st : ScanState) : list ItemRecord :=
  let (stop, st1) := load_cancelled st in
  if stop then []
  else
    match start with
    | Directory entries _ =>
        let '(_, batchItems, _) :=
          scan_entries scanFullAsync startPath depth entries zero_result []
                       (record (Iterate startPath) st1) in
        batchItems
    | _ => []
    end.

End Deep.

(** A fresh [Scanner]: [itemsScanned_(0), lastProgressUpdate_(0)]. *)
Definition new_scanner : ScanState := mkState 0 0 0 [].

(** ** The binding layer ([addon.cc]), where it reaches the store *)

(** A call either returns a value or throws a JavaScript exception. *)
Inductive Outcome (A : Type) : Type :=
| Returned (value : A)
| Thrown (message : string).
Arguments Returned {A} value.
Arguments Thrown {A} message.

(** [globalDb]: null, or the [Database] object of the last [OpenDatabase]. *)
Definition Addon := option Database.

(** [OpenDatabase]: a new [Database] over the file ([file] is the table the
    file holds) replaces [globalDb] before [open()] is tried. *)
Definition OpenDatabase (rc_ok : bool) (file : Table) (g : Addon)
  : Outcome bool * Addon :=
  let (ok, db) := open rc_ok (mkDb false file) in
  if ok then (Returned true, Some db)
  else (Thrown "Failed to open database", Some db).

Definition CloseDatabase (g : Addon) : Outcome bool * Addon :=
  (Returned true, None).

Definition ResetDatabase (stepped : bool) (g : Addon) : Outcome bool * Addon :=
  match g with
  | None => (Thrown "Database not open", g)
  | Some db => (Returned true, Some (reset stepped db))
  end.

Definition UpsertItems (batch : list ItemRecord) (g : Addon) : Outcome bool * Addon :=
  match g with
  | None => (Thrown "Database not open", g)
  | Some db => (Returned true, Some (upsertItems batch db))
  end.

(** An [int64_t] as the [double] that [Number::New] takes: to 53
    significant bits, the nearest, the even one of two that are as near. *)
Definition to_double (z : Z) : Z :=
  let a := Z.abs z in
  if a <? 2 ^ 53 then z
  else
    let shift := Z.log2 a - 52 in
    let q := Z.shiftr a shift in
    let r := a - Z.shiftl q shift in
    let half := Z.shiftl 1 (shift - 1) in
    let q' := if (half <? r) || ((r =? half) && Z.odd q) then q + 1 else q in
    Z.sgn z * Z.shiftl q' shift.

(** [itemRecordToJS]: the object handed to JavaScript, its fields under
    the names of the record; an empty [parent] stands for [null]. *)
Definition itemRecordToJS (rec : ItemRecord) : ItemRecord :=
  mkItem (path rec) (parent rec) (type rec) (to_double (sizeBytes rec))
         (fileCount rec) (folderCount rec) (lastWriteUtc rec) (scannedUtc rec)
         (depth rec) (runId rec).

(** The response [{items, total}]. *)
Definition listing (results : list ItemRecord) : list ItemRecord * Z :=
  (map itemRecordToJS results, Z.of_nat (List.length results)).

Definition GetChildren (parent : option string) (limit offset : Z) (sort : string)
    (includeFiles : bool) (g : Addon) : Outcome (list ItemRecord * Z) :=
  match g with
  | None => Thrown "Database not open"
  | Some db => Returned (listing (getChildren parent limit offset sort includeFiles db))
  end.

Definition GetItemByPath (p : string) (g : Addon) : Outcome (option ItemRecord) :=
  match g with
  | None => Thrown "Database not open"
  | Some db => Returned (option_map itemRecordToJS (getItemByPath p db))
  end.

Definition GetRoots (limit : Z) (sort : string) (g : Addon)
  : Outcome (list ItemRecord * Z) :=
  match g with
  | None => Thrown "Database not open"
  | Some db => Returned (listing (getRoots limit sort db))
  end.

Definition GetTop (ty : string) (limit : Z) (g : Addon) : Outcome (list ItemRecord) :=
  match g with
  | None => Thrown "Database not open"
  | Some db => Returned (map itemRecordToJS (getTop ty limit db))
  end.

(** [ScanShallow]: scans, then upserts what was found if there is a store;
    [uuid] is what [generateUUID()] draws. *)
Definition ScanShallow (now : nat -> Z) (uuid startPath : string) (rootLwt : option Z)
    (start : FsNode) (g : Addon) : Outcome string * Addon :=
  let found := scanShallow now startPath uuid rootLwt start in
  match g, found with
  | Some db, _ :: _ => (Returned uuid, Some (upsertItems found db))
  | _, _ => (Returned uuid, g)
  end.

(** ** Several threads on one [Scanner]

    The counters are atomics so that calls of [scanFullAsync] on one
    [Scanner] may run in different threads.  What such a call does to the
    counters is, entry after entry: [itemsScanned_++] when the entry is a
    regular file, then the progress block.  Each access of an atomic is one
    step, and the steps of the threads interleave in any order. *)

Inductive Pc : Type :=
| NextEntry                           (* takes the next entry; a file is counted *)
| LoadCurrent                         (* int current = itemsScanned_.load() *)
| LoadLastUpdate (current : Z)        (* int lastUpdate = lastProgressUpdate_.load() *)
| Exchange (current lastUpdate : Z)   (* the test and compare_exchange_strong *)
| Callback (current : Z).             (* progressCb(progress) *)

(** A thread: its [runId], the [startPath] of the level it is in, whether
    it was given a callback, where it stands, and the entries it still has
    to handle, each with the directory that holds it and whether it is a
    regular file. *)
Record Thread := mkThread {
  th_runId : string;
  th_hasCb : bool;
  th_path : string;
  th_pc : Pc;
  th_todo : list (bool * string)
}.

Record Shared := mkShared {
  sh_itemsScanned : Z;
  sh_lastProgressUpdate : Z;
  sh_reported : list ScanProgress      (* calls of a progress callback, oldest first *)
}.

Definition at_pc (t : Thread) (pc : Pc) : Thread :=
  mkThread (th_runId t) (th_hasCb t) (th_path t) pc (th_todo t).

(** One step of a thread; [None] when it has returned. *)
Definition thread_step (t : Thread) (s : Shared) : option (Thread * Shared) :=
  match th_pc t with
  | NextEntry =>
      match th_todo t with
      | [] => None
      | (isFile, dir) :: rest =>
          Some (mkThread (th_runId t) (th_hasCb t) dir LoadCurrent rest,
                if isFile
                then mkShared (wrap32 (sh_itemsScanned s + 1))
                              (sh_lastProgressUpdate s) (sh_reported s)
                else s)
      end
  | LoadCurrent => Some (at_pc t (LoadLastUpdate (sh_itemsScanned s)), s)
  | LoadLastUpdate current =>
      Some (at_pc t (Exchange current (sh_lastProgressUpdate s)), s)
  | Exchange current lastUpdate =>
      if PROGRESS_INTERVAL <=? wrap32 (current - lastUpdate) then
        if sh_lastProgressUpdate s =? lastUpdate
        then Some (at_pc t (Callback current),
                   mkShared (sh_itemsScanned s) current (sh_reported s))
        else Some (at_pc t NextEntry, s)
      else Some (at_pc t NextEntry, s)
  | Callback current =>
      Some (at_pc t NextEntry,
            if th_hasCb t
            then mkShared (sh_itemsScanned s) (sh_lastProgressUpdate s)
                          (sh_reported s ++
                           [mkProgress (th_runId t) current (th_path t) "running" ""])
            else s)
  end.

Definition System : Type := list Thread * Shared.

(** Any thread that has not returned may take the next step. *)
Inductive step : System -> System -> Prop :=
| step_thread : forall before t after s t' s',
    thread_step t s = Some (t', s') ->
    step (before ++ t :: after, s) (before ++ t' :: after, s').

Inductive steps : System -> System -> Prop :=
| steps_refl : forall sys, steps sys sys
| steps_then : forall sys1 sys2 sys3,
    steps sys1 sys2 -> step sys2 sys3 -> steps sys1 sys3.

(** Threads about to start, on a fresh [Scanner]. *)
Definition starting (t : Thread) : Prop := th_pc t = NextEntry.

Definition initial (threads : list Thread) : System := (threads, mkShared 0 0 []).

(** The regular files the threads have still to count. *)
Definition files_todo (t : Thread) : Z :=
  Z.of_nat (List.length (filter fst (th_todo t))).

Definition files_left (threads : list Thread) : Z :=
  fold_right (fun t n => files_todo t + n) 0 threads.

(** ** Notions used to state the properties *)

(** What [LIKE] means, as a relation between the characters of a pattern
    and those of a text. *)
Inductive Like_characters : list N -> list N -> Prop :=
| Like_end : Like_characters [] []
| Like_percent_none : forall p s,
    Like_characters p s -> Like_characters (PERCENT :: p) s
| Like_percent_more : forall p c s,
    Like_characters (PERCENT :: p) s -> Like_characters (PERCENT :: p) (c :: s)
| Like_one : forall a p c s,
    a <> PERCENT -> matches_one a c = true -> Like_characters p s ->
    Like_characters (a :: p) (c :: s).

Definition Like (pattern text : string) : Prop :=
  Like_characters (characters pattern) (characters text).

(** The bytes of a text. *)
Fixpoint codes (s : string) : list N :=
  match s with
  | EmptyString => []
  | String c rest => N_of_ascii c :: codes rest
  end.

(** Text of ASCII without a capital letter. *)
Definition small_byte (c : ascii) : bool :=
  let n := N_of_ascii c in
  ((0 <? n) && (n <? 128) && negb ((65 <=? n) && (n <=? 90)))%N.

Fixpoint small_text (s : string) : bool :=
  match s with
  | EmptyString => true
  | String c rest => small_byte c && small_text rest
  end.

(** Text that holds no capital letter of ASCII and no NUL. *)
Fixpoint no_capital (s : string) : bool :=
  match s with
  | EmptyString => true
  | String c rest =>
      let n := N_of_ascii c in
      ((0 <? n) && negb ((65 <=? n) && (n <=? 90)))%N && no_capital rest
  end.

(** A path without the two wildcards of [LIKE]. *)
Fixpoint no_wildcard (s : string) : bool :=
  match s with
  | EmptyString => true
  | String c rest =>
      negb (Ascii.eqb c "%") && negb (Ascii.eqb c "_") && no_wildcard rest
  end.

(** Paths on which [LIKE r.path || '%'] is a test of prefix: those of the
    rows without a parent are of ASCII, without wildcard and without
    capital letter, and no path holds a capital letter. *)
Definition plain_paths (t : Table) : Prop :=
  forall x, In x t ->
    no_capital (r_path x) = true
    /\ (r_parent x = None ->
        small_text (r_path x) = true /\ no_wildcard (r_path x) = true).

(** The patterns [r.path || '%'] are within the limit of the engine. *)
Definition patterns_fit (t : Table) : Prop :=
  forall x, In x t -> r_parent x = None ->
    Z.of_nat (String.length (r_path x ++ "%")) <= SQLITE_MAX_LIKE_PATTERN_LENGTH.

(** The rows that [getRoots] selects: without a parent, or with a parent
    that is not a stored path and with a path that no parentless row
    matches through [LIKE r.path || '%']. *)
Definition Root_of (t : Table) (r : Row) : Prop :=
  r_parent r = None
  \/ exists p, r_parent r = Some p
       /\ (forall x, In x t -> r_path x <> p)
       /\ (forall x, In x t -> r_parent x = None ->
             ~ Like (r_path x ++ "%")%string (r_path r)).

(** The same with a plain test of prefix in place of [LIKE]. *)
Definition Root_by_prefix (t : Table) (r : Row) : Prop :=
  r_parent r = None
  \/ exists p, r_parent r = Some p
       /\ (forall x, In x t -> r_path x <> p)
       /\ (forall x, In x t -> r_parent x = None ->
             String.prefix (r_path x) (r_path r) = false).

(** Every stored row is a file or a folder. *)
Definition kinds_valid (t : Table) : Prop :=
  Forall (fun r => r_type r = "File" \/ r_type r = "Folder") t.

(** The stores that the operations make of a new file, open or not. *)
Inductive reached : Database -> Prop :=
| reached_new : forall o, reached (mkDb o [])
| reached_upsert : forall db batch, reached db -> reached (upsertItems batch db)
| reached_reset : forall db stepped, reached db -> reached (reset stepped db)
| reached_vacuum : forall db, reached db -> reached (vacuum db)
| reached_close : forall db, reached db -> reached (close db)
| reached_open : forall db rc_ok, reached db -> reached (snd (open rc_ok db)).

(** An item of the batch that is applied writes the row of path [p]. *)
Definition writes (p : string) (i : ItemRecord) : Prop :=
  valid_type (type i) = true /\ c_str (path i) = c_str p.

(** A folder [/my_dir] without a parent beside a file below [/myXdir],
    which is not stored; the same with a character of two bytes for the
    [X]; and a folder [/A] without a parent beside a file below [/a]. *)
Definition wildcard_example : Database :=
  mkDb true
    [ mkRow "/my_dir" None "Folder" 30 2 1 "2024-01-01T00:00:00.000Z" "" 0 "run-1";
      mkRow "/myXdir/f" (Some "/myXdir") "File" 204800 1 0
            "2024-01-01T00:00:00.000Z" "" 1 "run-2" ].

Definition two_byte_example : Database :=
  mkDb true
    [ mkRow "/my_dir" None "Folder" 30 2 1 "2024-01-01T00:00:00.000Z" "" 0 "run-1";
      mkRow ("/my" ++ String (ascii_of_N 195) (String (ascii_of_N 169) "dir/f"))
            (Some "/elsewhere") "File" 204800 1 0
            "2024-01-01T00:00:00.000Z" "" 1 "run-2" ].

Definition case_example : Database :=
  mkDb true
    [ mkRow "/A" None "Folder" 30 2 1 "2024-01-01T00:00:00.000Z" "" 0 "run-1";
      mkRow "/a/x" (Some "/missing") "File" 204800 1 0
            "2024-01-01T00:00:00.000Z" "" 1 "run-2" ].

(** The rows of the example of root inference. *)
Definition root_example : Database :=
  mkDb true
    [ mkRow "/a" None "Folder" 30 2 1 "2024-01-01T00:00:00.000Z" "" 0 "run-1";
      mkRow "/a/b" (Some "/a") "Folder" 20 1 0 "2024-01-01T00:00:00.000Z" "" 1 "run-1";
      mkRow "/c" (Some "/missing") "Folder" 50 1 0 "2024-01-01T00:00:00.000Z" "" 0 "run-2" ].

(** The regular files below a node whose size and time can be read, each
    with its size and its modification time. *)
Fixpoint files_under (n : FsNode) : list (Z * Z) :=
  match n with
  | RegularFile (Some size) (Some mtime) => [(size, mtime)]
  | Directory entries _ => flat_map (fun e => files_under (snd e)) entries
  | _ => []
  end.

Definition is_directory (n : FsNode) : bool :=
  match n with
  | Directory _ _ | NoListing => true
  | _ => false
  end.

(** The number of directories below a node, the node itself not counted. *)
Fixpoint folders_under (n : FsNode) : Z :=
  match n with
  | Directory entries _ =>
      fold_right Z.add 0
        (map (fun e => if is_directory (snd e) then 1 + folders_under (snd e) else 0)
             entries)
  | _ => 0
  end.

(** Nothing below the node fails to be read: every file answers for its
    size and time, every directory is listed to its end. *)
Fixpoint readable (n : FsNode) : bool :=
  match n with
  | RegularFile (Some _) (Some _) => true
  | RegularFile _ _ => false
  | Directory entries complete =>
      complete && forallb (fun e => readable (snd e)) entries
  | NoListing => false
  | OtherEntry => true
  | StatError => false
  end.

Definition sum (l : list Z) : Z := fold_right Z.add 0 l.

(** The greatest of the numbers and 0, with which [latestMs] starts. *)
Definition greatest (l : list Z) : Z := fold_right Z.max 0 l.

(** Events that touch the filesystem. *)
Definition fs_access (e : Event) : bool :=
  match e with
  | Iterate _ | Examine _ => true
  | _ => false
  end.

(** The flag is set at the next read. *)
Definition signaled (signal : option nat) (st : ScanState) : bool :=
  flag_at signal (loads st).

(** A name of an entry: not empty and without separator. *)
Fixpoint no_sep (s : string) : bool :=
  match s with
  | EmptyString => true
  | String c rest => negb (Ascii.eqb c SEP) && no_sep rest
  end.

Definition plain_name (s : string) : bool := negb (is_empty s) && no_sep s.

(** The absolute path with the given names; the root for none. *)
Definition path_of (names : list string) : string := String SEP (join_sep names).

(** The aggregate of what is below a node. *)
Definition aggregate_of (n : FsNode) : ScanResult :=
  mkResult (wrap64 (sum (map fst (files_under n))))
           (wrap32 (Z.of_nat (List.length (files_under n))))
           (wrap32 (folders_under n))
           (greatest (map snd (files_under n))).

(** The running totals [result] of a level with the entries [entries]
    folded in. *)
Definition absorbed (result : ScanResult) (entries : list (string * FsNode))
  : ScanResult :=
  let below := Directory entries true in
  mkResult
    (wrap64 (res_sizeBytes result + sum (map fst (files_under below))))
    (wrap32 (res_fileCount result + Z.of_nat (List.length (files_under below))))
    (wrap32 (res_folderCount result + folders_under below))
    (Z.max (res_latestMs result) (greatest (map snd (files_under below)))).

(** Running totals as a level holds them: within their types, the latest
    time not before 0. *)
Definition in_range (result : ScanResult) : Prop :=
  in_int64 (res_sizeBytes result)
  /\ in_int32 (res_fileCount result)
  /\ in_int32 (res_folderCount result)
  /\ 0 <= res_latestMs result.

(** All the regular files below a node, with what [file_size()] and
    [last_write_time()] answer for each. *)
Fixpoint regular_files (n : FsNode) : list (option Z * option Z) :=
  match n with
  | RegularFile size mtime => [(size, mtime)]
  | Directory entries _ => flat_map (fun e => regular_files (snd e)) entries
  | _ => []
  end.

(** A small tree: two files, a subdirectory with a file and an empty
    directory, and a socket. *)
Definition sample_tree : FsNode :=
  Directory
    [ ("small.bin", RegularFile (Some 51200) (Some 1704067200000));
      ("big.bin", RegularFile (Some 153600) (Some 1704067300000));
      ("sub", Directory [ ("x", RegularFile (Some 5) (Some 7));
                          ("empty", Directory [] true) ] true);
      ("sock", OtherEntry) ] true.

(** Two files last written before 1970. *)
Definition old_files : FsNode :=
  Directory [ ("a", RegularFile (Some 10) (Some (-86400000)));
              ("b", RegularFile (Some 20) (Some (-1000))) ] true.

(** What the queries answer for a directory that holds a directory
    [real] with one file of 10 bytes and a link [alias] to [real]: the
    link answers as the directory does. *)
Definition linked : FsNode :=
  Directory
    [ ("real", Directory [ ("f", RegularFile (Some 10) (Some 1704067200000)) ] true);
      ("alias", Directory [ ("f", RegularFile (Some 10) (Some 1704067200000)) ] true) ]
    true.

(** *** Cancellation, on the events of a run *)

(** The part of a level that is handled before the flag is seen set,
    when the flag has been read [reads] times before the first entry is
    taken, and the number of reads made; [recurse] gives the same for a
    directory among the entries. *)
Definition handled_level (recurse : FsNode -> nat -> FsNode * nat) (signal : option nat)
  : list (string * FsNode) -> nat -> list (string * FsNode) * nat :=
  fix level entries reads :=
    match entries with
    | [] => ([], reads)
    | (name, child) :: rest =>
        if flag_at signal reads then ([], S reads)
        else
          let (child', reads1) :=
            if is_directory child then recurse child (S reads) else (child, S reads) in
          let (rest', reads2) := level rest reads1 in
          ((name, child') :: rest', reads2)
    end.

(** The part of a directory that a scan handles before it sees the flag
    set: of every directory the entries up to the one before which the
    flag is read set; nothing of a directory that is entered with the flag
    set. *)
Fixpoint handled (signal : option nat) (n : FsNode) (reads : nat) {struct n}
  : FsNode * nat :=
  if flag_at signal reads then (Directory [] true, S reads)
  else
    match n with
    | Directory entries complete =>
        let (kept, reads') := handled_level (handled signal) signal entries (S reads) in
        (Directory kept complete, reads')
    | _ => (n, S reads)
    end.

(** [leading_part part n]: [part] is [n] cut short: of a directory the
    first entries under their names, each cut short in turn. *)
Inductive leading_part : FsNode -> FsNode -> Prop :=
| leading_all : forall n, leading_part n n
| leading_none : forall n, is_directory n = true -> leading_part (Directory [] true) n
| leading_entries : forall kept entries complete,
    leading_level kept entries ->
    leading_part (Directory kept complete) (Directory entries complete)
with leading_level : list (string * FsNode) -> list (string * FsNode) -> Prop :=
| leading_stop : forall entries, leading_level [] entries
| leading_next : forall name part child kept entries,
    leading_part part child -> leading_level kept entries ->
    leading_level ((name, part) :: kept) ((name, child) :: entries).

Definition set_load (e : Event) : bool :=
  match e with CancelledLoad true => true | _ => false end.

Definition clear_load (e : Event) : bool :=
  match e with CancelledLoad false => true | _ => false end.

Definition no_access (e : Event) : bool := negb (fs_access e).

(** Once the flag has been read set, no event touches the filesystem. *)
Definition stops_on_cancel (events : list Event) : Prop :=
  forall pre post,
    events = pre ++ CancelledLoad true :: post ->
    Forall (fun e => fs_access e = false) post.

(** Every access to the filesystem comes right after a read of the flag
    that found it clear. *)
Definition checked_before_access (events : list Event) : Prop :=
  forall pre e post,
    events = pre ++ e :: post -> fs_access e = true ->
    exists pre', pre = pre' ++ [CancelledLoad false].

(** The same two properties, computed. *)
Fixpoint quiet_once_set (events : list Event) : bool :=
  match events with
  | [] => true
  | e :: rest => if set_load e then forallb no_access rest else quiet_once_set rest
  end.

Fixpoint guarded_from (checked : bool) (events : list Event) : bool :=
  match events with
  | [] => true
  | e :: rest => (if fs_access e then checked else true) && guarded_from (clear_load e) rest
  end.

Definition starts_without_access (events : list Event) : bool :=
  match events with
  | [] => true
  | e :: _ => no_access e
  end.

(** What holds of the events between two states of a run, for a part of
    the run that begins with a read of the flag. *)
Definition run_ok (signal : option nat) (st st' : ScanState) : Prop :=
  exists events,
    log st' = log st ++ events
    /\ (loads st <= loads st')%nat
    /\ quiet_once_set events = true
    /\ guarded_from false events = true
    /\ starts_without_access events = true
    /\ (existsb set_load events = true -> signaled signal st' = true)
    /\ (signaled signal st = true -> forallb no_access events = true).

(** The number of records of a kind. *)
Definition count_type (ty : string) (l : list ItemRecord) : Z :=
  Z.of_nat (List.length (filter (fun c => String.eqb (type c) ty) l)).

(** A directory with a file of 50 KiB and a file of 150 KiB. *)
Definition two_files : FsNode :=
  Directory
    [ ("small.bin", RegularFile (Some (50 * 1024)) (Some 1704067200000));
      ("big.bin", RegularFile (Some (150 * 1024)) (Some 1704067300000)) ] true.

(** The reads of the flag in a scan of a node that is not cancelled: one
    on entry, one for each entry, and those of the scans of the
    directories among the entries. *)
Fixpoint flag_reads (n : FsNode) : nat :=
  S match n with
    | Directory entries _ =>
        list_sum
          (map (fun e => S (if is_directory (snd e) then flag_reads (snd e) else 0))
               entries)
    | _ => 0
    end.

Definition entry_reads (e : string * FsNode) : nat :=
  S (if is_directory (snd e) then flag_reads (snd e) else 0).

(** The file records a level collects from its entries, when it is not
    cancelled and the flag has been read [reads] times before the first
    entry is taken. *)
Fixpoint large_file_records (now : nat -> Z) (runId startPath : string) (depth : Z)
    (reads : nat) (entries : list (string * FsNode)) : list ItemRecord :=
  match entries with
  | [] => []
  | e :: rest =>
      match snd e with
      | RegularFile (Some size) (Some lwt) =>
          if MIN_FILE_SIZE_FOR_DB <=? size
          then [file_record runId (child_path startPath (fst e)) startPath
                            depth size lwt (now (S reads))]
          else []
      | _ => []
      end
      ++ large_file_records now runId startPath depth (reads + entry_reads e)%nat rest
  end.

(** *** Progress, on the events of a run *)

(** The counts that the progress events carry. *)
Definition progress_counts (events : list Event) : list Z :=
  flat_map (fun e => match e with
                     | Progress p => [pr_itemsScanned p]
                     | _ => []
                     end) events.

(** [n] thresholds in a row after the count [from]. *)
Fixpoint thresholds (from : Z) (n : nat) : list Z :=
  match n with
  | O => []
  | S m => (from + PROGRESS_INTERVAL) :: thresholds (from + PROGRESS_INTERVAL) m
  end.

(** A progress event of the run [runId] is a "running" one. *)
Definition is_running (runId : string) (e : Event) : Prop :=
  match e with
  | Progress p => pr_state p = "running" /\ pr_runId p = runId
  | _ => True
  end.

(** Between two reports the count is less than an interval ahead of the
    last count reported. *)
Definition settled (st : ScanState) : Prop :=
  0 <= lastProgressUpdate_ st
  /\ lastProgressUpdate_ st <= itemsScanned_ st
     < lastProgressUpdate_ st + PROGRESS_INTERVAL.

(** What a part of a run with a callback may do to the counters when it
    counts at most [files] files. *)
Definition progress_ok (runId : string) (st st' : ScanState) (files : Z) : Prop :=
  exists events n,
    log st' = log st ++ events
    /\ settled st'
    /\ itemsScanned_ st <= itemsScanned_ st' <= itemsScanned_ st + files
    /\ lastProgressUpdate_ st'
       = lastProgressUpdate_ st + PROGRESS_INTERVAL * Z.of_nat n
    /\ progress_counts events = thresholds (lastProgressUpdate_ st) n
    /\ Forall (is_running runId) events.

(** The number of files a run counts when it is not cancelled. *)
Definition files_counted (n : FsNode) : Z := Z.of_nat (List.length (files_under n)).

(** The same, with the count exact for a run that is never cancelled. *)
Definition counts_ok (runId : string) (signal : option nat)
    (st st' : ScanState) (files : Z) : Prop :=
  progress_ok runId st st' files
  /\ (signal = None -> itemsScanned_ st' = itemsScanned_ st + files).

(** *** Progress, with several threads *)

(** The counts of the reports that are due: a thread has won the exchange
    and has its callback still to call. *)
Definition pending (threads : list Thread) : list Z :=
  flat_map (fun t => match th_pc t with
                     | Callback current => [current]
                     | _ => []
                     end) threads.

(** The counts reported or about to be. *)
Definition claims (sys : System) : list Z :=
  map pr_itemsScanned (sh_reported (snd sys)) ++ pending (fst sys).

(** The values [lastProgressUpdate_] has taken after 0, the newest first:
    each is at least an interval above the one before. *)
Fixpoint spaced (history : list Z) : Prop :=
  match history with
  | [] => True
  | current :: older => PROGRESS_INTERVAL <= current - hd 0 older /\ spaced older
  end.

Definition known (history : list Z) (v : Z) : Prop := v = 0 \/ In v history.

Definition thread_inv (history : list Z) (s : Shared) (t : Thread) : Prop :=
  match th_pc t with
  | LoadLastUpdate current => 0 <= current <= sh_itemsScanned s
  | Exchange current lastUpdate =>
      0 <= current <= sh_itemsScanned s /\ known history lastUpdate
  | _ => True
  end.

(** What holds of every state that threads with callbacks reach from a
    fresh [Scanner] when they have [total] files to count. *)
Definition invariant (total : Z) (sys : System) : Prop :=
  exists history,
    spaced history
    /\ hd 0 history = sh_lastProgressUpdate (snd sys)
    /\ sh_lastProgressUpdate (snd sys) <= sh_itemsScanned (snd sys)
    /\ 0 <= sh_itemsScanned (snd sys)
    /\ sh_itemsScanned (snd sys) + files_left (fst sys) = total
    /\ NoDup (claims sys)
    /\ (forall v, In v (claims sys) <-> In v history)
    /\ Forall (thread_inv history (snd sys)) (fst sys)
    /\ Forall (fun t => th_hasCb t = true) (fst sys)
    /\ Forall (fun p => pr_state p = "running") (sh_reported (snd sys)).

(** A directory with three entries, none of them a regular file. *)
Definition no_files : FsNode :=
  Directory [ ("sub", Directory [] true); ("sock", OtherEntry); ("fifo", OtherEntry) ]
            true.

(** A directory of [n] small files. *)
Definition many_files (n : nat) : FsNode :=
  Directory (map (fun _ => ("f", RegularFile (Some 1) (Some 1))) (seq 0 n)) true.

(** *** Schedules *)

(** The step of the thread numbered [i]. *)
Fixpoint nth_step (i : nat) (threads : list Thread) (s : Shared)
  : option (list Thread * Shared) :=
  match threads with
  | [] => None
  | t :: rest =>
      match i with
      | O => match thread_step t s with
             | Some (t', s') => Some (t' :: rest, s')
             | None => None
             end
      | S j => match nth_step j rest s with
               | Some (rest', s') => Some (t :: rest', s')
               | None => None
               end
      end
  end.

(** The state after the threads have stepped in the order [schedule]; the
    run stops at a step that cannot be taken. *)
Fixpoint run (schedule : list nat) (sys : System) : System :=
  match schedule with
  | [] => sys
  | i :: more =>
      match nth_step i (fst sys) (snd sys) with
      | Some sys' => run more sys'
      | None => sys
      end
  end.

(** Two threads: the first has 5000 files to count, the second one entry
    that is not a file. *)
Definition two_threads : list Thread :=
  [ mkThread "run-1" true "/a" NextEntry (repeat (true, "/a") (Z.to_nat 5000));
    mkThread "run-2" true "/b" NextEntry [(false, "/b")] ].

(** The first handles 4999 files, counts the last and reads both counters;
    then the second goes through its entry, wins the exchange and
    reports. *)
Definition contended_schedule : list nat :=
  repeat 0%nat (Z.to_nat (4 * 4999 + 3)) ++ repeat 1%nat 5.

Definition contended : System := run contended_schedule (initial two_threads).

(** *** One thread alone *)

(** The calls of the callback among the events of a run. *)
Definition reports (events : list Event) : list ScanProgress :=
  flat_map (fun e => match e with
                     | Progress p => [p]
                     | _ => []
                     end) events.

(** The counters and the reports of a run in one thread, as the threads
    share them. *)
Definition shared_of (st : ScanState) : Shared :=
  mkShared (itemsScanned_ st) (lastProgressUpdate_ st) (reports (log st)).

(** The steps of a thread up to the end of the entry it is handling. *)
Fixpoint finish (fuel : nat) (t : Thread) (s : Shared) : Thread * Shared :=
  match fuel with
  | O => (t, s)
  | S fuel' =>
      match th_pc t with
      | NextEntry => (t, s)
      | _ => match thread_step t s with
             | Some (t', s') => finish fuel' t' s'
             | None => (t, s)
             end
      end
  end.

(** A thread takes its next entry and handles it with no other thread
    stepping in between. *)
Definition entry_alone (t : Thread) (s : Shared) : Thread * Shared :=
  match thread_step t s with
  | Some (t', s') => finish 4 t' s'
  | None => (t, s)
  end.

(** ** Notions for further properties of the store *)

(** [path] is the primary key of [items]: no two rows share it. *)
Definition paths_unique (t : Table) : Prop := NoDup (map r_path t).

(** The stored paths are as [c_str()] leaves a text. *)
Definition paths_clean (t : Table) : Prop :=
  Forall (fun r => c_str (r_path r) = r_path r) t.

(** The items of a batch that the loop of [upsertItems] does not skip. *)
Definition applied (batch : list ItemRecord) : list ItemRecord :=
  filter (fun i => valid_type (type i)) batch.

(** No row holds the empty text as its parent. *)
Definition no_empty_parent (t : Table) : Prop :=
  Forall (fun r => r_parent r <> Some "") t.

(** Every parent that is not NULL is the path of a stored row. *)
Definition parents_indexed (t : Table) : Prop :=
  Forall (fun r => match r_parent r with
                   | Some p => parent_indexed t p = true
                   | None => True
                   end) t.

(** [ORDER BY sizeBytes DESC] and [ORDER BY path ASC], as relations. *)
Definition size_desc (a b : Row) : Prop := r_sizeBytes b <= r_sizeBytes a.
Definition path_asc (a b : Row) : Prop := String.leb (r_path a) (r_path b) = true.

(** A store with three rows, of 10, 30 and 20 bytes. *)
Definition three_rows : Database :=
  mkDb true
    [ mkRow "/d/a" (Some "/d") "File" 10 1 0 "2024-01-01T00:00:00.000Z"
            "2024-01-02T00:00:00.000Z" 1 "run-1";
      mkRow "/d/b" (Some "/d") "File" 30 1 0 "2024-01-01T00:00:00.000Z" "" 1 "run-1";
      mkRow "/d" None "Folder" 20 2 0 "2024-01-01T00:00:00.000Z" "" 0 "run-1" ].

Definition sample_item (p parent : string) (size : Z) (scanned : string) : ItemRecord :=
  mkItem p parent "File" size 1 0 "2024-02-01T00:00:00.000Z" scanned 1 "run-2".

(** A row for an entry of the directory [dir]: its parent is [dir] and its
    path is no shorter than [dir]. *)
Definition child_row (dir : string) (r : Row) : Prop :=
  r_parent r = Some dir /\ (String.length dir <= String.length (r_path r))%nat.

(** What the items of a batch make, one after the other, of the row of
    path [p]: [o] is the row before, if there is one. *)
Definition write_row (p : string) (o : option Row) (i : ItemRecord) : option Row :=
  if valid_type (type i) && String.eqb (c_str (path i)) p
  then Some (match o with
             | Some old => on_conflict old (bind_item i)
             | None => bind_item i
             end)
  else o.

Definition written (batch : list ItemRecord) (p : string) (o : option Row) : option Row :=
  fold_left (write_row p) batch o.

(** The [scannedUtc] that the items leave in the row of [p], from [s]. *)
Definition scanned_after (batch : list ItemRecord) (p : string) (s : string) : string :=
  fold_left (fun s i =>
               if valid_type (type i) && String.eqb (c_str (path i)) p
               then if is_empty (c_str (scannedUtc i)) then s else c_str (scannedUtc i)
               else s)
            batch s.

(** ** Notions for further properties of the scanner *)

(** An entry that the loops of the scanner do not skip. *)
Definition can_be_read (n : FsNode) : bool :=
  match n with
  | RegularFile (Some _) (Some _) | Directory _ _ | NoListing | OtherEntry => true
  | _ => false
  end.

(** What is left of a tree when all that cannot be read is taken away:
    the entries whose queries throw, and the failures of listings. *)
Fixpoint readable_part (n : FsNode) : FsNode :=
  match n with
  | Directory entries _ =>
      Directory
        (flat_map (fun e => if can_be_read (snd e)
                            then [(fst e, readable_part (snd e))] else [])
                  entries)
        true
  | NoListing => Directory [] true
  | _ => n
  end.

(** A tree with a file whose size cannot be read, an entry whose status
    cannot be read, a directory that cannot be opened and a listing that
    fails after its first entry. *)
Definition damaged_tree : FsNode :=
  Directory
    [ ("a", RegularFile (Some 10) (Some 100));
      ("b", RegularFile None (Some 5));
      ("c", StatError);
      ("d", NoListing);
      ("e", Directory [ ("f", RegularFile (Some 7) (Some 300));
                        ("g", RegularFile (Some 1) None) ] false) ] false.

(** The counters of a [Scanner] and the number of reads of the flag. *)
Definition same_counters (st st' : ScanState) : Prop :=
  itemsScanned_ st = itemsScanned_ st'
  /\ lastProgressUpdate_ st = lastProgressUpdate_ st'
  /\ loads st = loads st'.

(** What a part of a run does to the count of files of its level and to
    [itemsScanned_]: it adds the same number to both, in the width of an
    [int]. *)
Definition counted (result result' : ScanResult) (st st' : ScanState) : Prop :=
  (2 ^ 32 | (res_fileCount result' - res_fileCount result)
            - (itemsScanned_ st' - itemsScanned_ st))
  /\ (in_int32 (res_fileCount result) -> in_int32 (res_fileCount result'))
  /\ (in_int32 (itemsScanned_ st) -> in_int32 (itemsScanned_ st')).

(** The regular files among the entries of a directory whose size can be
    read, with their sizes; their times, for those whose time can be read
    as well; and the number of directories among the entries. *)
Definition immediate_sizes (entries : list (string * FsNode)) : list Z :=
  flat_map (fun e => match snd e with
                     | RegularFile (Some size) _ => [size]
                     | _ => []
                     end) entries.

Definition immediate_times (entries : list (string * FsNode)) : list Z :=
  flat_map (fun e => match snd e with
                     | RegularFile (Some _) (Some lwt) => [lwt]
                     | _ => []
                     end) entries.

Definition immediate_folders (entries : list (string * FsNode)) : Z :=
  Z.of_nat (List.length (filter (fun e => is_directory (snd e)) entries)).

(** The entries for which a shallow scan emits a record, and the type it
    gives them. *)
Definition listed (n : FsNode) : bool :=
  match n with
  | RegularFile (Some _) (Some _) | Directory _ _ | NoListing => true
  | _ => false
  end.

Definition kind_of (n : FsNode) : string :=
  if is_directory n then "Folder" else "File".


(** A directory with two files, an empty directory and one that cannot be
    opened. *)
Definition flat_tree : FsNode :=
  Directory
    [ ("a", RegularFile (Some 10) (Some 100));
      ("b", Directory [] true);
      ("c", RegularFile (Some 200000) (Some 50));
      ("d", NoListing) ] true.

(** The numbers from [lo], [n] of them. *)
Fixpoint Z_range (lo : Z) (n : nat) : list Z :=
  match n with
  | O => []
  | S n' => lo :: Z_range (lo + 1) n'
  end.

(** What is checked of the numbers written. *)
Definition four_digits (z : Z) : bool := Nat.eqb (String.length (decimal z)) 4.
Definition two_digits_ok (z : Z) : bool := Nat.eqb (String.length (two_digits z)) 2.

(** A part of a run that calls no callback. *)
Definition silent (st st' : ScanState) : Prop := reports (log st') = reports (log st).

(** ** Run identifiers ([generateUUID] of [addon.cc]) *)

Definition hex_digit (d : Z) : ascii :=
  nth (Z.to_nat d) (list_ascii_of_string "0123456789abcdef") "0"%char.

(** [oss << std::hex << n]: the digits of [n] in base 16, the first not
    zero unless [n] is zero.  [fuel] bounds their number. *)
Fixpoint hex_digits (fuel : nat) (n : Z) : string :=
  match fuel with
  | O => ""
  | S fuel' =>
      if n <? 16 then String (hex_digit n) ""
      else (hex_digits fuel' (n / 16) ++ String (hex_digit (n mod 16)) "")%string
  end.

(** A [uint64_t] has 16 digits at most. *)
Definition to_hex (n : Z) : string := hex_digits 16 n.

Fixpoint zeros (k : nat) : string :=
  match k with
  | O => ""
  | S k' => String "0" (zeros k')
  end.

(** [std::setfill('0')] and [std::setw(width)] on the next output. *)
Definition setw (width : nat) (s : string) : string :=
  (zeros (width - String.length s) ++ s)%string.

(** [generateUUID], on the five numbers that [dis(gen)] draws. *)
Definition generateUUID (r1 r2 r3 r4 r5 : Z) : string :=
  (setw 8 (to_hex (Z.land r1 0xFFFFFFFF)) ++ "-"
   ++ setw 4 (to_hex (Z.land r2 0xFFFF)) ++ "-"
   ++ setw 4 (to_hex (Z.lor (Z.land r3 0x0FFF) 0x4000)) ++ "-"
   ++ setw 4 (to_hex (Z.lor (Z.land r4 0x3FFF) 0x8000)) ++ "-"
   ++ setw 12 (to_hex (Z.land r5 0xFFFFFFFFFFFF)))%string.

Definition is_hex_digit (c : ascii) : bool :=
  existsb (Ascii.eqb c) (list_ascii_of_string "0123456789abcdef").

Fixpoint all_hex (s : string) : bool :=
  match s with
  | EmptyString => true
  | String c rest => is_hex_digit c && all_hex rest
  end.

(** The [width] last digits of [n] in base 16. *)
Fixpoint fixed_hex (width : nat) (n : Z) : string :=
  match width with
  | O => ""
  | S width' => (fixed_hex width' (n / 16) ++ String (hex_digit (n mod 16)) "")%string
  end.

(** ** Notions for further properties of the threads *)

(** The steps a thread has still to take for the entry it is handling,
    at most. *)
Definition pc_rank (pc : Pc) : nat :=
  match pc with
  | NextEntry => 0
  | LoadCurrent => 4
  | LoadLastUpdate _ => 3
  | Exchange _ _ => 2
  | Callback _ => 1
  end.

(** Five steps at most for each entry. *)
Definition work (t : Thread) : nat := (5 * List.length (th_todo t) + pc_rank (th_pc t))%nat.

Definition total_work (sys : System) : nat :=
  fold_right (fun t n => (work t + n)%nat) 0%nat (fst sys).

(** The thread has returned from [scanFullAsync]. *)
Definition returned (t : Thread) : Prop := th_pc t = NextEntry /\ th_todo t = [].

(** A run of [n] steps. *)
Inductive steps_in : nat -> System -> System -> Prop :=
| steps_in_none : forall sys, steps_in 0 sys sys
| steps_in_more : forall n sys1 sys2 sys3,
    step sys1 sys2 -> steps_in n sys2 sys3 -> steps_in (S n) sys1 sys3.

(** The count is within its type and accounts for the files handled. *)
Definition count_inv (total : Z) (sys : System) : Prop :=
  0 <= sh_itemsScanned (snd sys)
  /\ sh_itemsScanned (snd sys) + files_left (fst sys) = total.

(** What the progress block and the increment before it do to the state
    in one thread, for an entry of [dir]. *)
Definition handle_entry (run : string) (hasCb isFile : bool) (dir : string)
    (st : ScanState) : ScanState :=
  report_progress run hasCb dir (if isFile then increment_itemsScanned st else st).

(** * Properties *)

(** ** Text and rows *)

Lemma c_str_idem : forall s, c_str (c_str s) = c_str s.
Proof.
  induction s as [|c s IH]; simpl; [reflexivity|].
  destruct (Ascii.eqb c NUL) eqn:E; simpl; [reflexivity|].
  rewrite E, IH. reflexivity.
Qed.

Lemma is_empty_true : forall s, is_empty s = true <-> s = "".
Proof. destruct s; simpl; split; congruence. Qed.

Lemma is_empty_false : forall s, is_empty s = false <-> s <> "".
Proof. destruct s; simpl; split; congruence. Qed.

Lemma valid_type_cases :
  forall ty, valid_type ty = true <-> ty = "File" \/ ty = "Folder".
Proof.
  intro ty. unfold valid_type. rewrite orb_true_iff, !String.eqb_eq. tauto.
Qed.

Lemma valid_type_c_str : forall ty, valid_type ty = true -> c_str ty = ty.
Proof.
  intros ty H. apply valid_type_cases in H. destruct H; subst; reflexivity.
Qed.



(** ** Upsert *)


Lemma find_upsert_row_same :
  forall x t,
    find (fun r => text_eqb (r_path r) (r_path x)) (upsert_row x t)
    = Some (match find (fun r => text_eqb (r_path r) (r_path x)) t with
            | Some old => on_conflict old x
            | None => x
            end).
Proof.
  intros x t. unfold text_eqb. induction t as [|r rest IH]; simpl.
  - rewrite String.eqb_refl. reflexivity.
  - destruct (String.eqb (r_path r) (r_path x)) eqn:E; simpl.
    + rewrite E. reflexivity.
    + rewrite E. exact IH.
Qed.

Lemma find_upsert_row_other :
  forall x t p, p <> r_path x ->
    find (fun r => text_eqb (r_path r) p) (upsert_row x t)
    = find (fun r => text_eqb (r_path r) p) t.
Proof.
  intros x t p Hp. unfold text_eqb. induction t as [|r rest IH]; simpl.
  - destruct (String.eqb (r_path x) p) eqn:E; [|reflexivity].
    apply String.eqb_eq in E. congruence.
  - destruct (String.eqb (r_path r) (r_path x)) eqn:E; simpl.
    + apply String.eqb_eq in E. rewrite E.
      destruct (String.eqb (r_path x) p) eqn:E'; [|reflexivity].
      apply String.eqb_eq in E'. congruence.
    + rewrite IH. reflexivity.
Qed.


Lemma upsertItems_open :
  forall batch db, db_ (upsertItems batch db) = db_ db.
Proof.
  intros batch db. unfold upsertItems, commitTransaction, beginTransaction.
  destruct (negb (db_ db) || _); reflexivity.
Qed.



(** ** Ordering and paging *)

Lemma insert_by_In :
  forall le x l y, In y (insert_by le x l) <-> y = x \/ In y l.
Proof.
  intros le x l y. induction l as [|z l IH]; simpl.
  - intuition.
  - destruct (le x z); simpl; [intuition|]. rewrite IH. intuition.
Qed.

Lemma sort_by_In : forall le l y, In y (sort_by le l) <-> In y l.
Proof.
  intros le l y. induction l as [|z l IH]; simpl; [tauto|].
  rewrite insert_by_In, IH. intuition.
Qed.



Lemma sql_limit_In : forall limit l y, In y (sql_limit limit l) -> In y l.
Proof.
  intros limit l y. unfold sql_limit. destruct (limit <? 0); [tauto|].
  intro H. rewrite <- (firstn_skipn (Z.to_nat limit) l).
  apply in_or_app. left. exact H.
Qed.

Lemma sql_limit_all :
  forall limit l, limit < 0 \/ Z.of_nat (List.length l) <= limit -> sql_limit limit l = l.
Proof.
  intros limit l H. unfold sql_limit. destruct (limit <? 0) eqn:E; [reflexivity|].
  apply Z.ltb_ge in E. apply firstn_all2. lia.
Qed.

Lemma sql_limit_length :
  forall limit l, 0 <= limit -> Z.of_nat (List.length (sql_limit limit l)) <= limit.
Proof.
  intros limit l H. unfold sql_limit.
  destruct (limit <? 0) eqn:E; [apply Z.ltb_lt in E; lia|].
  rewrite length_firstn. lia.
Qed.

Lemma sql_offset_none : forall l, sql_offset 0 l = l.
Proof. reflexivity. Qed.


(** *** Order *)

Section Sorting.

Variable le : Row -> Row -> bool.
Hypothesis le_total : forall a b, le a b = true \/ le b a = true.
Hypothesis le_trans : forall a b c, le a b = true -> le b c = true -> le a c = true.

Lemma insert_by_sorted :
  forall x l,
    StronglySorted (fun a b => le a b = true) l ->
    StronglySorted (fun a b => le a b = true) (insert_by le x l).
Proof.
  intros x l H. induction H as [|y l Hl IH Hy]; cbn [insert_by].
  - constructor; constructor.
  - destruct (le x y) eqn:E.
    + constructor; [constructor; assumption|].
      constructor; [exact E|].
      rewrite Forall_forall in *. intros z Hz. exact (le_trans _ _ _ E (Hy z Hz)).
    + constructor; [exact IH|].
      rewrite Forall_forall in *. intros z Hz.
      apply insert_by_In in Hz. destruct Hz as [->|Hz]; [|exact (Hy z Hz)].
      destruct (le_total x y) as [H1|H1]; [congruence | exact H1].
Qed.

Lemma sort_by_sorted :
  forall l, StronglySorted (fun a b => le a b = true) (sort_by le l).
Proof.
  induction l as [|x l IH]; cbn [sort_by fold_right]; [constructor|].
  apply insert_by_sorted, IH.
Qed.

End Sorting.

Lemma insert_by_perm : forall le x l, Permutation (x :: l) (insert_by le x l).
Proof.
  intros le x l. induction l as [|y l IH]; cbn [insert_by]; [reflexivity|].
  destruct (le x y); [reflexivity|].
  rewrite perm_swap. apply perm_skip, IH.
Qed.

Lemma sort_by_perm : forall le l, Permutation l (sort_by le l).
Proof.
  intros le l. induction l as [|x l IH]; cbn [sort_by fold_right]; [reflexivity|].
  rewrite <- insert_by_perm. apply perm_skip, IH.
Qed.

Lemma by_size_desc_total : forall a b, by_size_desc a b = true \/ by_size_desc b a = true.
Proof. intros a b. unfold by_size_desc. rewrite !Z.leb_le. lia. Qed.

Lemma by_size_desc_trans :
  forall a b c, by_size_desc a b = true -> by_size_desc b c = true -> by_size_desc a c = true.
Proof. intros a b c. unfold by_size_desc. rewrite !Z.leb_le. lia. Qed.

Lemma ascii_compare_trans :
  forall a b c, Ascii.compare a b = Lt -> Ascii.compare b c = Lt -> Ascii.compare a c = Lt.
Proof.
  intros a b c. unfold Ascii.compare. rewrite !N.compare_lt_iff. lia.
Qed.

Lemma string_compare_trans :
  forall a b c,
    String.compare a b <> Gt -> String.compare b c <> Gt -> String.compare a c <> Gt.
Proof.
  induction a as [|x a IH]; intros b c Hab Hbc.
  - destruct c; discriminate.
  - destruct b as [|y b]; [cbn in Hab; congruence|].
    destruct c as [|z c]; [cbn in Hbc; congruence|].
    cbn [String.compare] in *.
    destruct (Ascii.compare x y) eqn:Exy; [| |congruence].
    + apply Ascii.compare_eq_iff in Exy. subst y.
      destruct (Ascii.compare x z) eqn:Exz; [|discriminate|congruence].
      exact (IH b c Hab Hbc).
    + destruct (Ascii.compare y z) eqn:Eyz; [| |congruence].
      * apply Ascii.compare_eq_iff in Eyz. subst z. rewrite Exy. discriminate.
      * rewrite (ascii_compare_trans _ _ _ Exy Eyz). discriminate.
Qed.

Lemma leb_compare : forall a b, String.leb a b = true <-> String.compare a b <> Gt.
Proof.
  intros a b. unfold String.leb. destruct (String.compare a b); split; congruence.
Qed.

Lemma by_path_asc_total : forall a b, by_path_asc a b = true \/ by_path_asc b a = true.
Proof. intros a b. apply String.leb_total. Qed.

Lemma by_path_asc_trans :
  forall a b c, by_path_asc a b = true -> by_path_asc b c = true -> by_path_asc a c = true.
Proof.
  intros a b c. unfold by_path_asc. rewrite !leb_compare. apply string_compare_trans.
Qed.

Lemma order_by_sorted :
  forall sort l,
    if String.eqb sort "name_asc"
    then StronglySorted path_asc (sort_by (order_by sort) l)
    else StronglySorted size_desc (sort_by (order_by sort) l).
Proof.
  intros sort l. unfold order_by. destruct (String.eqb sort "name_asc").
  - apply (sort_by_sorted by_path_asc by_path_asc_total by_path_asc_trans).
  - assert (H := sort_by_sorted by_size_desc by_size_desc_total by_size_desc_trans l).
    eapply StronglySorted_ind with (P := StronglySorted size_desc) in H;
      [exact H | constructor |].
    intros a l' _ IH Ha. constructor; [exact IH|].
    rewrite Forall_forall in *. intros b Hb. apply Z.leb_le, (Ha b Hb).
Qed.

Lemma StronglySorted_firstn :
  forall (R : Row -> Row -> Prop) n l,
    StronglySorted R l -> StronglySorted R (firstn n l).
Proof.
  intros R n. induction n as [|n IH]; intros l H; [constructor|].
  destruct l as [|x l]; [constructor|].
  inversion H as [|? ? Hl Hx]; subst. cbn [firstn]. constructor; [apply IH, Hl|].
  rewrite Forall_forall in *. intros y Hy. apply Hx.
  rewrite <- (firstn_skipn n l). apply in_or_app. left. exact Hy.
Qed.

Lemma StronglySorted_skipn :
  forall (R : Row -> Row -> Prop) n l,
    StronglySorted R l -> StronglySorted R (skipn n l).
Proof.
  intros R n. induction n as [|n IH]; intros l H; [exact H|].
  destruct l as [|x l]; [constructor|].
  inversion H; subst. cbn [skipn]. apply IH. assumption.
Qed.

Lemma sql_limit_sorted :
  forall (R : Row -> Row -> Prop) limit l,
    StronglySorted R l -> StronglySorted R (sql_limit limit l).
Proof.
  intros R limit l H. unfold sql_limit. destruct (limit <? 0); [exact H|].
  apply StronglySorted_firstn, H.
Qed.

Lemma StronglySorted_split :
  forall (R : Row -> Row -> Prop) n l,
    StronglySorted R l ->
    forall a b, In a (firstn n l) -> In b (skipn n l) -> R a b.
Proof.
  intros R n. induction n as [|n IH]; intros l H a b Ha Hb; [destruct Ha|].
  destruct l as [|x l]; [destruct Ha|].
  inversion H as [|? ? Hl Hx]; subst. cbn [firstn skipn] in *.
  destruct Ha as [->|Ha].
  - rewrite Forall_forall in Hx. apply Hx.
    rewrite <- (firstn_skipn n l). apply in_or_app. right. exact Hb.
  - exact (IH l Hl a b Ha Hb).
Qed.

(** ** Kinds of row *)

Lemma fold_upsert_filter :
  forall batch t,
    fold_left upsert_step batch t
    = fold_left upsert_step (filter (fun i => valid_type (type i)) batch) t.
Proof.
  induction batch as [|i batch IH]; intro t; simpl; [reflexivity|].
  unfold upsert_step at 2.
  destruct (valid_type (type i)) eqn:E; simpl.
  - rewrite IH. unfold upsert_step at 3. rewrite E. reflexivity.
  - apply IH.
Qed.

Lemma upsert_row_kinds :
  forall x t,
    (r_type x = "File" \/ r_type x = "Folder") ->
    kinds_valid t -> kinds_valid (upsert_row x t).
Proof.
  intros x t Hx Ht. induction Ht as [|r rest Hr Hrest IH]; simpl.
  - constructor; [exact Hx | constructor].
  - destruct (String.eqb (r_path r) (r_path x)).
    + constructor; [exact Hx | exact Hrest].
    + constructor; [exact Hr | exact IH].
Qed.

Lemma upsert_step_kinds :
  forall t i, kinds_valid t -> kinds_valid (upsert_step t i).
Proof.
  intros t i Ht. unfold upsert_step.
  destruct (valid_type (type i)) eqn:E; simpl; [|exact Ht].
  apply upsert_row_kinds; [|exact Ht].
  cbn [bind_item r_type]. rewrite (valid_type_c_str _ E).
  apply valid_type_cases. exact E.
Qed.

Lemma fold_upsert_kinds :
  forall batch t, kinds_valid t -> kinds_valid (fold_left upsert_step batch t).
Proof.
  induction batch as [|i batch IH]; intros t Ht; simpl; [exact Ht|].
  apply IH, upsert_step_kinds, Ht.
Qed.

Lemma upsert_row_has_path :
  forall x t, exists r, In r (upsert_row x t) /\ r_path r = r_path x.
Proof.
  intros x t. induction t as [|r rest IH]; simpl.
  - exists x. split; [left; reflexivity | reflexivity].
  - destruct (String.eqb (r_path r) (r_path x)) eqn:E.
    + exists (on_conflict r x). split; [left; reflexivity|].
      apply String.eqb_eq in E. exact E.
    + destruct IH as [r' [Hin Hp]]. exists r'. split; [right; exact Hin | exact Hp].
Qed.

Lemma upsert_row_keeps_paths :
  forall x t r, In r t -> exists r', In r' (upsert_row x t) /\ r_path r' = r_path r.
Proof.
  intros x t r. induction t as [|r0 rest IH]; simpl; [tauto|].
  intros [->|Hin].
  - destruct (String.eqb (r_path r) (r_path x)).
    + exists (on_conflict r x). split; [left; reflexivity | reflexivity].
    + exists r. split; [left; reflexivity | reflexivity].
  - destruct (String.eqb (r_path r0) (r_path x)).
    + exists r. split; [right; exact Hin | reflexivity].
    + destruct (IH Hin) as [r' [Hin' Hp]].
      exists r'. split; [right; exact Hin' | exact Hp].
Qed.

Lemma fold_upsert_keeps_paths :
  forall batch t r,
    In r t -> exists r', In r' (fold_left upsert_step batch t) /\ r_path r' = r_path r.
Proof.
  induction batch as [|i batch IH]; intros t r Hin; simpl.
  - exists r. split; [exact Hin | reflexivity].
  - unfold upsert_step at 2. destruct (valid_type (type i)); simpl.
    + destruct (upsert_row_keeps_paths (bind_item i) t r Hin) as [r1 [H1 P1]].
      destruct (IH _ _ H1) as [r2 [H2 P2]]. exists r2. split; [exact H2|congruence].
    + apply IH, Hin.
Qed.

Lemma fold_upsert_applies :
  forall batch t n,
    In n batch -> valid_type (type n) = true ->
    exists r, In r (fold_left upsert_step batch t) /\ r_path r = c_str (path n).
Proof.
  induction batch as [|i batch IH]; intros t n Hin Hty; simpl; [destruct Hin|].
  destruct Hin as [->|Hin].
  - unfold upsert_step at 2. rewrite Hty. simpl.
    destruct (upsert_row_has_path (bind_item n) t) as [r1 [H1 P1]].
    destruct (fold_upsert_keeps_paths batch _ _ H1) as [r2 [H2 P2]].
    exists r2. split; [exact H2|]. rewrite P2, P1. reflexivity.
  - apply IH; assumption.
Qed.

(** ** What a batch does to the row of a path *)

Lemma items_upsertItems :
  forall batch db,
    items (upsertItems batch db)
    = if db_ db then fold_left upsert_step batch (items db) else items db.
Proof.
  intros batch db. unfold upsertItems, commitTransaction, beginTransaction.
  destruct (db_ db); cbn [negb orb]; [|reflexivity].
  destruct batch; reflexivity.
Qed.

Lemma find_upsert_step_other :
  forall t i p,
    ~ writes p i ->
    find (fun r => text_eqb (r_path r) (c_str p)) (upsert_step t i)
    = find (fun r => text_eqb (r_path r) (c_str p)) t.
Proof.
  intros t i p H. unfold upsert_step.
  destruct (valid_type (type i)) eqn:V; cbn [negb]; [|reflexivity].
  apply find_upsert_row_other. cbn [bind_item r_path].
  intro E. apply H. split; [exact V | symmetry; exact E].
Qed.

Lemma find_fold_upsert_other :
  forall batch t p,
    Forall (fun i => ~ writes p i) batch ->
    find (fun r => text_eqb (r_path r) (c_str p)) (fold_left upsert_step batch t)
    = find (fun r => text_eqb (r_path r) (c_str p)) t.
Proof.
  induction batch as [|i batch IH]; intros t p H; [reflexivity|].
  inversion H as [|? ? Hi Hrest]; subst. cbn [fold_left].
  rewrite (IH _ _ Hrest). apply find_upsert_step_other, Hi.
Qed.

Lemma valid_type_eq :
  forall ty, valid_type ty = true -> ty = "File" \/ ty = "Folder".
Proof.
  intros ty H. unfold valid_type in H. apply orb_true_iff in H.
  destruct H as [H|H]; apply String.eqb_eq in H; auto.
Qed.

Lemma c_str_valid_type : forall ty, valid_type ty = true -> c_str ty = ty.
Proof. intros ty H. destruct (valid_type_eq ty H) as [->| ->]; reflexivity. Qed.

(** The row of path [c_str (path n)] after [n] has been applied to [t]. *)
Lemma find_upsert_step_same :
  forall t n,
    valid_type (type n) = true ->
    find (fun r => text_eqb (r_path r) (c_str (path n))) (upsert_step t n)
    = Some (match find (fun r => text_eqb (r_path r) (c_str (path n))) t with
            | Some old => on_conflict old (bind_item n)
            | None => bind_item n
            end).
Proof.
  intros t n V. unfold upsert_step. rewrite V. cbn [negb].
  apply (find_upsert_row_same (bind_item n) t).
Qed.

Lemma find_some_path :
  forall p t r,
    find (fun x => text_eqb (r_path x) p) t = Some r -> r_path r = p.
Proof.
  intros p t r H. apply find_some in H. destruct H as [_ E].
  apply String.eqb_eq in E. exact E.
Qed.

Lemma fold_upsert_skips :
  forall batch t,
    Forall (fun i => valid_type (type i) = false) batch ->
    fold_left upsert_step batch t = t.
Proof.
  induction batch as [|i batch IH]; intros t H; [reflexivity|].
  inversion H as [|? ? Hi Hrest]; subst. cbn [fold_left].
  unfold upsert_step at 2. rewrite Hi. cbn [negb]. apply IH, Hrest.
Qed.

Lemma reached_kinds : forall db, reached db -> kinds_valid (items db).
Proof.
  intros db H. induction H as [o|db batch H IH|db stepped H IH|db H IH|db H IH|db rc_ok H IH].
  - constructor.
  - rewrite items_upsertItems. destruct (db_ db); [apply fold_upsert_kinds|]; exact IH.
  - unfold reset. destruct (db_ db); [destruct stepped; [exact IH | constructor] | exact IH].
  - exact IH.
  - exact IH.
  - unfold open. destruct (db_ db); [exact IH|]. destruct rc_ok; exact IH.
Qed.

(** C9.  The rows of a batch whose type is neither ["File"] nor ["Folder"]
    (the two kinds; the store writes a directory ["Folder"]) are passed
    over: the batch does what it would do without them, and a batch of
    such rows alone leaves the store as it is.  The other rows are applied,
    wherever they stand among those passed over: after the batch the row
    of the path of such an item holds the parent, type, size, counts, time
    of last write, depth and [runId] of the last item of the batch that
    writes the path, and its [scannedUtc] unless that is empty;
    [getItemByPath] reads this row.  Every row of a store that began empty
    is of one of the two kinds, whatever operations were applied to it, and
    every operation keeps a table of such rows one. *)
Theorem upsert_drops_other_kinds :
  (forall batch db,
      upsertItems batch db
      = upsertItems (filter (fun i => valid_type (type i)) batch) db)
  /\ (forall batch db,
         Forall (fun i => valid_type (type i) = false) batch ->
         upsertItems batch db = db)
  /\ (forall pre n post db,
         db_ db = true -> valid_type (type n) = true ->
         Forall (fun m => ~ writes (path n) m) post ->
         exists r,
           find (fun x => text_eqb (r_path x) (c_str (path n)))
                (items (upsertItems (pre ++ n :: post) db)) = Some r
           /\ getItemByPath (path n) (upsertItems (pre ++ n :: post) db)
              = Some (row_to_item r)
           /\ In r (items (upsertItems (pre ++ n :: post) db))
           /\ r_path r = c_str (path n)
           /\ r_parent r = (if is_empty (parent n) then None
                            else Some (c_str (parent n)))
           /\ r_type r = type n
           /\ r_sizeBytes r = sizeBytes n
           /\ r_fileCount r = fileCount n
           /\ r_folderCount r = folderCount n
           /\ r_lastWriteUtc r = c_str (lastWriteUtc n)
           /\ r_depth r = depth n
           /\ r_runId r = c_str (runId n)
           /\ (c_str (scannedUtc n) <> "" -> r_scannedUtc r = c_str (scannedUtc n)))
  /\ (forall db, reached db -> kinds_valid (items db))
  /\ (forall db,
         kinds_valid (items db) ->
         (forall batch, kinds_valid (items (upsertItems batch db)))
         /\ (forall stepped, kinds_valid (items (reset stepped db)))
         /\ kinds_valid (items (vacuum db))
         /\ kinds_valid (items (close db))
         /\ (forall rc_ok, kinds_valid (items (snd (open rc_ok db))))).
Proof.
  split; [|split; [|split; [|split]]].
  - intros batch db. unfold upsertItems, commitTransaction, beginTransaction.
    destruct (db_ db) eqn:Hopen; simpl; [|reflexivity].
    rewrite (fold_upsert_filter batch).
    destruct batch as [|i batch]; [reflexivity|].
    destruct (filter _ (i :: batch)) eqn:F; [|reflexivity].
    simpl. destruct db; simpl in *. subst. reflexivity.
  - intros batch db Hbad. unfold upsertItems, commitTransaction, beginTransaction.
    destruct (negb (db_ db) || _) eqn:E; [reflexivity|].
    rewrite (fold_upsert_skips _ _ Hbad). destruct db; reflexivity.
  - intros pre n post db Hopen Hvalid Hpost.
    assert (Hfind :
      find (fun x => text_eqb (r_path x) (c_str (path n)))
           (items (upsertItems (pre ++ n :: post) db))
      = Some (match find (fun x => text_eqb (r_path x) (c_str (path n)))
                         (fold_left upsert_step pre (items db)) with
              | Some old => on_conflict old (bind_item n)
              | None => bind_item n
              end)).
    { rewrite items_upsertItems, Hopen, fold_left_app. cbn [fold_left].
      rewrite (find_fold_upsert_other post _ (path n) Hpost).
      apply find_upsert_step_same, Hvalid. }
    eexists. split; [exact Hfind|]. split.
    { unfold getItemByPath. rewrite upsertItems_open, Hopen. cbn [negb].
      rewrite Hfind. reflexivity. }
    split; [apply find_some in Hfind; apply Hfind|].
    destruct (find _ (fold_left upsert_step pre (items db))) as [old|] eqn:E;
      cbn [on_conflict bind_item r_path r_parent r_type r_sizeBytes r_fileCount
           r_folderCount r_lastWriteUtc r_scannedUtc r_depth r_runId];
      rewrite (c_str_valid_type _ Hvalid).
    + split; [exact (find_some_path _ _ _ E)|].
      repeat (split; [reflexivity|]).
      intro Hs. apply is_empty_false in Hs. rewrite Hs. reflexivity.
    + repeat (split; [reflexivity|]). intros _. reflexivity.
  - exact reached_kinds.
  - intros db Hk. repeat split.
    + intro batch. unfold upsertItems, commitTransaction, beginTransaction.
      destruct (negb (db_ db) || _); [exact Hk|]. apply fold_upsert_kinds, Hk.
    + intro stepped. unfold reset.
      destruct (db_ db); [destruct stepped; [exact Hk | constructor] | exact Hk].
    + exact Hk.
    + exact Hk.
    + intro rc_ok. unfold open. destruct (db_ db); [exact Hk|].
      destruct rc_ok; exact Hk.
Qed.

Lemma upsert_drops_other_kinds_witness :
  let good := mkItem "/f" "/a" "File" 9 1 0 "2024-01-02T00:00:00.000Z" "" 1 "run-2" in
  let bad := mkItem "/f" "/a" "Symlink" 1 0 0 "2024-01-03T00:00:00.000Z"
                    "2024-01-03T00:00:05.000Z" 1 "run-3" in
  let db := mkDb true [mkRow "/f" (Some "/b") "File" 7 1 0 "2024-01-01T00:00:00.000Z"
                             "2024-01-01T00:00:05.000Z" 1 "run-1"] in
  (exists r,
     find (fun x => text_eqb (r_path x) "/f") (items (upsertItems [bad; good; bad] db))
     = Some r
     /\ r_parent r = Some "/a" /\ r_sizeBytes r = 9 /\ r_runId r = "run-2")
  /\ upsertItems [bad; bad] db = db
  /\ kinds_valid (items (upsertItems [bad; good; bad] db)).
Proof.
  intros good bad db.
  destruct upsert_drops_other_kinds as [_ [Hdropped [Happlied [_ Hkept]]]].
  split; [|split].
  - destruct (Happlied [bad] good [bad] db) as [r [Hr [_ [_ [_ [Hp [_ [Hs [_ [_ [_ [_ [Hi _]]]]]]]]]]]]].
    + reflexivity.
    + reflexivity.
    + constructor; [intros [V _]; discriminate V | constructor].
    + exists r. split; [exact Hr|]. split; [exact Hp|]. split; [exact Hs | exact Hi].
  - apply Hdropped. constructor; [reflexivity|]. constructor; [reflexivity | constructor].
  - apply (Hkept db).
    constructor; [left; reflexivity | constructor].
Defined.

(** ** Parentless rows *)

Lemma getItemByPath_open :
  forall p db, db_ db = true ->
    getItemByPath p db
    = option_map row_to_item (find (fun r => text_eqb (r_path r) (c_str p)) (items db)).
Proof.
  intros p db H. unfold getItemByPath. rewrite H. simpl.
  destruct (find _ _); reflexivity.
Qed.






(** ** A store that is not open *)

(** C7, as the code has it.  On a [Database] whose handle is null every
    operation returns at once and leaves the table alone: [upsertItems]
    does nothing, [getItemByPath] answers null, and [getChildren],
    [getRoots] and [getTop] answer an empty vector, which is what an open
    store without rows answers.  The binding throws "Database not open"
    when there is no [Database] object at all. *)
Theorem closed_store_answers_empty :
  forall db : Database,
    db_ db = false ->
    (forall batch, upsertItems batch db = db)
    /\ (forall p, getItemByPath p db = None
                  /\ getItemByPath p db = getItemByPath p (mkDb true []))
    /\ (forall parent limit offset sort includeFiles,
           getChildren parent limit offset sort includeFiles db = []
           /\ getChildren parent limit offset sort includeFiles db
              = getChildren parent limit offset sort includeFiles (mkDb true []))
    /\ (forall limit sort,
           getRoots limit sort db = []
           /\ getRoots limit sort db = getRoots limit sort (mkDb true []))
    /\ (forall ty limit,
           getTop ty limit db = []
           /\ getTop ty limit db = getTop ty limit (mkDb true []))
    /\ (forall batch, UpsertItems batch None = (Thrown "Database not open", None))
    /\ (forall p, GetItemByPath p None = Thrown "Database not open")
    /\ (forall parent limit offset sort includeFiles,
           GetChildren parent limit offset sort includeFiles None
           = Thrown "Database not open")
    /\ (forall limit sort, GetRoots limit sort None = Thrown "Database not open")
    /\ (forall ty limit, GetTop ty limit None = Thrown "Database not open").
Proof.
  intros db Hclosed.
  assert (Hlim : forall limit, sql_limit limit [] = []).
  { intro limit. unfold sql_limit. destruct (limit <? 0); [reflexivity|].
    apply firstn_nil. }
  repeat split; try reflexivity.
  - intro batch. unfold upsertItems, commitTransaction, beginTransaction. rewrite Hclosed. reflexivity.
  - unfold getItemByPath. rewrite Hclosed. reflexivity.
  - unfold getItemByPath. rewrite Hclosed. reflexivity.
  - unfold getChildren. rewrite Hclosed. reflexivity.
  - unfold getChildren. rewrite Hclosed. cbn.
    unfold sql_offset. rewrite skipn_nil, Hlim. reflexivity.
  - unfold getRoots. rewrite Hclosed. reflexivity.
  - unfold getRoots. rewrite Hclosed. cbn. rewrite Hlim. reflexivity.
  - unfold getTop. rewrite Hclosed. reflexivity.
  - unfold getTop. rewrite Hclosed. cbn. rewrite Hlim. reflexivity.
Qed.

Lemma closed_store_answers_empty_witness :
  let db := mkDb false [mkRow "/a" None "Folder" 7 1 0 "2024-01-01T00:00:00.000Z"
                              "" 0 "run-1"] in
  (forall batch, upsertItems batch db = db)
  /\ (forall p, getItemByPath p db = None
                /\ getItemByPath p db = getItemByPath p (mkDb true [])).
Proof.
  intro db.
  destruct (closed_store_answers_empty db eq_refl) as [Hupsert [Hget _]].
  split; [exact Hupsert | exact Hget].
Defined.

(** C7 as stated does not hold: after an [OpenDatabase] that failed, and on
    any [Database] that is not open, the operations complete and answer as
    an empty store would. *)
Lemma closed_store_not_distinct :
  let stored := mkRow "/a" None "Folder" 7 1 0 "2024-01-01T00:00:00.000Z" "" 0 "run-1" in
  let item := mkItem "/b" "" "Folder" 10 1 0 "2024-01-02T00:00:00.000Z" "" 0 "run-2" in
  let g := snd (OpenDatabase false [stored] None) in
  let db := mkDb false [stored] in
  fst (OpenDatabase false [stored] None) = Thrown "Failed to open database"
  /\ g = Some db
  /\ UpsertItems [item] g = (Returned true, g)
  /\ GetItemByPath "/a" g = Returned None
  /\ GetChildren None 200 0 "size_desc" true g = Returned ([], 0)
  /\ GetRoots 200 "size_desc" g = Returned ([], 0)
  /\ GetTop "Folder" 100 g = Returned []
  /\ upsertItems [item] db = db
  /\ getItemByPath "/a" db = getItemByPath "/a" (mkDb true [])
  /\ getChildren None 200 0 "size_desc" true db
     = getChildren None 200 0 "size_desc" true (mkDb true [])
  /\ getRoots 200 "size_desc" db = getRoots 200 "size_desc" (mkDb true [])
  /\ getTop "Folder" 100 db = getTop "Folder" 100 (mkDb true []).
Proof. repeat split. Qed.

(** ** LIKE *)

Lemma like_characters_percent :
  forall p s,
    like_characters (PERCENT :: p) s
    = like_characters p s || match s with
                             | [] => false
                             | _ :: s' => like_characters (PERCENT :: p) s'
                             end.
Proof. intros p s. destruct s; reflexivity. Qed.

Lemma like_characters_other :
  forall a p s, a <> PERCENT ->
    like_characters (a :: p) s
    = match s with
      | [] => false
      | c :: s' => matches_one a c && like_characters p s'
      end.
Proof.
  intros a p s Ha. apply N.eqb_neq in Ha.
  destruct s; cbn [like_characters]; rewrite Ha; reflexivity.
Qed.

Lemma like_characters_sound :
  forall p s, like_characters p s = true -> Like_characters p s.
Proof.
  induction p as [|a p IH]; intros s H.
  - destruct s; [constructor | discriminate].
  - destruct (N.eq_dec a PERCENT) as [->|Ha].
    + induction s as [|c s IHs].
      * rewrite like_characters_percent, orb_false_r in H.
        apply Like_percent_none, IH, H.
      * rewrite like_characters_percent in H. apply orb_true_iff in H.
        destruct H as [H|H].
        -- apply Like_percent_none, IH, H.
        -- apply Like_percent_more, IHs, H.
    + rewrite (like_characters_other _ _ _ Ha) in H.
      destruct s as [|c s]; [discriminate|].
      apply andb_true_iff in H. destruct H as [H1 H2].
      apply Like_one; [exact Ha | exact H1 | apply IH, H2].
Qed.

Lemma like_characters_complete :
  forall p s, Like_characters p s -> like_characters p s = true.
Proof.
  intros p s H. induction H.
  - reflexivity.
  - rewrite like_characters_percent, IHLike_characters. reflexivity.
  - rewrite like_characters_percent, IHLike_characters. apply orb_true_r.
  - rewrite (like_characters_other _ _ _ H), H0, IHLike_characters. reflexivity.
Qed.

Lemma like_iff : forall p s, like p s = true <-> Like p s.
Proof.
  intros p s. unfold like, Like.
  split; [apply like_characters_sound | apply like_characters_complete].
Qed.

Lemma like_percent_all : forall s, like_characters [PERCENT] s = true.
Proof.
  induction s as [|c s IH]; [reflexivity|].
  rewrite like_characters_percent, IH. apply orb_true_r.
Qed.

(** *** Text without capital letters *)

Lemma c_str_no_capital : forall s, no_capital s = true -> c_str s = s.
Proof.
  induction s as [|c s IH]; intro H; [reflexivity|].
  cbn [no_capital] in H. apply andb_true_iff in H. destruct H as [Hc Hs].
  apply andb_true_iff in Hc. destruct Hc as [Hc _]. apply N.ltb_lt in Hc.
  cbn [c_str]. destruct (Ascii.eqb_spec c NUL) as [->|_]; [cbn in Hc; lia|].
  rewrite (IH Hs). reflexivity.
Qed.

Lemma small_text_no_capital :
  forall p rest, small_text p = true -> no_capital rest = true ->
                 no_capital (p ++ rest) = true.
Proof.
  induction p as [|c p IH]; intros rest Hp Hrest; [exact Hrest|].
  cbn [small_text] in Hp. apply andb_true_iff in Hp. destruct Hp as [Hc Hp].
  unfold small_byte in Hc. cbv zeta in Hc.
  apply andb_true_iff in Hc. destruct Hc as [Hc Hcap].
  apply andb_true_iff in Hc. destruct Hc as [H0 _].
  cbn [append no_capital]. rewrite H0, Hcap, (IH _ Hp Hrest). reflexivity.
Qed.

Lemma characters_small :
  forall p rest,
    small_text p = true ->
    characters_from None (p ++ rest) = codes p ++ characters_from None rest.
Proof.
  induction p as [|c p IH]; intros rest Hp; [reflexivity|].
  cbn [small_text] in Hp. apply andb_true_iff in Hp. destruct Hp as [Hc Hp].
  unfold small_byte in Hc. cbv zeta in Hc.
  apply andb_true_iff in Hc. destruct Hc as [Hc _].
  apply andb_true_iff in Hc. destruct Hc as [_ H128]. apply N.ltb_lt in H128.
  cbn [append characters_from codes]. cbv zeta.
  replace (N_of_ascii c <? 192)%N with true by (symmetry; apply N.ltb_lt; lia).
  rewrite (IH _ Hp). reflexivity.
Qed.

Lemma utf8_code_high : forall c, (128 <= utf8_code c)%N.
Proof.
  intro c. unfold utf8_code.
  destruct (c <? 128)%N eqn:E; cbn [orb]; [lia|].
  apply N.ltb_ge in E.
  destruct (_ || _ || _); lia.
Qed.

Lemma characters_pending :
  forall s c, exists h t, characters_from (Some c) s = h :: t /\ (128 <= h)%N.
Proof.
  induction s as [|b s IH]; intro c.
  - exists (utf8_code c), []. split; [reflexivity | apply utf8_code_high].
  - cbn [characters_from]. cbv zeta.
    destruct (is_continuation (N_of_ascii b)); [apply IH|].
    eexists _, _. split; [reflexivity | apply utf8_code_high].
Qed.

Lemma matches_one_small :
  forall a c,
    small_byte a = true -> a <> "_"%char ->
    forall n, (n = N_of_ascii c /\ negb ((65 <=? n) && (n <=? 90))%N = true)
              \/ (128 <= n)%N ->
    matches_one (N_of_ascii a) n = true <-> n = N_of_ascii a.
Proof.
  intros a c Ha Hu n Hn. unfold small_byte in Ha. cbv zeta in Ha.
  apply andb_true_iff in Ha. destruct Ha as [Ha Hcap].
  apply andb_true_iff in Ha. destruct Ha as [H0 H128].
  apply N.ltb_lt in H128.
  assert (Hne : N_of_ascii a <> UNDERSCORE).
  { intro E. apply Hu. rewrite <- (ascii_N_embedding a), E. reflexivity. }
  unfold matches_one. apply N.eqb_neq in Hne. rewrite Hne. cbn [orb].
  split.
  - intro H. apply orb_true_iff in H. destruct H as [H|H];
      [apply N.eqb_eq in H; congruence|].
    apply andb_true_iff in H. destruct H as [H Hl].
    apply andb_true_iff in H. destruct H as [_ Hn128]. apply N.ltb_lt in Hn128.
    destruct Hn as [[-> Hncap]|Hn]; [|lia].
    unfold to_lower in Hl.
    apply negb_true_iff in Hcap. apply negb_true_iff in Hncap.
    rewrite Hcap, Hncap in Hl. apply N.eqb_eq in Hl. congruence.
  - intros ->. rewrite N.eqb_refl. reflexivity.
Qed.

(** For a path of ASCII without wildcard and without capital letter, the
    match of [path || '%'] against a text without capital letter is the
    test of prefix. *)
Lemma plain_like_characters :
  forall p,
    small_text p = true -> no_wildcard p = true ->
    forall s, no_capital s = true ->
      like_characters (codes p ++ [PERCENT]) (characters_from None s)
      = String.prefix p s.
Proof.
  induction p as [|a p IH]; intros Hp Hw s Hs.
  - cbn [codes app]. rewrite like_percent_all. destruct s; reflexivity.
  - cbn [small_text] in Hp. apply andb_true_iff in Hp. destruct Hp as [Ha Hp].
    cbn [no_wildcard] in Hw. apply andb_true_iff in Hw. destruct Hw as [Hw Hw'].
    apply andb_true_iff in Hw. destruct Hw as [Hpc Hus].
    apply negb_true_iff, Ascii.eqb_neq in Hpc.
    apply negb_true_iff, Ascii.eqb_neq in Hus.
    assert (Hnp : N_of_ascii a <> PERCENT).
    { intro E. apply Hpc. rewrite <- (ascii_N_embedding a), E. reflexivity. }
    cbn [codes app]. rewrite (like_characters_other _ _ _ Hnp).
    destruct s as [|c s]; [reflexivity|].
    cbn [no_capital] in Hs. cbv zeta in Hs.
    apply andb_true_iff in Hs. destruct Hs as [Hc Hs].
    apply andb_true_iff in Hc. destruct Hc as [_ Hccap].
    cbn [String.prefix characters_from]. cbv zeta.
    destruct (N_of_ascii c <? 192)%N eqn:E192.
    + destruct (ascii_dec a c) as [->|Hne].
      * replace (matches_one (N_of_ascii c) (N_of_ascii c)) with true.
        -- cbn [andb]. apply IH; assumption.
        -- symmetry. apply (matches_one_small c c Ha Hus).
           ++ left. split; [reflexivity | exact Hccap].
           ++ reflexivity.
      * replace (matches_one (N_of_ascii a) (N_of_ascii c)) with false; [reflexivity|].
        symmetry. apply not_true_is_false. intro M.
        apply (matches_one_small a c Ha Hus) in M.
        -- apply Hne. rewrite <- (ascii_N_embedding a), <- (ascii_N_embedding c), M.
           reflexivity.
        -- left. split; [reflexivity | exact Hccap].
    + apply N.ltb_ge in E192.
      destruct (characters_pending s (utf8_first (N_of_ascii c))) as [h [t [-> Hh]]].
      destruct (ascii_dec a c) as [->|Hne].
      * exfalso. unfold small_byte in Ha. cbv zeta in Ha.
        apply andb_true_iff in Ha. destruct Ha as [Ha _].
        apply andb_true_iff in Ha. destruct Ha as [_ Ha]. apply N.ltb_lt in Ha. lia.
      * replace (matches_one (N_of_ascii a) h) with false; [reflexivity|].
        symmetry. apply not_true_is_false. intro M.
        apply (matches_one_small a c Ha Hus) in M; [|right; exact Hh].
        unfold small_byte in Ha. cbv zeta in Ha.
        apply andb_true_iff in Ha. destruct Ha as [Ha _].
        apply andb_true_iff in Ha. destruct Ha as [_ Ha]. apply N.ltb_lt in Ha. lia.
Qed.

Lemma plain_like :
  forall p s,
    small_text p = true -> no_wildcard p = true -> no_capital s = true ->
    like (p ++ "%") s = String.prefix p s.
Proof.
  intros p s Hp Hw Hs. unfold like, characters.
  rewrite (c_str_no_capital s Hs).
  rewrite (c_str_no_capital (p ++ "%")) by (apply small_text_no_capital; [exact Hp | reflexivity]).
  rewrite (characters_small _ _ Hp).
  apply plain_like_characters; assumption.
Qed.

(** ** Roots *)

Lemma is_root_iff : forall t r, is_root t r = true <-> Root_of t r.
Proof.
  intros t r. unfold is_root, Root_of.
  destruct (r_parent r) as [p|]; [|split; [left; reflexivity | reflexivity]].
  rewrite andb_true_iff, !negb_true_iff.
  unfold parent_indexed, under_known_root.
  split.
  - intros [H1 H2]. right. exists p. split; [reflexivity|]. split.
    + intros x Hx Heq.
      assert (existsb (fun x0 => text_eqb (r_path x0) p) t = true).
      { apply existsb_exists. exists x. split; [exact Hx|].
        apply String.eqb_eq, Heq. }
      congruence.
    + intros x Hx Hnone HL.
      assert (existsb (fun x0 => match r_parent x0 with
                                 | None => like (r_path x0 ++ "%")%string (r_path r)
                                 | Some _ => false
                                 end) t = true).
      { apply existsb_exists. exists x. split; [exact Hx|].
        rewrite Hnone. apply like_iff, HL. }
      congruence.
  - intros [H|[q [Hq [H1 H2]]]]; [discriminate|]. injection Hq as <-. split.
    + apply not_true_is_false. intro E. apply existsb_exists in E.
      destruct E as [x [Hx E]]. apply String.eqb_eq in E. exact (H1 x Hx E).
    + apply not_true_is_false. intro E. apply existsb_exists in E.
      destruct E as [x [Hx E]]. destruct (r_parent x) eqn:Hp; [discriminate|].
      apply like_iff in E. exact (H2 x Hx Hp E).
Qed.

Lemma Root_of_plain :
  forall t r,
    plain_paths t -> In r t -> (Root_of t r <-> Root_by_prefix t r).
Proof.
  intros t r Hplain Hr. unfold Root_of, Root_by_prefix.
  destruct (Hplain r Hr) as [Hcap _].
  split; (intros [H|[p [Hp [H1 H2]]]]; [left; exact H|]);
    right; exists p; (split; [exact Hp|]); (split; [exact H1|]);
    intros x Hx Hnone; destruct (Hplain x Hx) as [_ Hx']; destruct (Hx' Hnone) as [Hs Hw].
  - rewrite <- (plain_like _ _ Hs Hw Hcap). apply not_true_is_false.
    intro E. apply like_iff in E. exact (H2 x Hx Hnone E).
  - intro E. apply like_iff in E. rewrite (plain_like _ _ Hs Hw Hcap) in E.
    rewrite (H2 x Hx Hnone) in E. discriminate E.
Qed.

(** C3, where the code departs from it.  [getRoots] sorts the rows it
    selects and returns the first [limit] of them, all for a negative
    [limit].  It selects the rows without a parent and those whose parent
    is not a stored path and whose path no row without a parent matches by
    [LIKE r.path || '%'].  Where the paths hold no capital letter and those
    of the rows without a parent are of ASCII without wildcard, that is the
    test of prefix of the claim, and on the rows [/a] (no parent), [/a/b]
    (parent [/a]) and [/c] (parent [/missing]) the code returns [/a] and
    [/c].  But the path is handed to [LIKE] as it is: beside [/my_dir],
    which has no parent, the file [/myXdir/f], whose parent is not stored
    and of which [/my_dir] is no prefix, is not returned, with [X] one byte
    or a character of two; nor is [/a/x] beside [/A]. *)
Theorem getRoots_selects_by_like :
  forall (db : Database) (limit : Z) (sort : string),
    db_ db = true ->
    patterns_fit (items db) ->
    (exists top rest,
        getRoots limit sort db = map row_to_item top
        /\ Permutation (top ++ rest) (filter (is_root (items db)) (items db))
        /\ (if String.eqb sort "name_asc"
            then StronglySorted path_asc (top ++ rest)
            else StronglySorted size_desc (top ++ rest))
        /\ (rest <> [] -> Z.of_nat (List.length top) = limit))
    /\ (forall r, is_root (items db) r = true <-> Root_of (items db) r)
    /\ (plain_paths (items db) ->
        forall r, In r (items db) ->
                  (is_root (items db) r = true <-> Root_by_prefix (items db) r))
    /\ (plain_paths (items root_example)
        /\ map path (getRoots 200 "name_asc" root_example) = ["/a"; "/c"]
        /\ map path (getRoots 200 "size_desc" root_example) = ["/c"; "/a"])
    /\ ((forall r, In r (items wildcard_example) ->
                   Root_by_prefix (items wildcard_example) r)
        /\ map path (getRoots 200 "name_asc" wildcard_example) = ["/my_dir"])
    /\ ((forall r, In r (items two_byte_example) ->
                   Root_by_prefix (items two_byte_example) r)
        /\ map path (getRoots 200 "name_asc" two_byte_example) = ["/my_dir"])
    /\ ((forall r, In r (items case_example) ->
                   Root_by_prefix (items case_example) r)
        /\ map path (getRoots 200 "name_asc" case_example) = ["/A"]).
Proof.
  intros db limit sort Hopen _.
  split; [|split; [|split; [|split; [|split; [|split]]]]].
  - unfold getRoots. rewrite Hopen. cbn [negb].
    set (roots := filter _ (items db)).
    pose proof (order_by_sorted sort roots) as Hs.
    unfold sql_limit. destruct (limit <? 0) eqn:E.
    + exists (sort_by (order_by sort) roots), [].
      split; [reflexivity|]. rewrite app_nil_r.
      split; [symmetry; apply sort_by_perm|]. split; [exact Hs|].
      intros H. congruence.
    + apply Z.ltb_ge in E.
      exists (firstn (Z.to_nat limit) (sort_by (order_by sort) roots)),
             (skipn (Z.to_nat limit) (sort_by (order_by sort) roots)).
      split; [reflexivity|]. rewrite firstn_skipn.
      split; [symmetry; apply sort_by_perm|]. split; [exact Hs|].
      intros Hrest. rewrite firstn_length_le; [lia|].
      destruct (Nat.le_gt_cases (Z.to_nat limit)
                  (List.length (sort_by (order_by sort) roots))) as [H|H]; [exact H|].
      exfalso. apply Hrest. apply skipn_all2. lia.
  - intro r. apply is_root_iff.
  - intros Hplain r Hr. rewrite is_root_iff. apply Root_of_plain; assumption.
  - split; [|split; reflexivity].
    intros x [<-|[<-|[<-|[]]]]; (split; [reflexivity|]); intro H;
      try discriminate H; split; reflexivity.
  - split; [|reflexivity].
    intros r [<-|[<-|[]]]; [left; reflexivity|].
    right. exists "/myXdir". split; [reflexivity|]. split.
    + intros x [<-|[<-|[]]]; discriminate.
    + intros x [<-|[<-|[]]] Hp; [reflexivity | discriminate].
  - split; [|reflexivity].
    intros r [<-|[<-|[]]]; [left; reflexivity|].
    right. exists "/elsewhere". split; [reflexivity|]. split.
    + intros x [<-|[<-|[]]]; discriminate.
    + intros x [<-|[<-|[]]] Hp; [reflexivity | discriminate].
  - split; [|reflexivity].
    intros r [<-|[<-|[]]]; [left; reflexivity|].
    right. exists "/missing". split; [reflexivity|]. split.
    + intros x [<-|[<-|[]]]; discriminate.
    + intros x [<-|[<-|[]]] Hp; [reflexivity | discriminate].
Qed.

Lemma getRoots_selects_by_like_witness :
  (exists top rest,
      getRoots 1 "size_desc" root_example = map row_to_item top
      /\ Permutation (top ++ rest)
           (filter (is_root (items root_example)) (items root_example))
      /\ StronglySorted size_desc (top ++ rest)
      /\ (rest <> [] -> Z.of_nat (List.length top) = 1))
  /\ (forall r, In r (items root_example) ->
                (is_root (items root_example) r = true
                 <-> Root_by_prefix (items root_example) r)).
Proof.
  assert (Hfit : patterns_fit (items root_example)).
  { intros x [<-|[<-|[<-|[]]]] H; try discriminate H. vm_compute. discriminate. }
  destruct (getRoots_selects_by_like root_example 1 "size_desc" eq_refl Hfit)
    as [Hcut [_ [Hplain [[Hp _] _]]]].
  split; [exact Hcut | exact (Hplain Hp)].
Defined.

(** ** Machine arithmetic *)

Lemma wrap_add_l : forall bits a b, 0 < bits ->
  wrap bits (wrap bits a + b) = wrap bits (a + b).
Proof.
  intros bits a b Hb. unfold wrap.
  assert (Hpos : 0 < 2 ^ bits) by (apply Z.pow_pos_nonneg; lia).
  f_equal.
  replace ((a + 2 ^ (bits - 1)) mod 2 ^ bits - 2 ^ (bits - 1) + b + 2 ^ (bits - 1))
    with ((a + 2 ^ (bits - 1)) mod 2 ^ bits + b) by ring.
  rewrite Zplus_mod_idemp_l. f_equal. ring.
Qed.

Lemma wrap_add_r : forall bits a b, 0 < bits ->
  wrap bits (a + wrap bits b) = wrap bits (a + b).
Proof.
  intros bits a b Hb. rewrite (Z.add_comm a), wrap_add_l by exact Hb.
  f_equal. ring.
Qed.

Lemma wrap_small : forall bits z, 0 < bits ->
  - 2 ^ (bits - 1) <= z < 2 ^ (bits - 1) -> wrap bits z = z.
Proof.
  intros bits z Hb Hz. unfold wrap.
  assert (E : 2 ^ bits = 2 * 2 ^ (bits - 1)).
  { replace bits with (Z.succ (bits - 1)) at 1 by lia.
    rewrite Z.pow_succ_r by lia. reflexivity. }
  rewrite Z.mod_small; lia.
Qed.

Lemma wrap64_add_l : forall a b, wrap64 (wrap64 a + b) = wrap64 (a + b).
Proof. intros. apply wrap_add_l. lia. Qed.

Lemma wrap64_add_r : forall a b, wrap64 (a + wrap64 b) = wrap64 (a + b).
Proof. intros. apply wrap_add_r. lia. Qed.

Lemma wrap32_add_l : forall a b, wrap32 (wrap32 a + b) = wrap32 (a + b).
Proof. intros. apply wrap_add_l. lia. Qed.

Lemma wrap32_add_r : forall a b, wrap32 (a + wrap32 b) = wrap32 (a + b).
Proof. intros. apply wrap_add_r. lia. Qed.

Lemma wrap32_small : forall z, in_int32 z -> wrap32 z = z.
Proof. intros z H. apply wrap_small; [lia|]. exact H. Qed.

Lemma wrap64_small : forall z, in_int64 z -> wrap64 z = z.
Proof. intros z H. apply wrap_small; [lia|]. exact H. Qed.

(** ** Induction on the filesystem tree *)

Lemma FsNode_ind :
  forall P : FsNode -> Prop,
    (forall size mtime, P (RegularFile size mtime)) ->
    (forall entries complete,
        Forall (fun e => P (snd e)) entries -> P (Directory entries complete)) ->
    P NoListing -> P OtherEntry -> P StatError ->
    forall n, P n.
Proof.
  intros P Hfile Hdir Hno Hother Hstat. fix IH 1.
  intros [size mtime|entries complete| | |].
  - apply Hfile.
  - apply Hdir. induction entries as [|[name child] entries IHentries].
    + constructor.
    + constructor; [apply IH | exact IHentries].
  - exact Hno.
  - exact Hother.
  - exact Hstat.
Qed.

(** ** Deep scan: the aggregate *)

Lemma sum_app : forall a b, sum (a ++ b) = sum a + sum b.
Proof.
  intros a b. unfold sum. induction a as [|x a IH]; simpl; [reflexivity|].
  rewrite IH. ring.
Qed.

Lemma greatest_app : forall a b, greatest (a ++ b) = Z.max (greatest a) (greatest b).
Proof.
  intros a b. unfold greatest. induction a as [|x a IH]; simpl.
  - assert (0 <= fold_right Z.max 0 b).
    { induction b as [|y b IHb]; simpl; lia. }
    lia.
  - rewrite IH. lia.
Qed.

Lemma greatest_nonneg : forall l, 0 <= greatest l.
Proof. unfold greatest. induction l as [|x l IH]; simpl; lia. Qed.

Lemma files_under_cons :
  forall name child rest c c',
    files_under (Directory ((name, child) :: rest) c)
    = files_under child ++ files_under (Directory rest c').
Proof. reflexivity. Qed.

Lemma folders_under_cons :
  forall name child rest c c',
    folders_under (Directory ((name, child) :: rest) c)
    = (if is_directory child then 1 + folders_under child else 0)
      + folders_under (Directory rest c').
Proof. reflexivity. Qed.

Lemma scan_entries_nil :
  forall now runId signal hasCb recurse startPath depth result batchItems st,
    scan_entries now runId signal hasCb recurse startPath depth [] result batchItems st
    = (result, batchItems, st).
Proof. reflexivity. Qed.

Lemma scan_entries_cons :
  forall now runId signal hasCb recurse startPath depth name child rest
         result batchItems st,
    scan_entries now runId signal hasCb recurse startPath depth
                 ((name, child) :: rest) result batchItems st
    = let (stop, st1) := load_cancelled signal st in
      if stop then (result, batchItems, st1)
      else
        let loop := scan_entries now runId signal hasCb recurse startPath depth in
        let childPath := child_path startPath name in
        let st2 := record (Examine childPath) st1 in
        match child with
        | RegularFile (Some size) (Some lwt) =>
            loop rest (count_file result size lwt)
                 (if MIN_FILE_SIZE_FOR_DB <=? size
                  then batchItems
                       ++ [file_record runId childPath startPath depth size lwt
                                       (now (loads st2))]
                  else batchItems)
                 (report_progress runId hasCb startPath (increment_itemsScanned st2))
        | RegularFile _ _ => loop rest result batchItems st2
        | Directory _ _ | NoListing =>
            let (subResult, st3) := recurse child childPath (wrap32 (depth + 1)) st2 in
            loop rest (fold_subdir result subResult) batchItems
                 (report_progress runId hasCb startPath st3)
        | OtherEntry =>
            loop rest result batchItems (report_progress runId hasCb startPath st2)
        | StatError => loop rest result batchItems st2
        end.
Proof.
  intros now runId signal hasCb recurse startPath depth name child rest
         result batchItems st.
  cbn [scan_entries]. destruct (load_cancelled signal st) as [stop st1].
  destruct stop; [reflexivity|].
  destruct child as [[size|] [lwt|]|entries complete| | |]; try reflexivity.
Qed.

Lemma scanFullAsync_unfold :
  forall now runId signal hasCb start startPath depth st,
    scanFullAsync now runId signal hasCb start startPath depth st
    = let (stop, st1) := load_cancelled signal st in
      if stop then (zero_result, st1)
      else
        let st2 := record (Iterate startPath) st1 in
        match start with
        | Directory entries _ =>
            let '(result, _, st3) :=
              scan_entries now runId signal hasCb
                           (scanFullAsync now runId signal hasCb)
                           startPath depth entries zero_result [] st2 in
            (result, st3)
        | _ => (zero_result, st2)
        end.
Proof.
  intros now runId signal hasCb start startPath depth st.
  destruct start; reflexivity.
Qed.

Lemma wrap_range : forall bits z, 0 < bits ->
  - 2 ^ (bits - 1) <= wrap bits z < 2 ^ (bits - 1).
Proof.
  intros bits z Hb. unfold wrap.
  assert (E : 2 ^ bits = 2 * 2 ^ (bits - 1)).
  { replace bits with (Z.succ (bits - 1)) at 1 by lia.
    rewrite Z.pow_succ_r by lia. reflexivity. }
  assert (0 < 2 ^ (bits - 1)) by (apply Z.pow_pos_nonneg; lia).
  pose proof (Z.mod_pos_bound (z + 2 ^ (bits - 1)) (2 ^ bits)). lia.
Qed.

Lemma wrap64_range : forall z, in_int64 (wrap64 z).
Proof. intro z. apply (wrap_range 64). lia. Qed.

Lemma wrap32_range : forall z, in_int32 (wrap32 z).
Proof. intro z. apply (wrap_range 32). lia. Qed.

Lemma absorbed_nil : forall result, in_range result -> absorbed result [] = result.
Proof.
  intros [s f d l] [Hs [Hf [Hd Hl]]]. unfold absorbed. cbn in *.
  rewrite !Z.add_0_r, wrap64_small, !wrap32_small by assumption.
  f_equal. lia.
Qed.

Lemma absorbed_file :
  forall result name size lwt rest,
    absorbed result ((name, RegularFile (Some size) (Some lwt)) :: rest)
    = absorbed (count_file result size lwt) rest.
Proof.
  intros [s f d l] name size lwt rest. unfold absorbed, count_file.
  rewrite (files_under_cons _ _ _ true true), (folders_under_cons _ _ _ true true).
  cbn [files_under app map fst snd sum greatest fold_right List.length is_directory
       res_sizeBytes res_fileCount res_folderCount res_latestMs].
  fold (sum (map fst (files_under (Directory rest true)))).
  fold (greatest (map snd (files_under (Directory rest true)))).
  rewrite wrap64_add_l, wrap32_add_l. f_equal.
  - f_equal. ring.
  - f_equal. lia.
  - lia.
Qed.

Lemma absorbed_skip :
  forall result name child rest,
    files_under child = [] -> is_directory child = false ->
    absorbed result ((name, child) :: rest) = absorbed result rest.
Proof.
  intros result name child rest Hf Hd. unfold absorbed.
  rewrite (files_under_cons _ _ _ true true), (folders_under_cons _ _ _ true true).
  rewrite Hf, Hd. reflexivity.
Qed.

Lemma absorbed_subdir :
  forall result name child rest,
    is_directory child = true ->
    absorbed result ((name, child) :: rest)
    = absorbed (fold_subdir result (aggregate_of child)) rest.
Proof.
  intros [s f d l] name child rest Hd. unfold absorbed, fold_subdir, aggregate_of.
  rewrite (files_under_cons _ _ _ true true), (folders_under_cons _ _ _ true true).
  rewrite Hd, !map_app, sum_app, greatest_app, length_app.
  cbn [res_sizeBytes res_fileCount res_folderCount res_latestMs].
  rewrite wrap64_add_r, wrap64_add_l, wrap32_add_r, wrap32_add_l.
  rewrite (wrap32_add_l (folders_under child) 1).
  rewrite wrap32_add_r, wrap32_add_l. f_equal.
  - f_equal. ring.
  - f_equal. lia.
  - f_equal. ring.
  - lia.
Qed.

Lemma in_range_count_file :
  forall result size lwt, in_range result -> in_range (count_file result size lwt).
Proof.
  intros result size lwt [_ [_ [Hd Hl]]]. unfold in_range, count_file. cbn.
  repeat split; try apply wrap64_range; try apply wrap32_range; try apply Hd; lia.
Qed.

Lemma in_range_fold_subdir :
  forall result sub, in_range result -> in_range (fold_subdir result sub).
Proof.
  intros result sub [_ [_ [_ Hl]]]. unfold in_range, fold_subdir. cbn.
  repeat split; try apply wrap64_range; try apply wrap32_range; lia.
Qed.

Lemma in_range_zero : in_range zero_result.
Proof. unfold in_range, in_int64, in_int32. cbn. lia. Qed.

(** With the flag never set, the loop of a level folds every entry into the
    running totals. *)
Lemma scan_entries_aggregate :
  forall now runId hasCb startPath depth entries,
    Forall (fun e =>
              is_directory (snd e) = true ->
              forall p d st,
                fst (scanFullAsync now runId None hasCb (snd e) p d st)
                = aggregate_of (snd e)) entries ->
    forall result batchItems st,
      in_range result ->
      fst (fst (scan_entries now runId None hasCb
                             (scanFullAsync now runId None hasCb)
                             startPath depth entries result batchItems st))
      = absorbed result entries.
Proof.
  intros now runId hasCb startPath depth entries Hsub.
  induction Hsub as [|[name child] rest Hchild Hrest IH];
    intros result batchItems st Hr.
  - rewrite scan_entries_nil, absorbed_nil by exact Hr. reflexivity.
  - rewrite scan_entries_cons. cbn [load_cancelled flag_at]. cbv zeta.
    cbn [snd] in Hchild.
    destruct child as [[size|] [lwt|]|sub complete| | |].
    + rewrite IH by (apply in_range_count_file, Hr). symmetry. apply absorbed_file.
    + rewrite IH by exact Hr. symmetry. apply absorbed_skip; reflexivity.
    + rewrite IH by exact Hr. symmetry. apply absorbed_skip; reflexivity.
    + rewrite IH by exact Hr. symmetry. apply absorbed_skip; reflexivity.
    + specialize (Hchild eq_refl).
      match goal with
      | |- context [scanFullAsync ?a ?b ?c ?d ?e ?f ?g ?h] =>
          specialize (Hchild f g h);
          destruct (scanFullAsync a b c d e f g h) as [subResult st3]
      end.
      cbn [fst] in Hchild. subst subResult.
      rewrite IH by (apply in_range_fold_subdir, Hr).
      symmetry. apply absorbed_subdir. reflexivity.
    + specialize (Hchild eq_refl).
      match goal with
      | |- context [scanFullAsync ?a ?b ?c ?d ?e ?f ?g ?h] =>
          specialize (Hchild f g h);
          destruct (scanFullAsync a b c d e f g h) as [subResult st3]
      end.
      cbn [fst] in Hchild. subst subResult.
      rewrite IH by (apply in_range_fold_subdir, Hr).
      symmetry. apply absorbed_subdir. reflexivity.
    + rewrite IH by exact Hr. symmetry. apply absorbed_skip; reflexivity.
    + rewrite IH by exact Hr. symmetry. apply absorbed_skip; reflexivity.
Qed.

Lemma absorbed_zero :
  forall entries complete,
    absorbed zero_result entries = aggregate_of (Directory entries complete).
Proof.
  intros entries complete. unfold absorbed, aggregate_of.
  cbn [zero_result res_sizeBytes res_fileCount res_folderCount res_latestMs].
  f_equal. apply Z.max_r, greatest_nonneg.
Qed.

Lemma scanFullAsync_aggregate :
  forall now runId hasCb start,
    is_directory start = true ->
    forall startPath depth st,
      fst (scanFullAsync now runId None hasCb start startPath depth st)
      = aggregate_of start.
Proof.
  intros now runId hasCb start.
  induction start as [size mtime|entries complete IH| | |] using FsNode_ind;
    intro Hdir; try discriminate; intros startPath depth st.
  - rewrite scanFullAsync_unfold. cbn [load_cancelled flag_at]. cbv zeta.
    pose proof (scan_entries_aggregate now runId hasCb startPath depth entries IH
                  zero_result []
                  (record (Iterate startPath)
                     (mkState (itemsScanned_ st) (lastProgressUpdate_ st)
                              (S (loads st)) (log st ++ [CancelledLoad false])))
                  in_range_zero) as H.
    destruct (scan_entries _ _ _ _ _ _ _ _ _ _ _) as [[result batch] st3].
    cbn [fst] in *. rewrite H. apply absorbed_zero.
  - reflexivity.
Qed.

Lemma readable_regular_files :
  forall n, readable n = true ->
    regular_files n = map (fun f => (Some (fst f), Some (snd f))) (files_under n).
Proof.
  induction n as [size mtime|entries complete IH| | |] using FsNode_ind;
    intro Hread; try reflexivity.
  - destruct size, mtime; try discriminate. reflexivity.
  - cbn [readable] in Hread. apply andb_true_iff in Hread. destruct Hread as [_ Hread].
    cbn [regular_files files_under].
    induction IH as [|e rest He Hrest IHrest]; [reflexivity|].
    cbn [forallb] in Hread. apply andb_true_iff in Hread. destruct Hread as [H1 H2].
    cbn [flat_map]. rewrite map_app, (He H1), (IHrest H2). reflexivity.
Qed.

Lemma greatest_upper : forall l, Forall (fun z => z <= greatest l) l.
Proof.
  induction l as [|x l IH]; [constructor|].
  change (greatest (x :: l)) with (Z.max x (greatest l)).
  constructor; [lia|].
  eapply Forall_impl; [|exact IH]. cbn beta. intros z Hz. lia.
Qed.

Lemma greatest_reached : forall l, greatest l = 0 \/ In (greatest l) l.
Proof.
  induction l as [|x l IH]; [left; reflexivity|].
  change (greatest (x :: l)) with (Z.max x (greatest l)).
  destruct (Z.max_spec x (greatest l)) as [[_ ->]| [_ ->]].
  - destruct IH as [IH|IH]; [left; exact IH | right; right; exact IH].
  - right. left. reflexivity.
Qed.

Lemma greatest_observed :
  forall l, (exists z, In z l /\ 0 <= z) -> In (greatest l) l.
Proof.
  intros l [z [Hin Hz]].
  destruct (greatest_reached l) as [E|H]; [|exact H].
  pose proof (greatest_upper l) as Hu. rewrite Forall_forall in Hu.
  specialize (Hu z Hin). replace z with (greatest l) in Hin by lia. exact Hin.
Qed.

(** C5, as the code has it.  Over a subtree in which everything can be
    read, the aggregate a deep scan returns, when it is not cancelled, has
    for [sizeBytes] the sum of the sizes of all regular files that the
    walk meets in the subtree, whatever their size, for [fileCount] their
    number, for [folderCount] the number of directories below the start
    (each subdirectory adds the count it returned plus one for itself), and
    for [latestMs] the greatest of 0 and their modification times: no file
    is later, and it is the time of a file as soon as one file is not
    dated before 1970, and 0 otherwise.  Sums are taken in the width of
    the fields. *)
Theorem deep_scan_aggregate :
  forall now runId hasCb entries complete startPath depth st,
    readable (Directory entries complete) = true ->
    let result :=
      fst (scanFullAsync now runId None hasCb (Directory entries complete)
                         startPath depth st) in
    let files := files_under (Directory entries complete) in
    regular_files (Directory entries complete)
    = map (fun f => (Some (fst f), Some (snd f))) files
    /\ res_sizeBytes result = wrap64 (sum (map fst files))
    /\ res_fileCount result = wrap32 (Z.of_nat (List.length files))
    /\ res_folderCount result
       = wrap32 (sum (map (fun e => if is_directory (snd e)
                                    then 1 + folders_under (snd e) else 0) entries))
    /\ res_latestMs result = greatest (map snd files)
    /\ 0 <= res_latestMs result
    /\ Forall (fun f => snd f <= res_latestMs result) files
    /\ ((exists f, In f files /\ 0 <= snd f) ->
        In (res_latestMs result) (map snd files))
    /\ ((forall f, In f files -> snd f < 0) -> res_latestMs result = 0)
    /\ (forall name sub, In (name, sub) entries -> is_directory sub = true ->
        forall p d st',
          res_folderCount (fst (scanFullAsync now runId None hasCb sub p d st'))
          = wrap32 (folders_under sub)).
Proof.
  intros now runId hasCb entries complete startPath depth st Hread result files.
  unfold result.
  rewrite (scanFullAsync_aggregate now runId hasCb (Directory entries complete) eq_refl).
  split; [apply readable_regular_files, Hread|].
  cbn [aggregate_of res_sizeBytes res_fileCount res_folderCount res_latestMs].
  fold files.
  do 4 (split; [reflexivity|]).
  split; [apply greatest_nonneg|].
  split.
  { pose proof (greatest_upper (map snd files)) as H.
    rewrite Forall_map in H. exact H. }
  split.
  { intros [f [Hin Hf]]. apply greatest_observed.
    exists (snd f). split; [apply in_map, Hin | exact Hf]. }
  split.
  { intros Hold. destruct (greatest_reached (map snd files)) as [E|H]; [exact E|].
    apply in_map_iff in H. destruct H as [f [Ef Hin]].
    pose proof (Hold f Hin). pose proof (greatest_nonneg (map snd files)). lia. }
  intros name sub Hin Hdir p d st'.
  rewrite (scanFullAsync_aggregate now runId hasCb sub Hdir). reflexivity.
Qed.

Lemma deep_scan_aggregate_witness :
  let result :=
    fst (scanFullAsync (fun _ => 1704070000000) "run-1" None true sample_tree "/data" 0
                       new_scanner) in
  res_sizeBytes result = 204805
  /\ res_fileCount result = 3
  /\ res_folderCount result = 2
  /\ res_latestMs result = 1704067300000.
Proof.
  intro result. unfold result, sample_tree.
  destruct (deep_scan_aggregate (fun _ => 1704070000000) "run-1" true
              [ ("small.bin", RegularFile (Some 51200) (Some 1704067200000));
                ("big.bin", RegularFile (Some 153600) (Some 1704067300000));
                ("sub", Directory [ ("x", RegularFile (Some 5) (Some 7));
                                    ("empty", Directory [] true) ] true);
                ("sock", OtherEntry) ] true "/data" 0 new_scanner eq_refl)
    as [_ [Hsize [Hfiles [Hfolders [Hlatest _]]]]].
  rewrite Hsize, Hfiles, Hfolders, Hlatest. repeat split.
Defined.

(** C5 as stated does not hold.  The two files of [old_files] were last
    written a day and a second before 1970: the scan returns 0 for
    [latestMs], which is the time of neither, the greatest time observed
    being that of the second.  And a file is counted as often as the walk
    meets it: the one file of [linked], met below its directory and below
    the link to it, makes two files and 20 bytes. *)
Lemma deep_scan_latest_not_observed :
  let result :=
    fst (scanFullAsync (fun _ => 1704070000000) "run-1" None true old_files "/old" 0
                       new_scanner) in
  let met :=
    fst (scanFullAsync (fun _ => 1704070000000) "run-1" None true linked "/l" 0
                       new_scanner) in
  readable old_files = true
  /\ map snd (files_under old_files) = [-86400000; -1000]
  /\ res_latestMs result = 0
  /\ ~ In (res_latestMs result) (map snd (files_under old_files))
  /\ readable linked = true
  /\ res_fileCount met = 2
  /\ res_sizeBytes met = 20.
Proof.
  cbv zeta. repeat split.
  intros [H|[H|[]]]; discriminate H.
Qed.

(** ** Deep scan: cancellation *)

Lemma quiet_once_set_app :
  forall a b,
    quiet_once_set (a ++ b)
    = if existsb set_load a then quiet_once_set a && forallb no_access b
      else quiet_once_set b.
Proof.
  induction a as [|e a IH]; intro b; [reflexivity|].
  cbn [app quiet_once_set existsb]. destruct (set_load e); cbn [orb].
  - apply forallb_app.
  - apply IH.
Qed.

Lemma guarded_from_start :
  forall events b,
    starts_without_access events = true ->
    guarded_from b events = guarded_from false events.
Proof.
  intros [|e rest] b H; [reflexivity|]. cbn in *.
  unfold no_access in H. apply negb_true_iff in H. rewrite H. reflexivity.
Qed.

Lemma guarded_from_app :
  forall a b c,
    starts_without_access b = true ->
    guarded_from c (a ++ b) = guarded_from c a && guarded_from false b.
Proof.
  induction a as [|e a IH]; intros b c Hb.
  - cbn. apply guarded_from_start, Hb.
  - cbn [app guarded_from]. rewrite (IH b _ Hb). apply andb_assoc.
Qed.

Lemma starts_without_access_app :
  forall a b,
    starts_without_access a = true -> starts_without_access b = true ->
    starts_without_access (a ++ b) = true.
Proof. intros [|e a] b Ha Hb; [exact Hb | exact Ha]. Qed.

Lemma signaled_mono :
  forall signal st st',
    signaled signal st = true -> (loads st <= loads st')%nat ->
    signaled signal st' = true.
Proof.
  intros [k|] st st' H Hle; [|discriminate].
  unfold signaled, flag_at in *. apply Nat.leb_le in H. apply Nat.leb_le. lia.
Qed.

Ltac run_ok_side :=
  cbn [log loads record]; repeat split;
  try first [reflexivity | lia | discriminate | (intros _; reflexivity)].

Lemma run_ok_refl : forall signal st, run_ok signal st st.
Proof.
  intros signal st. exists []. rewrite app_nil_r.
  repeat split; try reflexivity; try lia. discriminate.
Qed.

Lemma run_ok_trans :
  forall signal st1 st2 st3,
    run_ok signal st1 st2 -> run_ok signal st2 st3 -> run_ok signal st1 st3.
Proof.
  intros signal st1 st2 st3
         [a [La [Na [Qa [Ga [Sa [Ca Fa]]]]]]] [b [Lb [Nb [Qb [Gb [Sb [Cb Fb]]]]]]].
  exists (a ++ b). repeat split.
  - rewrite Lb, La, app_assoc. reflexivity.
  - lia.
  - rewrite quiet_once_set_app. destruct (existsb set_load a) eqn:E; [|exact Qb].
    rewrite Qa. apply Fb, Ca. reflexivity.
  - rewrite guarded_from_app by exact Sb. rewrite Ga, Gb. reflexivity.
  - apply starts_without_access_app; assumption.
  - rewrite existsb_app. intro H. apply orb_true_iff in H. destruct H as [H|H].
    + apply (signaled_mono signal st2); [apply Ca, H | exact Nb].
    + apply Cb, H.
  - intro H. rewrite forallb_app, (Fa H). apply Fb.
    apply (signaled_mono signal st1); assumption.
Qed.

Lemma run_ok_report_progress :
  forall signal runId hasCb startPath st,
    run_ok signal st (report_progress runId hasCb startPath st).
Proof.
  intros signal runId hasCb startPath st. unfold report_progress.
  destruct (PROGRESS_INTERVAL <=? _); [|apply run_ok_refl].
  destruct hasCb.
  - eexists [_]. run_ok_side.
  - exists []. cbn [log]. rewrite app_nil_r. run_ok_side.
Qed.

Lemma run_ok_increment :
  forall signal st st',
    run_ok signal (increment_itemsScanned st) st' -> run_ok signal st st'.
Proof. intros signal st st' H. exact H. Qed.

(** A read that finds the flag set. *)
Lemma load_when_signaled :
  forall signal st,
    signaled signal st = true ->
    load_cancelled signal st
    = (true, mkState (itemsScanned_ st) (lastProgressUpdate_ st) (S (loads st))
                     (log st ++ [CancelledLoad true])).
Proof.
  intros signal st H. unfold load_cancelled. unfold signaled in H. rewrite H.
  reflexivity.
Qed.

Lemma run_ok_load_set :
  forall signal st,
    signaled signal st = true ->
    run_ok signal st
           (mkState (itemsScanned_ st) (lastProgressUpdate_ st) (S (loads st))
                    (log st ++ [CancelledLoad true])).
Proof.
  intros signal st H. exists [CancelledLoad true]. cbn [log loads].
  repeat split; try reflexivity; try lia.
  intros _. apply (signaled_mono signal st); [exact H | cbn; lia].
Qed.

(** A read that finds the flag clear, the access it allows, and what
    follows. *)
Lemma run_ok_after_clear :
  forall signal st access st',
    signaled signal st = false ->
    fs_access access = true ->
    run_ok signal
           (record access
                   (mkState (itemsScanned_ st) (lastProgressUpdate_ st) (S (loads st))
                            (log st ++ [CancelledLoad false]))) st' ->
    run_ok signal st st'.
Proof.
  intros signal st access st' Hclear Hacc [b [Lb [Nb [Qb [Gb [Sb [Cb Fb]]]]]]].
  cbn [record log loads] in *.
  exists (CancelledLoad false :: access :: b).
  destruct access as [answer|dir|entry|p]; try discriminate.
  - repeat split.
    + rewrite Lb, <- !app_assoc. reflexivity.
    + lia.
    + exact Qb.
    + cbn [guarded_from fs_access clear_load andb]. exact Gb.
    + exact Cb.
    + congruence.
  - repeat split.
    + rewrite Lb, <- !app_assoc. reflexivity.
    + lia.
    + exact Qb.
    + cbn [guarded_from fs_access clear_load andb]. exact Gb.
    + exact Cb.
    + congruence.
Qed.

Lemma load_when_clear :
  forall signal st,
    signaled signal st = false ->
    load_cancelled signal st
    = (false, mkState (itemsScanned_ st) (lastProgressUpdate_ st) (S (loads st))
                      (log st ++ [CancelledLoad false])).
Proof.
  intros signal st H. unfold load_cancelled. unfold signaled in H. rewrite H.
  reflexivity.
Qed.

Lemma scan_entries_run_ok :
  forall now runId signal hasCb startPath depth entries,
    Forall (fun e =>
              forall p d st,
                run_ok signal st
                       (snd (scanFullAsync now runId signal hasCb (snd e) p d st)))
           entries ->
    forall result batchItems st,
      run_ok signal st
             (snd (scan_entries now runId signal hasCb
                                (scanFullAsync now runId signal hasCb)
                                startPath depth entries result batchItems st)).
Proof.
  intros now runId signal hasCb startPath depth entries Hsub.
  induction Hsub as [|[name child] rest Hchild Hrest IH];
    intros result batchItems st.
  - rewrite scan_entries_nil. apply run_ok_refl.
  - rewrite scan_entries_cons.
    destruct (signaled signal st) eqn:Hsig.
    + rewrite (load_when_signaled _ _ Hsig). cbn [snd].
      apply run_ok_load_set, Hsig.
    + rewrite (load_when_clear _ _ Hsig). cbv zeta.
      apply (run_ok_after_clear signal st (Examine (child_path startPath name)) _ Hsig eq_refl).
      cbn [snd] in Hchild.
      destruct child as [[size|] [lwt|]|sub complete| | |]; try apply IH.
      * eapply run_ok_trans; [|apply IH].
        apply run_ok_increment, run_ok_report_progress.
      * match goal with
        | |- context [scanFullAsync ?a ?b ?c ?d ?e ?f ?g ?h] =>
            specialize (Hchild f g h);
            destruct (scanFullAsync a b c d e f g h) as [subResult st3]
        end.
        cbn [snd] in Hchild.
        eapply run_ok_trans; [exact Hchild|].
        eapply run_ok_trans; [apply run_ok_report_progress | apply IH].
      * match goal with
        | |- context [scanFullAsync ?a ?b ?c ?d ?e ?f ?g ?h] =>
            specialize (Hchild f g h);
            destruct (scanFullAsync a b c d e f g h) as [subResult st3]
        end.
        cbn [snd] in Hchild.
        eapply run_ok_trans; [exact Hchild|].
        eapply run_ok_trans; [apply run_ok_report_progress | apply IH].
      * eapply run_ok_trans; [apply run_ok_report_progress | apply IH].
Qed.

Lemma scanFullAsync_run_ok :
  forall now runId signal hasCb start startPath depth st,
    run_ok signal st (snd (scanFullAsync now runId signal hasCb start startPath depth st)).
Proof.
  intros now runId signal hasCb start.
  induction start as [size mtime|entries complete IH| | |] using FsNode_ind;
    intros startPath depth st; rewrite scanFullAsync_unfold;
    (destruct (signaled signal st) eqn:Hsig;
     [ rewrite (load_when_signaled _ _ Hsig); cbn [snd]; apply run_ok_load_set, Hsig
     | rewrite (load_when_clear _ _ Hsig); cbv zeta;
       apply (run_ok_after_clear signal st (Iterate startPath) _ Hsig eq_refl) ]);
    try apply run_ok_refl.
  pose proof (scan_entries_run_ok now runId signal hasCb startPath depth entries IH
                zero_result []
                (record (Iterate startPath)
                   (mkState (itemsScanned_ st) (lastProgressUpdate_ st)
                            (S (loads st)) (log st ++ [CancelledLoad false])))) as H.
  destruct (scan_entries _ _ _ _ _ _ _ _ _ _ _) as [[result batch] st3].
  exact H.
Qed.

Lemma quiet_once_set_stops :
  forall events, quiet_once_set events = true -> stops_on_cancel events.
Proof.
  intros events H pre. revert events H.
  induction pre as [|x pre IH]; intros events H post E; subst events.
  - cbn in H. apply Forall_forall. intros e He.
    rewrite forallb_forall in H. specialize (H e He).
    unfold no_access in H. apply negb_true_iff in H. exact H.
  - cbn [app quiet_once_set] in H. destruct (set_load x).
    + rewrite forallb_app in H. apply andb_true_iff in H. destruct H as [_ H].
      cbn [forallb] in H. apply andb_true_iff in H. destruct H as [_ H].
      apply Forall_forall. intros e He.
      rewrite forallb_forall in H. specialize (H e He).
      unfold no_access in H. apply negb_true_iff in H. exact H.
    + apply (IH _ H post eq_refl).
Qed.

Lemma guarded_from_checked :
  forall events c,
    guarded_from c events = true ->
    forall pre e post,
      events = pre ++ e :: post -> fs_access e = true ->
      (pre = [] /\ c = true) \/ exists pre', pre = pre' ++ [CancelledLoad false].
Proof.
  induction events as [|x rest IH]; intros c H pre e post E Hacc.
  - destruct pre; discriminate.
  - cbn [guarded_from] in H. apply andb_true_iff in H. destruct H as [Hx Hrest].
    destruct pre as [|y pre].
    + cbn in E. injection E as -> ->. rewrite Hacc in Hx. left. auto.
    + cbn in E. injection E as -> ->. right.
      destruct (IH _ Hrest pre e post eq_refl Hacc) as [[-> Hc]|[pre' ->]].
      * destruct y as [[|]| | |]; try discriminate. exists []. reflexivity.
      * exists (y :: pre'). reflexivity.
Qed.

(** *** What is handled before the flag is seen set *)

Lemma loads_report_progress :
  forall runId hasCb p st, loads (report_progress runId hasCb p st) = loads st.
Proof.
  intros runId hasCb p st. unfold report_progress.
  destruct (_ <=? _); reflexivity.
Qed.

Lemma handled_level_cons :
  forall recurse signal name child rest reads,
    handled_level recurse signal ((name, child) :: rest) reads
    = if flag_at signal reads then ([], S reads)
      else
        let (child', reads1) :=
          if is_directory child then recurse child (S reads) else (child, S reads) in
        let (rest', reads2) := handled_level recurse signal rest reads1 in
        ((name, child') :: rest', reads2).
Proof. reflexivity. Qed.

Lemma handled_unfold :
  forall signal n reads,
    handled signal n reads
    = if flag_at signal reads then (Directory [] true, S reads)
      else
        match n with
        | Directory entries complete =>
            let (kept, reads') :=
              handled_level (handled signal) signal entries (S reads) in
            (Directory kept complete, reads')
        | _ => (n, S reads)
        end.
Proof. intros signal n reads. destruct n; reflexivity. Qed.

Lemma handled_is_directory :
  forall signal n reads,
    is_directory n = true -> is_directory (fst (handled signal n reads)) = true.
Proof.
  intros signal n reads H. rewrite handled_unfold.
  destruct (flag_at signal reads); [reflexivity|].
  destruct n; try discriminate H; [|reflexivity].
  destruct (handled_level _ _ _ _). reflexivity.
Qed.

(** The loop of a level folds into the running totals the entries it
    handles before it sees the flag set. *)
Lemma scan_entries_handled :
  forall now runId signal hasCb startPath depth entries,
    Forall (fun e =>
              is_directory (snd e) = true ->
              forall p d st,
                fst (scanFullAsync now runId signal hasCb (snd e) p d st)
                = aggregate_of (fst (handled signal (snd e) (loads st)))
                /\ loads (snd (scanFullAsync now runId signal hasCb (snd e) p d st))
                   = snd (handled signal (snd e) (loads st))) entries ->
    forall result batchItems st,
      in_range result ->
      fst (fst (scan_entries now runId signal hasCb
                             (scanFullAsync now runId signal hasCb)
                             startPath depth entries result batchItems st))
      = absorbed result
          (fst (handled_level (handled signal) signal entries (loads st)))
      /\ loads (snd (scan_entries now runId signal hasCb
                                  (scanFullAsync now runId signal hasCb)
                                  startPath depth entries result batchItems st))
         = snd (handled_level (handled signal) signal entries (loads st)).
Proof.
  intros now runId signal hasCb startPath depth entries Hsub.
  induction Hsub as [|[name child] rest Hchild Hrest IH];
    intros result batchItems st Hr.
  - rewrite scan_entries_nil. cbn [handled_level fst snd].
    rewrite absorbed_nil by exact Hr. split; reflexivity.
  - rewrite scan_entries_cons, handled_level_cons. unfold load_cancelled.
    destruct (flag_at signal (loads st)) eqn:F.
    + cbn [fst snd loads]. rewrite absorbed_nil by exact Hr. split; reflexivity.
    + cbv zeta. cbn [snd] in Hchild.
      destruct child as [[size|] [lwt|]|sub complete| | |]; cbn [is_directory].
      * match goal with
        | |- context [scan_entries _ _ _ _ _ _ _ rest ?r ?b ?s] =>
            destruct (IH r b s (in_range_count_file _ _ _ Hr)) as [H1 H2];
            rewrite H1, H2; clear H1 H2
        end.
        rewrite !loads_report_progress. cbn [increment_itemsScanned record loads].
        destruct (handled_level _ _ rest _) as [rest' reads2]. cbn [fst snd].
        split; [symmetry; apply absorbed_file | reflexivity].
      * destruct (IH result batchItems
                    (record (Examine (child_path startPath name))
                       (mkState (itemsScanned_ st) (lastProgressUpdate_ st)
                                (S (loads st)) (log st ++ [CancelledLoad false]))) Hr)
          as [H1 H2].
        rewrite H1, H2. clear H1 H2. cbn [record loads].
        destruct (handled_level _ _ rest _) as [rest' reads2]. cbn [fst snd].
        split; [symmetry; apply absorbed_skip; reflexivity | reflexivity].
      * destruct (IH result batchItems
                    (record (Examine (child_path startPath name))
                       (mkState (itemsScanned_ st) (lastProgressUpdate_ st)
                                (S (loads st)) (log st ++ [CancelledLoad false]))) Hr)
          as [H1 H2].
        rewrite H1, H2. clear H1 H2. cbn [record loads].
        destruct (handled_level _ _ rest _) as [rest' reads2]. cbn [fst snd].
        split; [symmetry; apply absorbed_skip; reflexivity | reflexivity].
      * destruct (IH result batchItems
                    (record (Examine (child_path startPath name))
                       (mkState (itemsScanned_ st) (lastProgressUpdate_ st)
                                (S (loads st)) (log st ++ [CancelledLoad false]))) Hr)
          as [H1 H2].
        rewrite H1, H2. clear H1 H2. cbn [record loads].
        destruct (handled_level _ _ rest _) as [rest' reads2]. cbn [fst snd].
        split; [symmetry; apply absorbed_skip; reflexivity | reflexivity].
      * specialize (Hchild eq_refl).
        pose proof (handled_is_directory signal (Directory sub complete) (S (loads st))
                      eq_refl) as Hdir.
        match goal with
        | |- context [scanFullAsync ?a ?b ?c ?d ?e ?f ?g ?h] =>
            destruct (Hchild f g h) as [Hc1 Hc2];
            destruct (scanFullAsync a b c d e f g h) as [subResult st3]
        end.
        cbn [fst snd record loads] in Hc1, Hc2. subst subResult.
        destruct (handled signal (Directory sub complete) (S (loads st)))
          as [child' reads1].
        cbn [fst snd] in *.
        match goal with
        | |- context [scan_entries _ _ _ _ _ _ _ rest ?r ?b ?s] =>
            destruct (IH r b s (in_range_fold_subdir _ _ Hr)) as [H1 H2];
            rewrite H1, H2; clear H1 H2
        end.
        rewrite loads_report_progress, Hc2.
        destruct (handled_level _ _ rest _) as [rest' reads2]. cbn [fst snd].
        split; [symmetry; apply absorbed_subdir; exact Hdir | reflexivity].
      * specialize (Hchild eq_refl).
        pose proof (handled_is_directory signal NoListing (S (loads st)) eq_refl)
          as Hdir.
        match goal with
        | |- context [scanFullAsync ?a ?b ?c ?d ?e ?f ?g ?h] =>
            destruct (Hchild f g h) as [Hc1 Hc2];
            destruct (scanFullAsync a b c d e f g h) as [subResult st3]
        end.
        cbn [fst snd record loads] in Hc1, Hc2. subst subResult.
        destruct (handled signal NoListing (S (loads st))) as [child' reads1].
        cbn [fst snd] in *.
        match goal with
        | |- context [scan_entries _ _ _ _ _ _ _ rest ?r ?b ?s] =>
            destruct (IH r b s (in_range_fold_subdir _ _ Hr)) as [H1 H2];
            rewrite H1, H2; clear H1 H2
        end.
        rewrite loads_report_progress, Hc2.
        destruct (handled_level _ _ rest _) as [rest' reads2]. cbn [fst snd].
        split; [symmetry; apply absorbed_subdir; exact Hdir | reflexivity].
      * match goal with
        | |- context [scan_entries _ _ _ _ _ _ _ rest ?r ?b ?s] =>
            destruct (IH r b s Hr) as [H1 H2]; rewrite H1, H2; clear H1 H2
        end.
        rewrite loads_report_progress. cbn [record loads].
        destruct (handled_level _ _ rest _) as [rest' reads2]. cbn [fst snd].
        split; [symmetry; apply absorbed_skip; reflexivity | reflexivity].
      * destruct (IH result batchItems
                    (record (Examine (child_path startPath name))
                       (mkState (itemsScanned_ st) (lastProgressUpdate_ st)
                                (S (loads st)) (log st ++ [CancelledLoad false]))) Hr)
          as [H1 H2].
        rewrite H1, H2. clear H1 H2. cbn [record loads].
        destruct (handled_level _ _ rest _) as [rest' reads2]. cbn [fst snd].
        split; [symmetry; apply absorbed_skip; reflexivity | reflexivity].
Qed.

(** A scan returns the aggregate of what it handles before it sees the
    flag set. *)
Lemma scanFullAsync_handled :
  forall now runId signal hasCb start,
    is_directory start = true ->
    forall startPath depth st,
      fst (scanFullAsync now runId signal hasCb start startPath depth st)
      = aggregate_of (fst (handled signal start (loads st)))
      /\ loads (snd (scanFullAsync now runId signal hasCb start startPath depth st))
         = snd (handled signal start (loads st)).
Proof.
  intros now runId signal hasCb start.
  induction start as [size mtime|entries complete IH| | |] using FsNode_ind;
    intro Hdir; try discriminate; intros startPath depth st;
    rewrite scanFullAsync_unfold, handled_unfold; unfold load_cancelled;
    (destruct (flag_at signal (loads st)) eqn:F; [split; reflexivity|]); cbv zeta.
  - pose proof (scan_entries_handled now runId signal hasCb startPath depth entries IH
                  zero_result []
                  (record (Iterate startPath)
                     (mkState (itemsScanned_ st) (lastProgressUpdate_ st)
                              (S (loads st)) (log st ++ [CancelledLoad false])))
                  in_range_zero) as [H1 H2].
    destruct (scan_entries _ _ _ _ _ _ _ _ _ _ _) as [[result batch] st3].
    cbn [fst snd record loads] in *.
    destruct (handled_level _ _ entries _) as [kept reads']. cbn [fst snd] in *.
    split; [rewrite H1; apply absorbed_zero | exact H2].
  - split; reflexivity.
Qed.

Lemma handled_level_leading :
  forall signal entries,
    Forall (fun e => is_directory (snd e) = true ->
                     forall reads,
                       leading_part (fst (handled signal (snd e) reads)) (snd e))
           entries ->
    forall reads,
      leading_level (fst (handled_level (handled signal) signal entries reads)) entries.
Proof.
  intros signal entries H.
  induction H as [|[name child] entries Hchild _ IH]; intro reads.
  - apply leading_stop.
  - rewrite handled_level_cons. destruct (flag_at signal reads); [apply leading_stop|].
    cbn [snd] in Hchild.
    assert (Hc : leading_part
                   (fst (if is_directory child then handled signal child (S reads)
                         else (child, S reads))) child).
    { destruct (is_directory child); [apply Hchild; reflexivity | apply leading_all]. }
    destruct (if is_directory child then handled signal child (S reads)
              else (child, S reads)) as [child' reads1].
    specialize (IH reads1).
    destruct (handled_level _ _ entries reads1) as [rest' reads2].
    apply leading_next; [exact Hc | exact IH].
Qed.

Lemma handled_leading :
  forall signal n,
    is_directory n = true ->
    forall reads, leading_part (fst (handled signal n reads)) n.
Proof.
  intros signal n.
  induction n as [size mtime|entries complete IH| | |] using FsNode_ind;
    intros Hdir reads; try discriminate; rewrite handled_unfold;
    (destruct (flag_at signal reads); [apply leading_none; reflexivity|]).
  - pose proof (handled_level_leading signal entries IH (S reads)) as HF.
    destruct (handled_level _ _ entries _) as [kept reads']. cbn [fst] in *.
    apply leading_entries, HF.
  - apply leading_all.
Qed.

Lemma flag_reads_directory :
  forall entries complete,
    flag_reads (Directory entries complete) = S (list_sum (map entry_reads entries)).
Proof. reflexivity. Qed.

Lemma list_sum_cons : forall a l, list_sum (a :: l) = (a + list_sum l)%nat.
Proof. reflexivity. Qed.

Lemma handled_level_clear :
  forall signal entries,
    Forall (fun e =>
              is_directory (snd e) = true ->
              forall reads,
                (forall r, (reads <= r < reads + flag_reads (snd e))%nat ->
                           flag_at signal r = false) ->
                handled signal (snd e) reads
                = (snd e, (reads + flag_reads (snd e))%nat)) entries ->
    forall reads,
      (forall r, (reads <= r < reads + list_sum (map entry_reads entries))%nat ->
                 flag_at signal r = false) ->
      handled_level (handled signal) signal entries reads
      = (entries, (reads + list_sum (map entry_reads entries))%nat).
Proof.
  intros signal entries H.
  induction H as [|[name child] entries Hchild _ IH]; intros reads Hclear.
  - cbn. rewrite Nat.add_0_r. reflexivity.
  - rewrite handled_level_cons. cbn [map] in *. rewrite list_sum_cons in *.
    unfold entry_reads at 1 in Hclear. unfold entry_reads at 1. cbn [snd] in *.
    rewrite (Hclear reads) by lia.
    destruct (is_directory child) eqn:Hd; rewrite ?Hd in Hclear.
    + rewrite (Hchild eq_refl (S reads)) by (intros r Hr; apply Hclear; lia).
      rewrite IH by (intros r Hr; apply Hclear; lia).
      f_equal. lia.
    + rewrite IH by (intros r Hr; apply Hclear; lia).
      f_equal. lia.
Qed.

(** Where the flag is not set during the reads of a scan, all is
    handled. *)
Lemma handled_clear :
  forall signal n,
    is_directory n = true ->
    forall reads,
      (forall r, (reads <= r < reads + flag_reads n)%nat -> flag_at signal r = false) ->
      handled signal n reads = (n, (reads + flag_reads n)%nat).
Proof.
  intros signal n.
  induction n as [size mtime|entries complete IH| | |] using FsNode_ind;
    intros Hdir reads Hclear; try discriminate; rewrite handled_unfold;
    rewrite (Hclear reads) by (cbn [flag_reads]; lia).
  - rewrite flag_reads_directory in *.
    rewrite (handled_level_clear signal entries IH (S reads))
      by (intros r Hr; apply Hclear; lia).
    f_equal. lia.
  - f_equal. cbn [flag_reads]. lia.
Qed.

(** The flag set when an entry of the level is about to be taken: the
    entries before it are handled whole, and nothing more. *)
Lemma handled_level_cut :
  forall before e rest reads,
    handled_level (handled (Some (reads + list_sum (map entry_reads before))%nat))
                  (Some (reads + list_sum (map entry_reads before))%nat)
                  (before ++ e :: rest) reads
    = (before, S (reads + list_sum (map entry_reads before))).
Proof.
  induction before as [|[name child] before IH]; intros e rest reads.
  - cbn [map list_sum fold_right app]. rewrite Nat.add_0_r.
    destruct e as [name child]. rewrite handled_level_cons.
    cbn [flag_at]. rewrite Nat.leb_refl. reflexivity.
  - cbn [map app]. rewrite list_sum_cons, handled_level_cons.
    set (k := (reads + (entry_reads (name, child) + list_sum (map entry_reads before)))%nat).
    assert (Hk : k = ((reads + entry_reads (name, child))
                      + list_sum (map entry_reads before))%nat) by (unfold k; lia).
    assert (Hclear : forall r, (r < k)%nat -> flag_at (Some k) r = false).
    { intros r Hr. cbn [flag_at]. apply Nat.leb_gt, Hr. }
    assert (He : (1 <= entry_reads (name, child))%nat) by (unfold entry_reads; lia).
    rewrite (Hclear reads) by (unfold k; lia).
    replace (if is_directory child then handled (Some k) child (S reads)
             else (child, S reads))
      with (child, (reads + entry_reads (name, child))%nat).
    + rewrite Hk, IH. reflexivity.
    + unfold entry_reads. cbn [snd]. destruct (is_directory child) eqn:Hd.
      * rewrite handled_clear; [f_equal; lia | exact Hd |].
        intros r Hr. apply Hclear. unfold k, entry_reads. cbn [snd]. rewrite Hd. lia.
      * f_equal. lia.
Qed.

(** C4.  The flag is read before a directory is opened and before each of
    its entries is handled.  A call that finds the flag set returns the
    zero aggregate; a loop that finds it set returns the totals its level
    has accumulated, as they are.  Once the flag has been read set nothing
    more is read from the filesystem, and the scan returns an aggregate
    all the same: that of the part of the tree handled before the flag was
    seen set, which is of every directory the first entries, and the whole
    tree if the flag is not set while the scan reads it.  In particular,
    when the flag is set as an entry of the start directory is about to be
    taken, the scan returns the aggregate of the entries before it. *)
Theorem cancellation_stops_scan :
  forall now runId signal hasCb start startPath depth st,
    let st1 := mkState (itemsScanned_ st) (lastProgressUpdate_ st) (S (loads st))
                       (log st ++ [CancelledLoad true]) in
    (signaled signal st = true ->
     scanFullAsync now runId signal hasCb start startPath depth st = (zero_result, st1))
    /\ (signaled signal st = true ->
        forall name child rest result batchItems,
          scan_entries now runId signal hasCb (scanFullAsync now runId signal hasCb)
                       startPath depth ((name, child) :: rest) result batchItems st
          = (result, batchItems, st1))
    /\ (exists events,
          log (snd (scanFullAsync now runId signal hasCb start startPath depth st))
          = log st ++ events
          /\ stops_on_cancel events
          /\ checked_before_access events)
    /\ (is_directory start = true ->
        fst (scanFullAsync now runId signal hasCb start startPath depth st)
        = aggregate_of (fst (handled signal start (loads st)))
        /\ leading_part (fst (handled signal start (loads st))) start
        /\ ((forall r, (loads st <= r < loads st + flag_reads start)%nat ->
                       flag_at signal r = false) ->
            fst (handled signal start (loads st)) = start))
    /\ (forall before e rest complete,
          start = Directory (before ++ e :: rest) complete ->
          signal = Some (S (loads st) + list_sum (map entry_reads before))%nat ->
          fst (scanFullAsync now runId signal hasCb start startPath depth st)
          = aggregate_of (Directory before complete)).
Proof.
  intros now runId signal hasCb start startPath depth st st1.
  split; [|split; [|split; [|split]]].
  - intro H. rewrite scanFullAsync_unfold, (load_when_signaled _ _ H). reflexivity.
  - intros H name child rest result batchItems.
    rewrite scan_entries_cons, (load_when_signaled _ _ H). reflexivity.
  - destruct (scanFullAsync_run_ok now runId signal hasCb start startPath depth st)
      as [events [Hlog [_ [Hquiet [Hguard _]]]]].
    exists events. split; [exact Hlog|]. split.
    + apply quiet_once_set_stops, Hquiet.
    + intros pre e post E Hacc.
      destruct (guarded_from_checked _ _ Hguard pre e post E Hacc) as [[_ H]|H];
        [discriminate | exact H].
  - intro Hdir. split; [|split].
    + apply scanFullAsync_handled, Hdir.
    + apply handled_leading, Hdir.
    + intro Hclear. rewrite (handled_clear signal start Hdir _ Hclear). reflexivity.
  - intros before e rest complete -> ->.
    rewrite (proj1 (scanFullAsync_handled now runId _ hasCb
                      (Directory (before ++ e :: rest) complete) eq_refl
                      startPath depth st)).
    rewrite handled_unfold.
    replace (flag_at _ (loads st)) with false
      by (symmetry; cbn [flag_at]; apply Nat.leb_gt; lia).
    rewrite handled_level_cut. reflexivity.
Qed.

Lemma cancellation_stops_scan_witness :
  scanFullAsync (fun _ => 1704070000000) "run-1" (Some 5%nat) true sample_tree "/data" 0
                (mkState 7 0 6 [])
  = (zero_result, mkState 7 0 7 [CancelledLoad true])
  /\ fst (scanFullAsync (fun _ => 1704070000000) "run-1" (Some 5%nat) true sample_tree
                        "/data" 0 new_scanner)
     = mkResult 204800 2 1 1704067300000
  /\ fst (scanFullAsync (fun _ => 1704070000000) "run-1" (Some 3%nat) true sample_tree
                        "/data" 0 new_scanner)
     = mkResult 204800 2 0 1704067300000.
Proof.
  split; [|split].
  - destruct (cancellation_stops_scan (fun _ => 1704070000000) "run-1" (Some 5%nat) true
                sample_tree "/data" 0 (mkState 7 0 6 [])) as [Hcall _].
    apply Hcall. reflexivity.
  - destruct (cancellation_stops_scan (fun _ => 1704070000000) "run-1" (Some 5%nat) true
                sample_tree "/data" 0 new_scanner) as [_ [_ [_ [Hpart _]]]].
    destruct (Hpart eq_refl) as [-> _]. reflexivity.
  - destruct (cancellation_stops_scan (fun _ => 1704070000000) "run-1" (Some 3%nat) true
                sample_tree "/data" 0 new_scanner) as [_ [_ [_ [_ Hcut]]]].
    rewrite (Hcut [ ("small.bin", RegularFile (Some 51200) (Some 1704067200000));
                    ("big.bin", RegularFile (Some 153600) (Some 1704067300000)) ]
                  ("sub", Directory [ ("x", RegularFile (Some 5) (Some 7));
                                      ("empty", Directory [] true) ] true)
                  [ ("sock", OtherEntry) ] true eq_refl eq_refl).
    reflexivity.
Defined.

(** ** Paths *)

Lemma append_assoc :
  forall a b c : string, ((a ++ b) ++ c)%string = (a ++ b ++ c)%string.
Proof.
  induction a as [|x a IH]; intros b c; [reflexivity|].
  cbn [append]. rewrite IH. reflexivity.
Qed.

Lemma length_append :
  forall a b : string,
    String.length (a ++ b) = (String.length a + String.length b)%nat.
Proof.
  induction a as [|x a IH]; intro b; [reflexivity|].
  cbn [append String.length]. rewrite IH. reflexivity.
Qed.

Lemma plain_name_no_sep : forall n, plain_name n = true -> no_sep n = true.
Proof. intros n H. apply andb_true_iff in H. tauto. Qed.

Lemma plain_name_not_empty : forall n, plain_name n = true -> is_empty n = false.
Proof. intros n H. apply andb_true_iff in H. destruct H as [H _].
  apply negb_true_iff in H. exact H. Qed.

Lemma ends_with_sep_app :
  forall a b, is_empty b = false -> ends_with_sep (a ++ b) = ends_with_sep b.
Proof.
  induction a as [|c a IH]; intros b Hb; [reflexivity|].
  cbn [append ends_with_sep]. rewrite (IH b Hb).
  destruct (a ++ b)%string eqn:E; [|reflexivity].
  destruct a; [cbn in E; subst; discriminate | discriminate].
Qed.

Lemma ends_with_sep_plain : forall n, plain_name n = true -> ends_with_sep n = false.
Proof.
  intros n H. apply andb_true_iff in H. destruct H as [_ H].
  induction n as [|c n IH]; [reflexivity|].
  cbn [no_sep] in H. apply andb_true_iff in H. destruct H as [Hc Hn].
  apply negb_true_iff in Hc. cbn [ends_with_sep].
  destruct n; [exact Hc | apply IH, Hn].
Qed.

Lemma ends_with_sep_join :
  forall names, names <> [] -> Forall (fun n => plain_name n = true) names ->
    forall pre, ends_with_sep (pre ++ join_sep names) = false.
Proof.
  induction names as [|n names IH]; intros Hne Hall pre; [congruence|].
  inversion Hall as [|? ? Hn Hrest]; subst.
  destruct names as [|n2 names].
  - cbn [join_sep]. rewrite ends_with_sep_app by (apply plain_name_not_empty, Hn).
    apply ends_with_sep_plain, Hn.
  - change (join_sep (n :: n2 :: names))
      with (n ++ String SEP (join_sep (n2 :: names)))%string.
    replace (pre ++ n ++ String SEP (join_sep (n2 :: names)))%string
      with ((pre ++ n ++ String SEP "") ++ join_sep (n2 :: names))%string.
    + apply IH; [discriminate | exact Hrest].
    + rewrite !append_assoc. reflexivity.
Qed.

Lemma strip_sep_keeps :
  forall s, ends_with_sep s = false -> strip_sep s = s.
Proof.
  induction s as [|c s IH]; intro H; [reflexivity|].
  cbn [strip_sep]. cbv zeta. cbn [ends_with_sep] in H. destruct s as [|d s].
  - cbn [strip_sep is_empty]. rewrite H. reflexivity.
  - rewrite (IH H). cbn [is_empty]. rewrite andb_false_r. reflexivity.
Qed.

Lemma strip_sep_after :
  forall t, strip_sep (t ++ String SEP "") = strip_sep t.
Proof.
  induction t as [|c t IH]; [reflexivity|].
  cbn [append strip_sep]. rewrite IH. reflexivity.
Qed.

Lemma strip_name_plain : forall n, no_sep n = true -> strip_name n = "".
Proof.
  induction n as [|c n IH]; intro H; [reflexivity|].
  cbn [no_sep] in H. apply andb_true_iff in H. destruct H as [Hc Hn].
  cbn [strip_name]. rewrite (IH Hn), Hc. reflexivity.
Qed.

Lemma strip_name_after :
  forall t n, no_sep n = true ->
    strip_name (t ++ String SEP n) = (t ++ String SEP "")%string.
Proof.
  induction t as [|c t IH]; intros n Hn.
  - cbn [append strip_name]. rewrite (strip_name_plain n Hn).
    unfold SEP. reflexivity.
  - cbn [append strip_name]. rewrite (IH n Hn).
    replace (is_empty (t ++ String SEP "")) with false by (destruct t; reflexivity).
    rewrite andb_false_r. reflexivity.
Qed.

Lemma join_sep_last :
  forall names name, names <> [] ->
    join_sep (names ++ [name]) = (join_sep names ++ String SEP name)%string.
Proof.
  induction names as [|n names IH]; intros name Hne; [congruence|].
  destruct names as [|n2 names]; [reflexivity|].
  change (join_sep ((n :: n2 :: names) ++ [name]))
    with (n ++ String SEP (join_sep ((n2 :: names) ++ [name])))%string.
  change (join_sep (n :: n2 :: names))
    with (n ++ String SEP (join_sep (n2 :: names)))%string.
  rewrite IH by discriminate. rewrite append_assoc. reflexivity.
Qed.

Lemma parent_path_of :
  forall names name,
    Forall (fun n => plain_name n = true) (names ++ [name]) ->
    parent_path (path_of (names ++ [name])) = path_of names.
Proof.
  intros names name Hall.
  assert (Hend : ends_with_sep (path_of (names ++ [name])) = false).
  { apply (ends_with_sep_join (names ++ [name])
             ltac:(destruct names; discriminate) Hall (String SEP "")). }
  apply Forall_app in Hall. destruct Hall as [Hnames Hname].
  inversion Hname as [|? ? Hn _]; subst.
  unfold parent_path. rewrite (strip_sep_keeps _ Hend), Hend.
  change (is_empty (path_of (names ++ [name]))) with false. cbv iota.
  destruct names as [|n0 names].
  - pose proof (strip_name_after "" name (plain_name_no_sep _ Hn)) as E.
    cbn [append] in E. cbn [app join_sep]. unfold path_of. cbn [join_sep].
    rewrite E. reflexivity.
  - unfold path_of. rewrite join_sep_last by discriminate.
    change (String SEP (join_sep (n0 :: names) ++ String SEP name))
      with (String SEP (join_sep (n0 :: names)) ++ String SEP name)%string.
    rewrite (strip_name_after _ name (plain_name_no_sep _ Hn)).
    rewrite strip_sep_after.
    rewrite strip_sep_keeps
      by (apply (ends_with_sep_join (n0 :: names) ltac:(discriminate) Hnames
                   (String SEP ""))).
    reflexivity.
Qed.

Lemma length_join_sep_last :
  forall names name,
    (String.length (join_sep names) < String.length (join_sep (names ++ [name])))%nat
    \/ (names = [] /\ join_sep (names ++ [name]) = name).
Proof.
  induction names as [|n names IH]; intro name; [right; auto|].
  left. destruct names as [|n2 names].
  - cbn. rewrite length_append. cbn. lia.
  - change (join_sep ((n :: n2 :: names) ++ [name]))
      with (n ++ String SEP (join_sep ((n2 :: names) ++ [name])))%string.
    change (join_sep (n :: n2 :: names))
      with (n ++ String SEP (join_sep (n2 :: names)))%string.
    rewrite !length_append. cbn [String.length].
    destruct (IH name) as [H|[H _]]; [lia | discriminate].
Qed.

Lemma path_of_last_differs :
  forall names name, plain_name name = true ->
    path_of (names ++ [name]) <> path_of names.
Proof.
  intros names name Hn E. unfold path_of in E. injection E as E.
  destruct (length_join_sep_last names name) as [H|[-> H]].
  - rewrite E in H. lia.
  - cbn in E. subst name. discriminate.
Qed.

(** The parent of an entry of a directory is the directory, and the root
    has none. *)
Lemma getParent_path_of :
  forall names name,
    Forall (fun n => plain_name n = true) (names ++ [name]) ->
    getParent (path_of (names ++ [name])) = path_of names.
Proof.
  intros names name Hall. unfold getParent, has_parent_path.
  rewrite (parent_path_of _ _ Hall).
  change (is_empty (path_of names)) with false. cbn [negb orb].
  assert (Hn : plain_name name = true).
  { rewrite Forall_forall in Hall. apply Hall, in_or_app. right. left. reflexivity. }
  destruct (String.eqb_spec (path_of names) (path_of (names ++ [name]))) as [E|_];
    [|reflexivity].
  exfalso. apply (path_of_last_differs names name Hn). symmetry. exact E.
Qed.

Lemma getParent_root : getParent (path_of []) = "".
Proof. reflexivity. Qed.

(** ** Shallow scan *)

Lemma count_type_app :
  forall ty a b, count_type ty (a ++ b) = count_type ty a + count_type ty b.
Proof.
  intros ty a b. unfold count_type. rewrite filter_app, length_app. lia.
Qed.

Ltac single_count :=
  match goal with
  | |- context [count_type ?ty [?r]] =>
      first [ change (count_type ty [r]) with 1
            | change (count_type ty [r]) with 0 ]
  end.

Ltac ranges Hr :=
  intros [? [? ?]]; apply Hr;
  (split; [|split]); first [apply wrap64_range | apply wrap32_range | assumption].

Lemma shallow_children_fold :
  forall now startPath runId entries acc,
    exists children,
      emitted (fold_left (shallow_entry now startPath runId) entries acc)
      = emitted acc ++ children
      /\ Forall (fun c => depth c = 1 /\ parent c = startPath /\ scannedUtc c = "") children
      /\ wrap64 (totalSize (fold_left (shallow_entry now startPath runId) entries acc))
         = wrap64 (totalSize acc + sum (map sizeBytes children))
      /\ wrap32 (totalFiles (fold_left (shallow_entry now startPath runId) entries acc))
         = wrap32 (totalFiles acc + count_type "File" children)
      /\ wrap32 (totalFolders (fold_left (shallow_entry now startPath runId) entries acc))
         = wrap32 (totalFolders acc + count_type "Folder" children)
      /\ (in_int64 (totalSize acc) /\ in_int32 (totalFiles acc)
          /\ in_int32 (totalFolders acc) ->
          in_int64 (totalSize (fold_left (shallow_entry now startPath runId) entries acc))
          /\ in_int32 (totalFiles (fold_left (shallow_entry now startPath runId) entries acc))
          /\ in_int32 (totalFolders (fold_left (shallow_entry now startPath runId) entries acc))).
Proof.
  intros now startPath runId entries.
  induction entries as [|[name child] rest IH]; intro acc.
  - exists []. cbn [fold_left map sum fold_right count_type filter List.length Z.of_nat].
    rewrite app_nil_r, !Z.add_0_r.
    split; [reflexivity|]. split; [apply Forall_nil|].
    split; [reflexivity|]. split; [reflexivity|]. split; [reflexivity|]. tauto.
  - cbn [fold_left].
    destruct (IH (shallow_entry now startPath runId acc (name, child)))
      as [children [He [Hall [Hs [Hf [Hd Hr]]]]]].
    destruct child as [[size|] [lwt|]|sub complete| | |];
      try (exists children; split; [exact He|]; split; [exact Hall|];
           split; [exact Hs|]; split; [exact Hf|]; split; [exact Hd|]; exact Hr).
    + eexists (_ :: children).
      cbn [shallow_entry fst snd emitted totalSize totalFiles totalFolders] in *.
      rewrite He, <- app_assoc. split; [reflexivity|].
      split; [constructor; [repeat split | exact Hall]|].
      cbn [map sum fold_right sizeBytes]. fold (sum (map sizeBytes children)).
      change (_ :: children) with ([mkItem (child_path startPath name) startPath "File"
                 (wrap64 size) 1 0 (toIsoString lwt) "" 1 runId] ++ children).
      rewrite !count_type_app.
      rewrite Hs, Hf, Hd, wrap64_add_l, wrap32_add_l.
      split; [|split; [|split]].
      * rewrite Z.add_assoc, <- (wrap64_add_l (_ + wrap64 size)), wrap64_add_r,
          wrap64_add_l. reflexivity.
      * single_count. f_equal; lia.
      * single_count. f_equal; lia.
      * ranges Hr.
    + eexists (_ :: children).
      cbn [shallow_entry fst snd emitted totalSize totalFiles totalFolders] in *.
      rewrite He, <- app_assoc. split; [reflexivity|].
      split; [constructor; [repeat split | exact Hall]|].
      cbn [map sum fold_right sizeBytes]. fold (sum (map sizeBytes children)).
      match goal with
      | |- context [count_type _ (?r :: children)] =>
          change (r :: children) with ([r] ++ children)
      end.
      rewrite !count_type_app.
      rewrite Hs, Hf, Hd, wrap64_add_l, wrap32_add_l.
      split; [|split; [|split]].
      * f_equal. ring.
      * single_count. f_equal; lia.
      * single_count. f_equal; lia.
      * ranges Hr.
    + eexists (_ :: children).
      cbn [shallow_entry fst snd emitted totalSize totalFiles totalFolders] in *.
      rewrite He, <- app_assoc. split; [reflexivity|].
      split; [constructor; [repeat split | exact Hall]|].
      cbn [map sum fold_right sizeBytes]. fold (sum (map sizeBytes children)).
      match goal with
      | |- context [count_type _ (?r :: children)] =>
          change (r :: children) with ([r] ++ children)
      end.
      rewrite !count_type_app.
      rewrite Hs, Hf, Hd, wrap64_add_l, wrap32_add_l.
      split; [|split; [|split]].
      * f_equal. ring.
      * single_count. f_equal; lia.
      * single_count. f_equal; lia.
      * ranges Hr.
Qed.

(** C6, as the code has it.  When the listing of [startPath] can be read to
    its end, a shallow scan emits its children at depth 1 and then exactly
    one record for [startPath], at depth 0.  The parent of that record is
    the parent path of [startPath], absent for the root.  Its [sizeBytes]
    is the sum of the [sizeBytes] of the children emitted, its [fileCount]
    the number of files among them and its [folderCount] the number of
    folders among them.  When the listing fails, no record for [startPath]
    is emitted. *)
Theorem shallow_scan_root_record :
  forall now startPath runId rootLwt entries,
    (exists children root,
        scanShallow now startPath runId rootLwt (Directory entries true)
        = children ++ [root]
        /\ Forall (fun c => depth c = 1 /\ parent c = startPath /\ scannedUtc c = "")
                  children
        /\ path root = startPath
        /\ depth root = 0
        /\ type root = "Folder"
        /\ scannedUtc root = ""
        /\ parent root = getParent startPath
        /\ (forall names name,
               Forall (fun n => plain_name n = true) (names ++ [name]) ->
               startPath = path_of (names ++ [name]) ->
               parent root = path_of names)
        /\ (startPath = path_of [] -> parent root = "")
        /\ sizeBytes root = wrap64 (sum (map sizeBytes children))
        /\ fileCount root = wrap32 (count_type "File" children)
        /\ folderCount root = wrap32 (count_type "Folder" children))
    /\ (forall start,
           (forall entries', start <> Directory entries' true) ->
           Forall (fun c => depth c = 1)
                  (scanShallow now startPath runId rootLwt start)).
Proof.
  intros now startPath runId rootLwt entries. split.
  - destruct (shallow_children_fold now startPath runId entries (mkAcc 0 0 0 0 []))
      as [children [He [Hall [Hs [Hf [Hd Hr]]]]]].
    cbn [emitted totalSize totalFiles totalFolders app] in *.
    assert (R0 : in_int64 0 /\ in_int32 0 /\ in_int32 0)
      by (unfold in_int64, in_int32; lia).
    destruct (Hr R0) as [Rs [Rf Rd]].
    exists children,
      (rootRec now startPath runId rootLwt (shallow_children now startPath runId entries)).
    cbn [scanShallow]. unfold shallow_children at 1. rewrite He.
    split; [reflexivity|]. split; [exact Hall|].
    cbn [rootRec path depth type scannedUtc parent sizeBytes fileCount folderCount].
    repeat split.
    + intros names name Hplain ->. apply getParent_path_of, Hplain.
    + intros ->. reflexivity.
    + unfold shallow_children. rewrite <- (wrap64_small _ Rs). exact Hs.
    + unfold shallow_children. rewrite <- (wrap32_small _ Rf). exact Hf.
    + unfold shallow_children. rewrite <- (wrap32_small _ Rd). exact Hd.
  - intros start Hstart.
    destruct start as [size mtime|entries' [|]| | |]; try constructor.
    + exfalso. apply (Hstart entries'). reflexivity.
    + cbn [scanShallow].
      destruct (shallow_children_fold now startPath runId entries' (mkAcc 0 0 0 0 []))
        as [children [He [Hall _]]].
      unfold shallow_children. rewrite He. cbn [emitted app].
      eapply Forall_impl; [|exact Hall]. intros c [Hc _]. exact Hc.
Qed.

Lemma shallow_scan_root_record_witness :
  (exists children root,
      scanShallow (fun _ => 1704070000000) "/data" "run-1" (Some 1704067400000) sample_tree
      = children ++ [root]
      /\ parent root = path_of []
      /\ sizeBytes root = wrap64 (sum (map sizeBytes children))
      /\ fileCount root = wrap32 (count_type "File" children)
      /\ folderCount root = wrap32 (count_type "Folder" children))
  /\ Forall (fun c => depth c = 1)
            (scanShallow (fun _ => 1704070000000) "/data" "run-1" (Some 1704067400000) NoListing).
Proof.
  destruct (shallow_scan_root_record (fun _ => 1704070000000) "/data" "run-1" (Some 1704067400000)
              [ ("small.bin", RegularFile (Some 51200) (Some 1704067200000));
                ("big.bin", RegularFile (Some 153600) (Some 1704067300000));
                ("sub", Directory [ ("x", RegularFile (Some 5) (Some 7));
                                    ("empty", Directory [] true) ] true);
                ("sock", OtherEntry) ])
    as [[children [root [Hout [_ [_ [_ [_ [_ [_ [Hparent [_ [Hs [Hf Hd]]]]]]]]]]]]] Hfail].
  split.
  - exists children, root. split; [exact Hout|]. split.
    + apply (Hparent [] "data"); [|reflexivity].
      constructor; [reflexivity | constructor].
    + auto.
  - apply Hfail. intros entries' H. discriminate H.
Defined.

(** C6 as stated does not hold.  A start path that cannot be listed yields
    no record at all, and the counts of the record of [startPath] are those
    of its own children, not the sums of their counts: with one
    subdirectory holding one file, [fileCount] is 0 where the child has 1,
    and [folderCount] is 1 where the child has 0. *)
Lemma shallow_scan_not_sums :
  scanShallow (fun _ => 1704070000000) "/gone" "run-1" None NoListing = []
  /\ exists child root,
       scanShallow (fun _ => 1704070000000) "/data" "run-1" (Some 1704067400000)
                   (Directory [("sub", Directory [("x", RegularFile (Some 5) (Some 7))] true)]
                              true)
       = [child; root]
       /\ depth child = 1 /\ depth root = 0
       /\ sizeBytes child = 5 /\ sizeBytes root = 5
       /\ fileCount child = 1 /\ fileCount root = 0
       /\ folderCount child = 0 /\ folderCount root = 1.
Proof.
  split; [reflexivity|].
  eexists. eexists. split; [reflexivity|]. repeat split.
Qed.

(** ** Deep scan: the file records *)

Lemma scanFullAsync_reads :
  forall now runId hasCb start,
    is_directory start = true ->
    forall startPath depth st,
      loads (snd (scanFullAsync now runId None hasCb start startPath depth st))
      = (loads st + flag_reads start)%nat.
Proof.
  intros now runId hasCb start Hdir startPath depth st.
  rewrite (proj2 (scanFullAsync_handled now runId None hasCb start Hdir
                    startPath depth st)).
  rewrite (handled_clear None start Hdir); reflexivity.
Qed.

Lemma scan_entries_batch :
  forall now runId hasCb startPath depth entries result batchItems st,
    snd (fst (scan_entries now runId None hasCb (scanFullAsync now runId None hasCb)
                           startPath depth entries result batchItems st))
    = batchItems ++ large_file_records now runId startPath depth (loads st) entries.
Proof.
  intros now runId hasCb startPath depth entries.
  induction entries as [|[name child] rest IH]; intros result batchItems st.
  - rewrite scan_entries_nil. cbn. rewrite app_nil_r. reflexivity.
  - rewrite scan_entries_cons. cbn [load_cancelled flag_at]. cbv zeta.
    cbn [large_file_records fst snd]. unfold entry_reads. cbn [snd].
    destruct child as [[size|] [lwt|]|sub complete| | |]; cbn [is_directory];
      try (rewrite IH; rewrite ?loads_report_progress; cbn [record loads];
           rewrite Nat.add_1_r; reflexivity).
    + rewrite IH. rewrite loads_report_progress.
      cbn [increment_itemsScanned record loads]. rewrite Nat.add_1_r.
      destruct (MIN_FILE_SIZE_FOR_DB <=? size).
      * rewrite <- app_assoc. reflexivity.
      * reflexivity.
    + match goal with
      | |- context [scanFullAsync ?a ?b ?c ?d ?e ?f ?g ?h] =>
          pose proof (scanFullAsync_reads a b d e eq_refl f g h) as Hreads;
          destruct (scanFullAsync a b c d e f g h) as [subResult st3]
      end.
      cbn [snd record loads] in Hreads.
      rewrite IH, loads_report_progress, Hreads. cbn [app].
      replace (S (loads st) + flag_reads (Directory sub complete))%nat
        with (loads st + S (flag_reads (Directory sub complete)))%nat by lia.
      reflexivity.
    + match goal with
      | |- context [scanFullAsync ?a ?b ?c ?d ?e ?f ?g ?h] =>
          pose proof (scanFullAsync_reads a b d e eq_refl f g h) as Hreads;
          destruct (scanFullAsync a b c d e f g h) as [subResult st3]
      end.
      cbn [snd record loads] in Hreads.
      rewrite IH, loads_report_progress, Hreads. cbn [app].
      replace (S (loads st) + flag_reads NoListing)%nat
        with (loads st + S (flag_reads NoListing))%nat by lia.
      reflexivity.
Qed.

(** The batch of a level holds a record for each of its files of at least
    100 KiB, and for no other entry. *)
Lemma batch_holds_large_files :
  forall now runId hasCb entries complete startPath depth st,
    batch_at_return now runId None hasCb (Directory entries complete) startPath depth st
    = large_file_records now runId startPath depth (S (loads st)) entries.
Proof.
  intros now runId hasCb entries complete startPath depth st.
  unfold batch_at_return. cbn [load_cancelled flag_at].
  pose proof (scan_entries_batch now runId hasCb
                startPath depth entries zero_result []
                (record (Iterate startPath)
                   (mkState (itemsScanned_ st) (lastProgressUpdate_ st)
                            (S (loads st)) (log st ++ [CancelledLoad false])))) as H.
  destruct (scan_entries _ _ _ _ _ _ _ _ _ _ _) as [[result batch] st3].
  exact H.
Qed.

(** C1, where the code departs from it.  Both files of [two_files] are
    counted in the aggregate and the batch of the call holds a record for
    the file of 150 KiB alone; but the call returns its aggregate and
    nothing else, so that no row comes of the record.  The shallow scan of
    the binding, by contrast, stores what it finds. *)
Theorem deep_scan_drops_its_batch :
  scanFullAsync (fun _ => 1704070000000) "run-1" None true two_files "/data" 0 new_scanner
  = (mkResult (200 * 1024) 2 0 1704067300000,
     mkState 2 0 3
             [ CancelledLoad false; Iterate "/data";
               CancelledLoad false; Examine "/data/small.bin";
               CancelledLoad false; Examine "/data/big.bin" ])
  /\ batch_at_return (fun _ => 1704070000000) "run-1" None true two_files "/data" 0 new_scanner
     = [ mkItem "/data/big.bin" "/data" "File" (150 * 1024) 1 0
                "2024-01-01T00:01:40.000Z" "2024-01-01T00:46:40.000Z" 1 "run-1" ]
  /\ GetItemByPath "/data/big.bin"
       (snd (ScanShallow (fun _ => 1704070000000) "run-2" "/data" None two_files
                         (Some (mkDb true []))))
     = Returned (Some (mkItem "/data/big.bin" "/data" "File" (150 * 1024) 1 0
                              "2024-01-01T00:01:40.000Z" "" 1 "run-2")).
Proof. repeat split. Qed.

(** ** Deep scan: progress in one thread *)

Lemma thresholds_app :
  forall n m from,
    thresholds from (n + m)
    = thresholds from n ++ thresholds (from + PROGRESS_INTERVAL * Z.of_nat n) m.
Proof.
  induction n as [|n IH]; intros m from.
  - cbn [Nat.add thresholds app]. f_equal. change (Z.of_nat 0) with 0. lia.
  - cbn [Nat.add thresholds app]. rewrite IH. do 3 f_equal. lia.
Qed.

Lemma progress_counts_app :
  forall a b, progress_counts (a ++ b) = progress_counts a ++ progress_counts b.
Proof. intros a b. unfold progress_counts. apply flat_map_app. Qed.

Lemma progress_ok_refl :
  forall runId st, settled st -> progress_ok runId st st 0.
Proof.
  intros runId st H. exists [], 0%nat. rewrite app_nil_r.
  split; [reflexivity|]. split; [exact H|]. split; [lia|]. split; [lia|].
  split; [reflexivity | constructor].
Qed.

Lemma progress_ok_trans :
  forall runId st1 st2 st3 f1 f2,
    progress_ok runId st1 st2 f1 -> progress_ok runId st2 st3 f2 ->
    progress_ok runId st1 st3 (f1 + f2).
Proof.
  intros runId st1 st2 st3 f1 f2
         [a [n [La [Sa [Ia [Pa [Ca Ra]]]]]]] [b [m [Lb [Sb [Ib [Pb [Cb Rb]]]]]]].
  exists (a ++ b), (n + m)%nat. split; [|split; [|split; [|split; [|split]]]].
  - rewrite Lb, La, app_assoc. reflexivity.
  - exact Sb.
  - lia.
  - rewrite Pb, Pa. lia.
  - rewrite progress_counts_app, thresholds_app, Ca, Cb, Pa. reflexivity.
  - apply Forall_app. split; assumption.
Qed.

Lemma progress_ok_more :
  forall runId st st' f f',
    f <= f' -> progress_ok runId st st' f -> progress_ok runId st st' f'.
Proof.
  intros runId st st' f f' Hle [a [n [La [Sa [Ia [Pa [Ca Ra]]]]]]].
  exists a, n. split; [exact La|]. split; [exact Sa|]. split; [lia|].
  split; [exact Pa|]. split; [exact Ca | exact Ra].
Qed.

Lemma progress_ok_load :
  forall runId signal st,
    settled st -> progress_ok runId st (snd (load_cancelled signal st)) 0.
Proof.
  intros runId signal st H. eexists [_], 0%nat. cbn [load_cancelled snd log].
  split; [reflexivity|]. split; [exact H|].
  cbn [itemsScanned_ lastProgressUpdate_].
  split; [lia|]. split; [lia|]. split; [reflexivity|].
  constructor; [exact I | constructor].
Qed.

Lemma progress_ok_record :
  forall runId e st,
    fs_access e = true -> settled st -> progress_ok runId st (record e st) 0.
Proof.
  intros runId e st He H. exists [e], 0%nat. cbn [record log].
  split; [reflexivity|]. split; [exact H|].
  cbn [record itemsScanned_ lastProgressUpdate_].
  split; [lia|]. split; [lia|]. split.
  - destruct e; try discriminate; reflexivity.
  - constructor; [destruct e; try discriminate; exact I | constructor].
Qed.

Lemma report_progress_settled :
  forall runId hasCb startPath st,
    settled st -> report_progress runId hasCb startPath st = st.
Proof.
  intros runId hasCb startPath st [H0 H]. unfold report_progress.
  unfold PROGRESS_INTERVAL in *.
  rewrite wrap32_small by (unfold in_int32; lia).
  destruct (5000 <=? itemsScanned_ st - lastProgressUpdate_ st) eqn:E; [|reflexivity].
  apply Z.leb_le in E. lia.
Qed.

(** A file is counted, and the threshold is reported when it is reached. *)
Lemma progress_ok_file :
  forall runId startPath st,
    settled st -> itemsScanned_ st + 1 < 2 ^ 31 ->
    progress_ok runId st
                (report_progress runId true startPath (increment_itemsScanned st)) 1.
Proof.
  intros runId startPath st [H0 H] Hmax. unfold report_progress, increment_itemsScanned.
  cbn [itemsScanned_ lastProgressUpdate_ loads log]. unfold PROGRESS_INTERVAL in *.
  rewrite (wrap32_small (itemsScanned_ st + 1)) by (unfold in_int32; lia).
  rewrite wrap32_small by (unfold in_int32; lia).
  destruct (5000 <=? itemsScanned_ st + 1 - lastProgressUpdate_ st) eqn:E.
  - apply Z.leb_le in E. eexists [_], 1%nat. cbn [log].
    split; [reflexivity|]. unfold settled, PROGRESS_INTERVAL.
    cbn [itemsScanned_ lastProgressUpdate_ progress_counts flat_map app
         pr_itemsScanned thresholds].
    split; [lia|]. split; [lia|]. split; [lia|]. split.
    + unfold PROGRESS_INTERVAL. f_equal. lia.
    + constructor; [cbn; auto | constructor].
  - apply Z.leb_gt in E. exists [], 0%nat. cbn [log]. rewrite app_nil_r.
    unfold settled, PROGRESS_INTERVAL. cbn [itemsScanned_ lastProgressUpdate_].
    split; [reflexivity|]. split; [lia|]. split; [lia|]. split; [lia|].
    split; [reflexivity | constructor].
Qed.

Lemma counts_ok_trans :
  forall runId signal st1 st2 st3 f1 f2,
    counts_ok runId signal st1 st2 f1 -> counts_ok runId signal st2 st3 f2 ->
    counts_ok runId signal st1 st3 (f1 + f2).
Proof.
  intros runId signal st1 st2 st3 f1 f2 [P1 E1] [P2 E2]. split.
  - eapply progress_ok_trans; eassumption.
  - intro H. rewrite (E2 H), (E1 H). ring.
Qed.

Lemma counts_ok_step :
  forall runId signal st1 st2 st3 f,
    counts_ok runId signal st1 st2 0 -> counts_ok runId signal st2 st3 f ->
    counts_ok runId signal st1 st3 f.
Proof.
  intros runId signal st1 st2 st3 f H1 H2.
  replace f with (0 + f) by ring. eapply counts_ok_trans; eassumption.
Qed.

Lemma counts_ok_settled :
  forall runId signal st st' f, counts_ok runId signal st st' f -> settled st'.
Proof. intros runId signal st st' f [[a [n [_ [S _]]]] _]. exact S. Qed.

Lemma counts_ok_bound :
  forall runId signal st st' f,
    counts_ok runId signal st st' f -> itemsScanned_ st' <= itemsScanned_ st + f.
Proof. intros runId signal st st' f [[a [n [_ [_ [I _]]]]] _]. lia. Qed.

Lemma counts_ok_load_clear :
  forall runId signal st,
    settled st ->
    counts_ok runId signal st
              (mkState (itemsScanned_ st) (lastProgressUpdate_ st) (S (loads st))
                       (log st ++ [CancelledLoad false])) 0.
Proof.
  intros runId signal st H. split.
  - apply (progress_ok_load runId None st H).
  - intros _. cbn. ring.
Qed.

Lemma counts_ok_record :
  forall runId signal e st,
    fs_access e = true -> settled st -> counts_ok runId signal st (record e st) 0.
Proof.
  intros runId signal e st He H. split.
  - apply progress_ok_record; assumption.
  - intros _. cbn. ring.
Qed.

Lemma counts_ok_file :
  forall runId signal startPath st,
    settled st -> itemsScanned_ st + 1 < 2 ^ 31 ->
    counts_ok runId signal st
              (report_progress runId true startPath (increment_itemsScanned st)) 1.
Proof.
  intros runId signal startPath st H Hmax. split.
  - apply progress_ok_file; assumption.
  - intros _. destruct H as [H0 H]. unfold report_progress, increment_itemsScanned.
    cbn [itemsScanned_ lastProgressUpdate_ loads log].
    destruct (PROGRESS_INTERVAL <=? _); cbn [itemsScanned_];
      apply wrap32_small; unfold in_int32; lia.
Qed.

(** When the flag is found set the part of the run ends there; this does
    not happen to a run that is never cancelled. *)
Lemma counts_ok_load_set :
  forall runId signal st f,
    settled st -> 0 <= f -> signaled signal st = true ->
    counts_ok runId signal st
              (mkState (itemsScanned_ st) (lastProgressUpdate_ st) (S (loads st))
                       (log st ++ [CancelledLoad true])) f.
Proof.
  intros runId signal st f H Hf Hsig. split.
  - apply (progress_ok_more runId _ _ 0 f Hf).
    pose proof (progress_ok_load runId signal st H) as P.
    unfold load_cancelled in P. unfold signaled in Hsig. rewrite Hsig in P. exact P.
  - intros ->. discriminate Hsig.
Qed.

Lemma files_counted_cons :
  forall name child rest c c',
    files_counted (Directory ((name, child) :: rest) c)
    = files_counted child + files_counted (Directory rest c').
Proof.
  intros name child rest c c'. unfold files_counted.
  rewrite (files_under_cons _ _ _ c c'), length_app. lia.
Qed.

Lemma files_counted_nonneg : forall n, 0 <= files_counted n.
Proof. intro n. unfold files_counted. lia. Qed.

Lemma scan_entries_counts_ok :
  forall now runId signal startPath depth entries,
    Forall (fun e =>
              is_directory (snd e) = true ->
              forall p d st,
                settled st ->
                itemsScanned_ st + files_counted (snd e) < 2 ^ 31 ->
                counts_ok runId signal st
                          (snd (scanFullAsync now runId signal true (snd e) p d st))
                          (files_counted (snd e))) entries ->
    forall result batchItems st,
      settled st ->
      itemsScanned_ st + files_counted (Directory entries true) < 2 ^ 31 ->
      counts_ok runId signal st
                (snd (scan_entries now runId signal true
                                   (scanFullAsync now runId signal true)
                                   startPath depth entries result batchItems st))
                (files_counted (Directory entries true)).
Proof.
  intros now runId signal startPath depth entries Hsub.
  induction Hsub as [|[name child] rest Hchild Hrest IH];
    intros result batchItems st Hst Hmax.
  - rewrite scan_entries_nil. split; [apply progress_ok_refl, Hst|].
    intros _. cbn. ring.
  - rewrite scan_entries_cons.
    rewrite (files_counted_cons _ _ _ true true) in *.
    pose proof (files_counted_nonneg child) as Hc.
    pose proof (files_counted_nonneg (Directory rest true)) as Hr.
    destruct (signaled signal st) eqn:Hsig.
    + rewrite (load_when_signaled _ _ Hsig). cbn [snd].
      apply counts_ok_load_set; [exact Hst | lia | exact Hsig].
    + rewrite (load_when_clear _ _ Hsig). cbv zeta.
      eapply counts_ok_step; [apply counts_ok_load_clear, Hst|].
      set (st1 := mkState _ _ _ _) in *.
      assert (Hst1 : settled st1) by exact Hst.
      eapply counts_ok_step;
        [apply (counts_ok_record runId signal (Examine (child_path startPath name)) st1
                  eq_refl Hst1)|].
      set (st2 := record _ st1) in *.
      assert (Hst2 : settled st2) by exact Hst.
      assert (Hi2 : itemsScanned_ st2 = itemsScanned_ st) by reflexivity.
      cbn [snd] in Hchild.
      destruct child as [[size|] [lwt|]|sub complete| | |].
      * change (files_counted (RegularFile (Some size) (Some lwt))) with 1 in *.
        assert (F : counts_ok runId signal st2
                      (report_progress runId true startPath (increment_itemsScanned st2)) 1)
          by (apply counts_ok_file; [exact Hst2 | lia]).
        eapply counts_ok_trans; [exact F|].
        apply IH; [eapply counts_ok_settled, F|].
        pose proof (counts_ok_bound _ _ _ _ _ F). lia.
      * apply IH; [exact Hst2 | exact Hmax].
      * apply IH; [exact Hst2 | exact Hmax].
      * apply IH; [exact Hst2 | exact Hmax].
      * specialize (Hchild eq_refl (child_path startPath name) (wrap32 (depth + 1)) st2
                           Hst2 ltac:(lia)).
        destruct (scanFullAsync _ _ _ _ _ _ _ st2) as [subResult st3].
        cbn [snd] in Hchild.
        eapply counts_ok_trans; [exact Hchild|].
        rewrite (report_progress_settled _ _ _ _ (counts_ok_settled _ _ _ _ _ Hchild)).
        apply IH; [eapply counts_ok_settled, Hchild|].
        pose proof (counts_ok_bound _ _ _ _ _ Hchild). lia.
      * specialize (Hchild eq_refl (child_path startPath name) (wrap32 (depth + 1)) st2
                           Hst2 ltac:(lia)).
        destruct (scanFullAsync _ _ _ _ _ _ _ st2) as [subResult st3].
        cbn [snd] in Hchild.
        eapply counts_ok_trans; [exact Hchild|].
        rewrite (report_progress_settled _ _ _ _ (counts_ok_settled _ _ _ _ _ Hchild)).
        apply IH; [eapply counts_ok_settled, Hchild|].
        pose proof (counts_ok_bound _ _ _ _ _ Hchild). lia.
      * rewrite (report_progress_settled _ _ _ _ Hst2).
        apply IH; [exact Hst2 | exact Hmax].
      * apply IH; [exact Hst2 | exact Hmax].
Qed.

Lemma scanFullAsync_counts_ok :
  forall now runId signal start,
    is_directory start = true ->
    forall startPath depth st,
      settled st ->
      itemsScanned_ st + files_counted start < 2 ^ 31 ->
      counts_ok runId signal st
                (snd (scanFullAsync now runId signal true start startPath depth st))
                (files_counted start).
Proof.
  intros now runId signal start.
  induction start as [size mtime|entries complete IH| | |] using FsNode_ind;
    intro Hdir; try discriminate; intros startPath depth st Hst Hmax;
    rewrite scanFullAsync_unfold;
    (destruct (signaled signal st) eqn:Hsig;
     [ rewrite (load_when_signaled _ _ Hsig); cbn [snd];
       apply counts_ok_load_set;
       [exact Hst | apply files_counted_nonneg | exact Hsig]
     | rewrite (load_when_clear _ _ Hsig); cbv zeta;
       eapply counts_ok_step; [apply counts_ok_load_clear, Hst|] ]).
  - set (st1 := mkState _ _ _ _) in *.
    assert (Hst1 : settled st1) by exact Hst.
    eapply counts_ok_step;
      [apply (counts_ok_record runId signal (Iterate startPath) st1 eq_refl Hst1)|].
    pose proof (scan_entries_counts_ok now runId signal startPath depth entries IH
                  zero_result [] (record (Iterate startPath) st1) Hst Hmax) as H.
    destruct (scan_entries _ _ _ _ _ _ _ _ _ _ _) as [[result batch] st3].
    exact H.
  - cbn [snd]. apply counts_ok_record; [reflexivity | exact Hst].
Qed.

(** ** Progress with several threads *)


Lemma spaced_bounds :
  forall history, spaced history ->
    0 <= hd 0 history /\ forall v, In v history -> PROGRESS_INTERVAL <= v <= hd 0 history.
Proof.
  unfold PROGRESS_INTERVAL.
  induction history as [|c older IH]; intro H; cbn in *.
  - split; [lia | tauto].
  - destruct H as [Hc Hold]. destruct (IH Hold) as [H0 Hall].
    unfold PROGRESS_INTERVAL in *. split; [lia|].
    intros v [<-|Hv]; [lia|]. specialize (Hall v Hv). lia.
Qed.

Lemma spaced_apart :
  forall history, spaced history ->
    forall v w, known history v -> In w history -> v <> w ->
                PROGRESS_INTERVAL <= Z.abs (v - w).
Proof.
  unfold PROGRESS_INTERVAL, known.
  induction history as [|c older IH]; intros H v w Hv Hw Hne; cbn in *; [tauto|].
  destruct H as [Hc Hold].
  destruct (spaced_bounds _ Hold) as [H0 Hb]. unfold PROGRESS_INTERVAL in *.
  destruct Hw as [<-|Hw].
  - destruct Hv as [->|[->|Hv]]; [lia | congruence |].
    specialize (Hb v Hv). lia.
  - destruct Hv as [->|[<-|Hv]].
    + specialize (Hb w Hw). lia.
    + specialize (Hb w Hw). lia.
    + apply (IH Hold v w); auto.
Qed.

Lemma spaced_length :
  forall history, spaced history ->
    PROGRESS_INTERVAL * Z.of_nat (List.length history) <= hd 0 history.
Proof.
  unfold PROGRESS_INTERVAL.
  induction history as [|c older IH]; intro H; cbn [List.length hd]; [lia|].
  destruct H as [Hc Hold]. specialize (IH Hold). unfold PROGRESS_INTERVAL in *. lia.
Qed.

Lemma pending_app :
  forall a b, pending (a ++ b) = pending a ++ pending b.
Proof. intros a b. unfold pending. apply flat_map_app. Qed.

Lemma pending_cons :
  forall t rest,
    pending (t :: rest)
    = match th_pc t with Callback current => [current] | _ => [] end ++ pending rest.
Proof. reflexivity. Qed.

Lemma files_left_app :
  forall a b, files_left (a ++ b) = files_left a + files_left b.
Proof.
  intros a b. unfold files_left. induction a as [|t a IH]; cbn; [reflexivity|].
  fold (files_left a) in *. cbn in IH. rewrite IH. ring.
Qed.

Lemma files_left_cons :
  forall t rest, files_left (t :: rest) = files_todo t + files_left rest.
Proof. reflexivity. Qed.

Lemma files_left_nonneg : forall ts, 0 <= files_left ts.
Proof.
  induction ts as [|t ts IH]; [cbn; lia|].
  rewrite files_left_cons. unfold files_todo. lia.
Qed.

Lemma thread_inv_more :
  forall history s history' s' t,
    sh_itemsScanned s <= sh_itemsScanned s' ->
    (forall v, known history v -> known history' v) ->
    thread_inv history s t -> thread_inv history' s' t.
Proof.
  intros history s history' s' t Hi Hk. unfold thread_inv.
  destruct (th_pc t); try tauto.
  - lia.
  - intros [H1 H2]. split; [lia | auto].
Qed.

Lemma Forall_thread_inv_more :
  forall history s history' s' ts,
    sh_itemsScanned s <= sh_itemsScanned s' ->
    (forall v, known history v -> known history' v) ->
    Forall (thread_inv history s) ts -> Forall (thread_inv history' s') ts.
Proof.
  intros history s history' s' ts Hi Hk H.
  eapply Forall_impl; [|exact H]. intro t. apply thread_inv_more; assumption.
Qed.

Lemma invariant_build :
  forall total before t after s history,
    spaced history ->
    hd 0 history = sh_lastProgressUpdate s ->
    sh_lastProgressUpdate s <= sh_itemsScanned s ->
    0 <= sh_itemsScanned s ->
    sh_itemsScanned s + (files_left before + (files_todo t + files_left after)) = total ->
    NoDup (map pr_itemsScanned (sh_reported s)
           ++ pending before
           ++ match th_pc t with Callback c => [c] | _ => [] end
           ++ pending after) ->
    (forall v,
        In v (map pr_itemsScanned (sh_reported s)
              ++ pending before
              ++ match th_pc t with Callback c => [c] | _ => [] end
              ++ pending after) <-> In v history) ->
    Forall (thread_inv history s) before ->
    thread_inv history s t ->
    Forall (thread_inv history s) after ->
    Forall (fun t => th_hasCb t = true) before ->
    th_hasCb t = true ->
    Forall (fun t => th_hasCb t = true) after ->
    Forall (fun p => pr_state p = "running") (sh_reported s) ->
    invariant total (before ++ t :: after, s).
Proof.
  intros total before t after s history Hsp Hhd Hle H0 Htot Hnd Hcl
         Hth_b Hth_t Hth_a Hcb_b Hcb_t Hcb_a Hrun.
  exists history. unfold claims. cbn [fst snd].
  rewrite pending_app, pending_cons, files_left_app, files_left_cons.
  repeat split; try assumption.
  - apply Hcl.
  - apply Hcl.
  - apply Forall_app. split; [assumption|]. constructor; assumption.
  - apply Forall_app. split; [assumption|]. constructor; assumption.
Qed.

Lemma known_cons : forall c history v, known history v -> known (c :: history) v.
Proof. intros c history v [H|H]; [left; exact H | right; right; exact H]. Qed.

Lemma known_hd : forall history, known history (hd 0 history).
Proof. intros [|c older]; [left; reflexivity | right; left; reflexivity]. Qed.

(** Every step of a thread keeps the invariant. *)
Lemma step_invariant :
  forall total sys sys',
    total < 2 ^ 31 -> invariant total sys -> step sys sys' -> invariant total sys'.
Proof.
  intros total sys sys' Hmax Hinv Hstep.
  destruct Hstep as [before t after s t' s' Hts].
  destruct Hinv as [history [Hsp [Hhd [Hle [H0 [Htot [Hnd [Hcl [Hth [Hcb Hrun]]]]]]]]]].
  unfold claims in Hnd, Hcl. cbn [fst snd] in *.
  rewrite pending_app, pending_cons in Hnd, Hcl.
  rewrite files_left_app, files_left_cons in Htot.
  apply Forall_app in Hth. destruct Hth as [Hth_b Hth].
  apply Forall_cons_iff in Hth. destruct Hth as [Hth_t Hth_a].
  apply Forall_app in Hcb. destruct Hcb as [Hcb_b Hcb].
  apply Forall_cons_iff in Hcb. destruct Hcb as [Hcb_t Hcb_a].
  pose proof (files_left_nonneg before) as Hfb.
  pose proof (files_left_nonneg after) as Hfa.
  unfold thread_step in Hts. destruct (th_pc t) as [| |current|current lastUpdate|current] eqn:Hpc.
  - (* the next entry is taken *)
    destruct (th_todo t) as [|[isFile dir] rest] eqn:Htodo; [discriminate|].
    injection Hts as <- <-.
    assert (Hfiles : files_todo t = (if isFile then 1 else 0)
                                    + Z.of_nat (List.length (filter fst rest))).
    { unfold files_todo. rewrite Htodo. cbn [filter fst]. destruct isFile; cbn [List.length]; lia. }
    destruct isFile.
    + apply (invariant_build total before _ after _ history); cbn [th_pc th_hasCb th_todo
        sh_itemsScanned sh_lastProgressUpdate sh_reported]; try assumption.
      * rewrite wrap32_small by (unfold in_int32; lia). lia.
      * rewrite wrap32_small by (unfold in_int32; lia). lia.
      * rewrite wrap32_small by (unfold in_int32; lia).
        unfold files_todo at 1. cbn [th_todo]. lia.
      * eapply Forall_thread_inv_more; [| |exact Hth_b]; cbn;
          [rewrite wrap32_small by (unfold in_int32; lia); lia | auto].
      * exact I.
      * eapply Forall_thread_inv_more; [| |exact Hth_a]; cbn;
          [rewrite wrap32_small by (unfold in_int32; lia); lia | auto].
    + apply (invariant_build total before _ after _ history); cbn [th_pc th_hasCb th_todo];
        try assumption.
      * unfold files_todo at 1. cbn [th_todo]. lia.
      * exact I.
  - (* current = itemsScanned_.load() *)
    injection Hts as <- <-.
    apply (invariant_build total before _ after _ history); cbn [at_pc th_pc th_hasCb];
      try assumption.
    unfold thread_inv. cbn [at_pc th_pc]. lia.
  - (* lastUpdate = lastProgressUpdate_.load() *)
    injection Hts as <- <-.
    apply (invariant_build total before _ after _ history); cbn [at_pc th_pc th_hasCb];
      try assumption.
    unfold thread_inv in *. rewrite Hpc in Hth_t. cbn [at_pc th_pc].
    split; [exact Hth_t|]. rewrite <- Hhd. apply known_hd.
  - (* the test and the exchange *)
    unfold thread_inv in Hth_t. rewrite Hpc in Hth_t. destruct Hth_t as [Hc Hl].
    destruct (PROGRESS_INTERVAL <=? wrap32 (current - lastUpdate)) eqn:Htest.
    + destruct (sh_lastProgressUpdate s =? lastUpdate) eqn:Hcas.
      * (* the exchange succeeds *)
        injection Hts as <- <-. apply Z.eqb_eq in Hcas. apply Z.leb_le in Htest.
        subst lastUpdate.
        destruct (spaced_bounds _ Hsp) as [Hh0 Hhb].
        pose proof (files_left_nonneg [t]) as Hft.
        rewrite files_left_cons in Hft. cbn [files_left fold_right] in Hft.
        rewrite wrap32_small in Htest by (unfold in_int32; lia).
        assert (Hnew : ~ In current history).
        { intro Hin. specialize (Hhb _ Hin). unfold PROGRESS_INTERVAL in *. lia. }
        apply (invariant_build total before _ after _ (current :: history));
          cbn [at_pc th_pc th_hasCb th_todo sh_itemsScanned sh_lastProgressUpdate
               sh_reported hd]; try assumption.
        -- cbn [spaced]. split; [lia | exact Hsp].
        -- reflexivity.
        -- lia.
        -- cbn [app] in *. rewrite app_assoc. rewrite app_assoc in Hnd.
           apply (NoDup_Add (Add_app current _ (pending after))).
           split; [exact Hnd|].
           intro Hin. apply Hnew, Hcl. rewrite app_assoc. exact Hin.
        -- intro v. cbn [app] in *. specialize (Hcl v).
           rewrite !in_app_iff in *. cbn [In]. tauto.
        -- eapply Forall_thread_inv_more; [| |exact Hth_b];
             [cbn [sh_itemsScanned]; lia | apply known_cons].
        -- exact I.
        -- eapply Forall_thread_inv_more; [| |exact Hth_a];
             [cbn [sh_itemsScanned]; lia | apply known_cons].
      * (* the exchange fails *)
        injection Hts as <- <-.
        apply (invariant_build total before _ after _ history); cbn [at_pc th_pc th_hasCb];
          try assumption. exact I.
    + injection Hts as <- <-.
      apply (invariant_build total before _ after _ history); cbn [at_pc th_pc th_hasCb];
        try assumption. exact I.
  - (* the callback is called *)
    rewrite Hcb_t in Hts. injection Hts as <- <-.
    apply (invariant_build total before _ after _ history);
      cbn [at_pc th_pc th_hasCb th_todo sh_itemsScanned sh_lastProgressUpdate sh_reported];
      try assumption.
    + rewrite map_app. cbn [map pr_itemsScanned app]. rewrite <- app_assoc.
      cbn [app] in *. eapply Permutation_NoDup; [|exact Hnd].
      apply Permutation_app_head, Permutation_sym, Permutation_middle.
    + intro v. specialize (Hcl v). rewrite map_app. cbn [map pr_itemsScanned].
      cbn [app] in *. rewrite !in_app_iff in *. cbn [In] in *. tauto.
    + exact I.
    + apply Forall_app. split; [exact Hrun|]. constructor; [reflexivity | constructor].
Qed.

Lemma pending_starting :
  forall ts, Forall starting ts -> pending ts = [].
Proof.
  intros ts H. induction H as [|t ts Ht Hts IH]; [reflexivity|].
  rewrite pending_cons, IH. unfold starting in Ht. rewrite Ht. reflexivity.
Qed.

Lemma initial_invariant :
  forall threads,
    Forall starting threads ->
    Forall (fun t => th_hasCb t = true) threads ->
    invariant (files_left threads) (initial threads).
Proof.
  intros threads Hstart Hcb. exists []. unfold initial, claims. cbn [fst snd
    sh_itemsScanned sh_lastProgressUpdate sh_reported map app hd spaced].
  rewrite (pending_starting _ Hstart).
  assert (Hth : Forall (thread_inv [] (mkShared 0 0 [])) threads).
  { eapply Forall_impl; [|exact Hstart]. intros t Ht. unfold thread_inv.
    unfold starting in Ht. rewrite Ht. exact I. }
  split; [exact I|]. split; [reflexivity|]. split; [lia|]. split; [lia|].
  split; [reflexivity|]. split; [constructor|]. split; [tauto|].
  split; [exact Hth|]. split; [exact Hcb | constructor].
Qed.

Lemma steps_invariant :
  forall total sys sys',
    total < 2 ^ 31 -> invariant total sys -> steps sys sys' -> invariant total sys'.
Proof.
  intros total sys sys' Hmax Hinv Hsteps. induction Hsteps as [|sys1 sys2 sys3 _ IH Hstep].
  - exact Hinv.
  - eapply step_invariant; [exact Hmax | apply IH, Hinv | exact Hstep].
Qed.

(** A step adds at most one to the count and at most one report. *)
Lemma step_counts :
  forall total sys sys',
    total < 2 ^ 31 -> invariant total sys -> step sys sys' ->
    sh_itemsScanned (snd sys) <= sh_itemsScanned (snd sys')
      <= sh_itemsScanned (snd sys) + 1
    /\ exists new, sh_reported (snd sys') = sh_reported (snd sys) ++ new
                   /\ (List.length new <= 1)%nat.
Proof.
  intros total sys sys' Hmax Hinv Hstep.
  destruct Hstep as [before t after s t' s' Hts].
  destruct Hinv as [history [_ [_ [_ [H0 [Htot _]]]]]].
  cbn [fst snd] in *. rewrite files_left_app, files_left_cons in Htot.
  pose proof (files_left_nonneg before) as Hfb.
  pose proof (files_left_nonneg after) as Hfa.
  unfold thread_step in Hts.
  destruct (th_pc t) as [| |current|current lastUpdate|current].
  - destruct (th_todo t) as [|[isFile dir] rest] eqn:Htodo; [discriminate|].
    injection Hts as <- <-.
    assert (Hfiles : files_todo t = (if isFile then 1 else 0)
                                    + Z.of_nat (List.length (filter fst rest))).
    { unfold files_todo. rewrite Htodo. cbn [filter fst].
      destruct isFile; cbn [List.length]; lia. }
    destruct isFile; cbn [sh_itemsScanned sh_reported].
    + rewrite wrap32_small by (unfold in_int32; lia).
      split; [lia|]. exists []. rewrite app_nil_r. split; [reflexivity | cbn; lia].
    + split; [lia|]. exists []. rewrite app_nil_r. split; [reflexivity | cbn; lia].
  - injection Hts as <- <-. split; [lia|].
    exists []. rewrite app_nil_r. split; [reflexivity | cbn; lia].
  - injection Hts as <- <-. split; [lia|].
    exists []. rewrite app_nil_r. split; [reflexivity | cbn; lia].
  - destruct (PROGRESS_INTERVAL <=? _);
      [destruct (sh_lastProgressUpdate s =? lastUpdate)|];
      injection Hts as <- <-; cbn [sh_itemsScanned sh_reported];
      (split; [lia|]); exists []; rewrite app_nil_r; (split; [reflexivity | cbn; lia]).
  - injection Hts as <- <-. destruct (th_hasCb t); cbn [sh_itemsScanned sh_reported].
    + split; [lia|]. eexists [_]. split; [reflexivity | cbn; lia].
    + split; [lia|]. exists []. rewrite app_nil_r. split; [reflexivity | cbn; lia].
Qed.

Lemma invariant_reports :
  forall total sys,
    invariant total sys ->
    let counts := map pr_itemsScanned (sh_reported (snd sys)) in
    0 <= sh_lastProgressUpdate (snd sys) <= sh_itemsScanned (snd sys)
    /\ sh_itemsScanned (snd sys) <= total
    /\ NoDup counts
    /\ (forall v w, In v counts -> In w counts -> v <> w ->
                    PROGRESS_INTERVAL <= Z.abs (v - w))
    /\ PROGRESS_INTERVAL * Z.of_nat (List.length (sh_reported (snd sys)))
       <= sh_itemsScanned (snd sys)
    /\ Forall (fun p => pr_state p = "running") (sh_reported (snd sys)).
Proof.
  intros total sys [history [Hsp [Hhd [Hle [H0 [Htot [Hnd [Hcl [Hth [Hcb Hrun]]]]]]]]]] counts.
  destruct (spaced_bounds _ Hsp) as [Hh0 Hhb].
  pose proof (files_left_nonneg (fst sys)) as Hf.
  unfold claims in *. fold counts in Hnd, Hcl.
  split; [lia|]. split; [lia|].
  split; [apply (NoDup_app_remove_r _ _ Hnd)|].
  split.
  - intros v w Hv Hw Hne. apply (spaced_apart history Hsp); [right| |exact Hne];
      apply Hcl, in_or_app; left; assumption.
  - split; [|exact Hrun].
    assert (Hlen : (List.length counts <= List.length history)%nat).
    { apply NoDup_incl_length; [apply (NoDup_app_remove_r _ _ Hnd)|].
      intros v Hv. apply Hcl, in_or_app. left. exact Hv. }
    unfold counts in Hlen. rewrite length_map in Hlen.
    pose proof (spaced_length _ Hsp). unfold PROGRESS_INTERVAL in *. lia.
Qed.

(** A thread that finds the threshold reached and loses the exchange has
    lost it to a report of a count at least an interval beyond its
    [lastUpdate]. *)
Lemma lost_exchange_is_reported :
  forall total before t after s current lastUpdate,
    total < 2 ^ 31 ->
    invariant total (before ++ t :: after, s) ->
    th_pc t = Exchange current lastUpdate ->
    sh_lastProgressUpdate s <> lastUpdate ->
    lastUpdate + PROGRESS_INTERVAL <= sh_lastProgressUpdate s
    /\ In (sh_lastProgressUpdate s) (claims (before ++ t :: after, s)).
Proof.
  intros total before t after s current lastUpdate Hmax
         [history [Hsp [Hhd [Hle [H0 [Htot [Hnd [Hcl [Hth [Hcb Hrun]]]]]]]]]] Hpc Hne.
  cbn [fst snd] in *.
  apply Forall_app in Hth. destruct Hth as [_ Hth].
  apply Forall_cons_iff in Hth. destruct Hth as [Hth_t _].
  unfold thread_inv in Hth_t. rewrite Hpc in Hth_t. destruct Hth_t as [_ Hknown].
  destruct (spaced_bounds _ Hsp) as [Hh0 Hhb].
  assert (Hin : In (sh_lastProgressUpdate s) history).
  { destruct history as [|c older]; [|left; exact Hhd].
    cbn in Hhd. destruct Hknown as [->|[]]. congruence. }
  split; [|apply Hcl, Hin].
  pose proof (spaced_apart history Hsp lastUpdate _ Hknown Hin
                           (fun E => Hne (eq_sym E))) as Hgap.
  assert (lastUpdate <= sh_lastProgressUpdate s).
  { destruct Hknown as [->|Hk]; [lia|]. specialize (Hhb _ Hk). lia. }
  unfold PROGRESS_INTERVAL in *. lia.
Qed.

(** ** Schedules *)

Lemma nth_step_is_step :
  forall i threads s sys',
    nth_step i threads s = Some sys' -> step (threads, s) sys'.
Proof.
  intros i threads. revert i.
  induction threads as [|t rest IH]; intros i s sys' H; [destruct i; discriminate|].
  destruct i as [|j]; cbn [nth_step] in H.
  - destruct (thread_step t s) as [[t' s']|] eqn:E; [|discriminate].
    injection H as <-. apply (step_thread [] t rest s t' s' E).
  - destruct (nth_step j rest s) as [[rest' s']|] eqn:E; [|discriminate].
    injection H as <-. specialize (IH _ _ _ E).
    inversion IH as [before t0 after s0 t' s1 Hstep Hb Ha]. subst.
    apply (step_thread (t :: before) t0 after s t' s' Hstep).
Qed.

Lemma steps_first :
  forall sys1 sys2 sys3, step sys1 sys2 -> steps sys2 sys3 -> steps sys1 sys3.
Proof.
  intros sys1 sys2 sys3 H12 H23. induction H23 as [|sys2 sys3 sys4 _ IH H34].
  - eapply steps_then; [apply steps_refl | exact H12].
  - eapply steps_then; [apply IH, H12 | exact H34].
Qed.

Lemma run_steps : forall schedule sys, steps sys (run schedule sys).
Proof.
  induction schedule as [|i more IH]; intro sys; cbn [run]; [apply steps_refl|].
  destruct (nth_step i (fst sys) (snd sys)) as [sys'|] eqn:E; [|apply steps_refl].
  eapply steps_first; [|apply IH].
  destruct sys as [ts s]. apply (nth_step_is_step _ _ _ _ E).
Qed.

(** ** One thread alone *)

Lemma reports_app : forall a b, reports (a ++ b) = reports a ++ reports b.
Proof. intros a b. unfold reports. apply flat_map_app. Qed.

(** A thread that is alone does to the counters what the progress block
    of [scanFullAsync] does in the single-threaded reading of it. *)
Lemma entry_alone_file :
  forall runId hasCb startPath dir rest st,
    entry_alone (mkThread runId hasCb startPath NextEntry ((true, dir) :: rest))
                (shared_of st)
    = (mkThread runId hasCb dir NextEntry rest,
       shared_of (report_progress runId hasCb dir (increment_itemsScanned st))).
Proof.
  intros runId hasCb startPath dir rest st.
  unfold entry_alone, report_progress, increment_itemsScanned, shared_of.
  cbn [thread_step th_pc th_todo th_runId th_hasCb th_path finish at_pc
       sh_itemsScanned sh_lastProgressUpdate sh_reported
       itemsScanned_ lastProgressUpdate_ loads log].
  destruct (PROGRESS_INTERVAL <=? _) eqn:Htest;
    cbn [thread_step th_pc th_todo th_runId th_hasCb th_path finish at_pc
         sh_itemsScanned sh_lastProgressUpdate sh_reported
         itemsScanned_ lastProgressUpdate_ loads log]; [|reflexivity].
  rewrite Z.eqb_refl.
  cbn [thread_step th_pc th_todo th_runId th_hasCb th_path finish at_pc
       sh_itemsScanned sh_lastProgressUpdate sh_reported].
  destruct hasCb; cbn [itemsScanned_ lastProgressUpdate_ loads log]; [|reflexivity].
  rewrite reports_app. reflexivity.
Qed.

Lemma entry_alone_other :
  forall runId hasCb startPath dir rest st,
    entry_alone (mkThread runId hasCb startPath NextEntry ((false, dir) :: rest))
                (shared_of st)
    = (mkThread runId hasCb dir NextEntry rest,
       shared_of (report_progress runId hasCb dir st)).
Proof.
  intros runId hasCb startPath dir rest st.
  unfold entry_alone, report_progress, shared_of.
  cbn [thread_step th_pc th_todo th_runId th_hasCb th_path finish at_pc
       sh_itemsScanned sh_lastProgressUpdate sh_reported
       itemsScanned_ lastProgressUpdate_ loads log].
  destruct (PROGRESS_INTERVAL <=? _) eqn:Htest;
    cbn [thread_step th_pc th_todo th_runId th_hasCb th_path finish at_pc
         sh_itemsScanned sh_lastProgressUpdate sh_reported
         itemsScanned_ lastProgressUpdate_ loads log]; [|reflexivity].
  rewrite Z.eqb_refl.
  cbn [thread_step th_pc th_todo th_runId th_hasCb th_path finish at_pc
       sh_itemsScanned sh_lastProgressUpdate sh_reported].
  destruct hasCb; cbn [itemsScanned_ lastProgressUpdate_ loads log]; [|reflexivity].
  rewrite reports_app. reflexivity.
Qed.

Lemma finish_steps :
  forall fuel t s, steps ([t], s) ([fst (finish fuel t s)], snd (finish fuel t s)).
Proof.
  induction fuel as [|fuel IH]; intros t s; cbn [finish]; [apply steps_refl|].
  destruct (th_pc t) eqn:Hpc; try apply steps_refl;
    (destruct (thread_step t s) as [[t' s']|] eqn:E; [|apply steps_refl];
     eapply steps_first; [apply (step_thread [] t [] s t' s' E) | apply IH]).
Qed.

(** Handling an entry alone is a run of the threads' steps. *)
Lemma entry_alone_steps :
  forall t s, steps ([t], s) ([fst (entry_alone t s)], snd (entry_alone t s)).
Proof.
  intros t s. unfold entry_alone.
  destruct (thread_step t s) as [[t' s']|] eqn:E; [|apply steps_refl].
  eapply steps_first; [apply (step_thread [] t [] s t' s' E) | apply finish_steps].
Qed.

(** The thresholds of 5001 files counted by one thread. *)
Example one_report_for_5001_files :
  let st' := snd (scanFullAsync (fun _ => 0) "run-1" None true (many_files (Z.to_nat 5001)) "/d" 0 new_scanner) in
  itemsScanned_ st' = 5001
  /\ lastProgressUpdate_ st' = 5000
  /\ progress_counts (log st') = [5000].
Proof. vm_compute. repeat split. Qed.

(** The second thread has reported the count 5000 and the first is about
    to lose the exchange. *)
Example contended_state :
  contended
  = ([ mkThread "run-1" true "/a" (Exchange 5000 0) [];
       mkThread "run-2" true "/b" NextEntry [] ],
     mkShared 5000 5000 [mkProgress "run-2" 5000 "/b" "running" ""]).
Proof. vm_compute. reflexivity. Qed.


(** C8, as the code has it.  The count is that of the regular files whose
    size and time a scan has read; other entries do not enter it.  In one
    thread, from a state in which the count is less than an interval ahead
    of the last count reported, a scan with a callback leaves such a state,
    never lowers the count, raises it by the number of those files when it
    is not cancelled, and reports exactly the thresholds crossed, each once
    and in order, as "running" events of its run.  With several threads on
    one scanner, each with a callback, the count never goes down, every
    report is a "running" event, two reports are at least an interval
    apart, there is at most one report per interval counted, and a thread
    that finds the threshold reached and loses the exchange has lost it to
    a report of a count at least an interval beyond the one it had read. *)
Theorem progress_once_per_threshold :
  (forall now runId signal start startPath depth st,
      is_directory start = true ->
      settled st ->
      itemsScanned_ st + files_counted start < 2 ^ 31 ->
      let st' := snd (scanFullAsync now runId signal true start startPath depth st) in
      exists events n,
        log st' = log st ++ events
        /\ settled st'
        /\ itemsScanned_ st <= itemsScanned_ st' <= itemsScanned_ st + files_counted start
        /\ (signal = None -> itemsScanned_ st' = itemsScanned_ st + files_counted start)
        /\ lastProgressUpdate_ st'
           = lastProgressUpdate_ st + PROGRESS_INTERVAL * Z.of_nat n
        /\ progress_counts events = thresholds (lastProgressUpdate_ st) n
        /\ Forall (is_running runId) events)
  /\ (forall threads sys,
         Forall starting threads ->
         Forall (fun t => th_hasCb t = true) threads ->
         files_left threads < 2 ^ 31 ->
         steps (initial threads) sys ->
         let counts := map pr_itemsScanned (sh_reported (snd sys)) in
         0 <= sh_lastProgressUpdate (snd sys) <= sh_itemsScanned (snd sys)
         /\ sh_itemsScanned (snd sys) <= files_left threads
         /\ NoDup counts
         /\ (forall v w, In v counts -> In w counts -> v <> w ->
                         PROGRESS_INTERVAL <= Z.abs (v - w))
         /\ PROGRESS_INTERVAL * Z.of_nat (List.length (sh_reported (snd sys)))
            <= sh_itemsScanned (snd sys)
         /\ Forall (fun p => pr_state p = "running") (sh_reported (snd sys))
         /\ (forall sys',
                step sys sys' ->
                sh_itemsScanned (snd sys) <= sh_itemsScanned (snd sys')
                  <= sh_itemsScanned (snd sys) + 1
                /\ exists new, sh_reported (snd sys') = sh_reported (snd sys) ++ new
                               /\ (List.length new <= 1)%nat)
         /\ (forall before t after current lastUpdate,
                fst sys = before ++ t :: after ->
                th_pc t = Exchange current lastUpdate ->
                sh_lastProgressUpdate (snd sys) <> lastUpdate ->
                lastUpdate + PROGRESS_INTERVAL <= sh_lastProgressUpdate (snd sys)
                /\ In (sh_lastProgressUpdate (snd sys)) (claims sys))).
Proof.
  split.
  - intros now runId signal start startPath depth st Hdir Hst Hmax st'.
    destruct (scanFullAsync_counts_ok now runId signal start Hdir startPath depth st
                Hst Hmax) as [[events [n [Hlog [Hs [Hi [Hl [Hc Hr]]]]]]] Hexact].
    exists events, n. split; [exact Hlog|]. split; [exact Hs|]. split; [exact Hi|].
    split; [exact Hexact|]. split; [exact Hl|]. split; [exact Hc | exact Hr].
  - intros threads sys Hstart Hcb Hmax Hsteps counts.
    pose proof (steps_invariant _ _ _ Hmax (initial_invariant threads Hstart Hcb) Hsteps)
      as Hinv.
    destruct (invariant_reports _ _ Hinv) as [H1 [H2 [H3 [H4 [H5 H6]]]]].
    split; [exact H1|]. split; [exact H2|]. split; [exact H3|]. split; [exact H4|].
    split; [exact H5|]. split; [exact H6|]. split.
    + intros sys' Hstep. apply (step_counts _ _ _ Hmax Hinv Hstep).
    + intros before t after current lastUpdate Hts Hpc Hne.
      destruct sys as [ts s]. cbn [fst snd] in *. subst ts.
      apply (lost_exchange_is_reported _ _ _ _ _ current lastUpdate Hmax Hinv Hpc Hne).
Qed.

Lemma progress_once_per_threshold_witness :
  (exists events n,
      log (snd (scanFullAsync (fun _ => 1704070000000) "run-1" None true sample_tree "/data" 0
                              new_scanner))
      = log new_scanner ++ events
      /\ settled (snd (scanFullAsync (fun _ => 1704070000000) "run-1" None true sample_tree
                                     "/data" 0 new_scanner))
      /\ itemsScanned_ (snd (scanFullAsync (fun _ => 1704070000000) "run-1" None true sample_tree
                                           "/data" 0 new_scanner))
         = itemsScanned_ new_scanner + files_counted sample_tree
      /\ progress_counts events = thresholds (lastProgressUpdate_ new_scanner) n)
  /\ NoDup (map pr_itemsScanned (sh_reported (snd contended)))
  /\ sh_itemsScanned (snd contended) <= files_left two_threads
  /\ 0 + PROGRESS_INTERVAL <= sh_lastProgressUpdate (snd contended)
  /\ In (sh_lastProgressUpdate (snd contended)) (claims contended).
Proof.
  destruct progress_once_per_threshold as [Hone Hmany]. split.
  - destruct (Hone (fun _ => 1704070000000) "run-1" None sample_tree "/data" 0 new_scanner)
      as [events [n [Hlog [Hs [Hi [Hexact [Hl [Hc Hr]]]]]]]].
    + reflexivity.
    + unfold settled, PROGRESS_INTERVAL. cbn. lia.
    + vm_compute. reflexivity.
    + exists events, n. split; [exact Hlog|]. split; [exact Hs|].
      split; [apply Hexact; reflexivity | exact Hc].
  - destruct (Hmany two_threads contended) as [_ [Hle [Hnd [_ [_ [_ [_ Hlost]]]]]]].
    + repeat constructor.
    + repeat constructor.
    + vm_compute. reflexivity.
    + apply run_steps.
    + split; [exact Hnd|]. split; [exact Hle|].
      apply (Hlost [] (mkThread "run-1" true "/a" (Exchange 5000 0) [])
                   [mkThread "run-2" true "/b" NextEntry []] 5000 0).
      * vm_compute. reflexivity.
      * reflexivity.
      * vm_compute. discriminate.
Defined.

(** C8 as stated does not hold: the count is not of all the entries
    observed.  A scan that examines three entries, none of them a regular
    file, leaves the count at 0. *)
Lemma count_leaves_out_other_entries :
  let st' := snd (scanFullAsync (fun _ => 1704070000000) "run-1" None true no_files "/data" 0
                                new_scanner) in
  itemsScanned_ st' = 0
  /\ filter fs_access (log st')
     = [ Iterate "/data"; Examine "/data/sub"; Iterate "/data/sub";
         Examine "/data/sock"; Examine "/data/fifo" ].
Proof. split; reflexivity. Qed.

(** * Further properties *)

(** ** The primary key *)

Lemma upsert_row_paths :
  forall x t,
    map r_path (upsert_row x t)
    = if existsb (fun r => String.eqb (r_path r) (r_path x)) t
      then map r_path t else map r_path t ++ [r_path x].
Proof.
  intros x t. induction t as [|r t IH]; [reflexivity|].
  cbn [upsert_row existsb map].
  destruct (String.eqb (r_path r) (r_path x)) eqn:E; cbn [orb map].
  - reflexivity.
  - rewrite IH. destruct (existsb _ t); reflexivity.
Qed.

Lemma existsb_path_In :
  forall p t,
    existsb (fun r => String.eqb (r_path r) p) t = true <-> In p (map r_path t).
Proof.
  intros p t. rewrite existsb_exists, in_map_iff. split.
  - intros [r [Hin E]]. apply String.eqb_eq in E. exists r. split; [exact E | exact Hin].
  - intros [r [E Hin]]. exists r. split; [exact Hin | apply String.eqb_eq; exact E].
Qed.

Lemma upsert_row_unique :
  forall x t, paths_unique t -> paths_unique (upsert_row x t).
Proof.
  intros x t H. unfold paths_unique in *. rewrite upsert_row_paths.
  destruct (existsb _ t) eqn:E; [exact H|].
  apply NoDup_app; [exact H | constructor; [intros [] | constructor] |].
  intros p Hp [<-|[]].
  apply existsb_path_In in Hp. congruence.
Qed.

Lemma upsert_row_clean :
  forall x t, c_str (r_path x) = r_path x -> paths_clean t -> paths_clean (upsert_row x t).
Proof.
  intros x t Hx H. induction H as [|r t Hr Ht IH]; cbn [upsert_row].
  - constructor; [exact Hx | constructor].
  - destruct (String.eqb (r_path r) (r_path x)).
    + constructor; [exact Hr | exact Ht].
    + constructor; [exact Hr | exact IH].
Qed.

Lemma upsert_step_unique :
  forall t i, paths_unique t -> paths_unique (upsert_step t i).
Proof.
  intros t i H. unfold upsert_step. destruct (negb _); [exact H|].
  apply upsert_row_unique, H.
Qed.

Lemma upsert_step_clean :
  forall t i, paths_clean t -> paths_clean (upsert_step t i).
Proof.
  intros t i H. unfold upsert_step. destruct (negb _); [exact H|].
  apply upsert_row_clean; [apply c_str_idem | exact H].
Qed.

Lemma fold_upsert_unique :
  forall batch t, paths_unique t -> paths_unique (fold_left upsert_step batch t).
Proof.
  induction batch as [|i batch IH]; intros t H; [exact H|].
  apply IH, upsert_step_unique, H.
Qed.

Lemma fold_upsert_clean :
  forall batch t, paths_clean t -> paths_clean (fold_left upsert_step batch t).
Proof.
  induction batch as [|i batch IH]; intros t H; [exact H|].
  apply IH, upsert_step_clean, H.
Qed.

(** The table of a store after a batch. *)
Lemma find_unique :
  forall t r,
    paths_unique t -> In r t ->
    find (fun x => text_eqb (r_path x) (r_path r)) t = Some r.
Proof.
  unfold paths_unique, text_eqb. induction t as [|y t IH]; intros r Hnd Hin; [destruct Hin|].
  cbn [map] in Hnd. inversion Hnd as [|? ? Hnot Hnd']; subst.
  cbn [find]. destruct Hin as [->|Hin].
  - rewrite String.eqb_refl. reflexivity.
  - destruct (String.eqb (r_path y) (r_path r)) eqn:E.
    + apply String.eqb_eq in E. exfalso. apply Hnot. rewrite E.
      apply in_map, Hin.
    + apply IH; assumption.
Qed.

(** X1.  [path] stays a key.  A batch leaves a table in which no two rows
    share a path and every path is as [c_str()] leaves it, when it found
    one; and then every row of the table is what a lookup by its path
    returns. *)
Theorem upsert_keeps_primary_key :
  forall batch db,
    paths_unique (items db) -> paths_clean (items db) ->
    paths_unique (items (upsertItems batch db))
    /\ paths_clean (items (upsertItems batch db))
    /\ (db_ db = true ->
        forall r, In r (items (upsertItems batch db)) ->
                  getItemByPath (r_path r) (upsertItems batch db)
                  = Some (row_to_item r)).
Proof.
  intros batch db Hu Hc.
  assert (Hu' : paths_unique (items (upsertItems batch db))).
  { rewrite items_upsertItems. destruct (db_ db); [apply fold_upsert_unique|]; exact Hu. }
  assert (Hc' : paths_clean (items (upsertItems batch db))).
  { rewrite items_upsertItems. destruct (db_ db); [apply fold_upsert_clean|]; exact Hc. }
  split; [exact Hu'|]. split; [exact Hc'|].
  intros Hopen r Hin.
  rewrite getItemByPath_open by (rewrite upsertItems_open; exact Hopen).
  unfold paths_clean in Hc'. rewrite Forall_forall in Hc'.
  rewrite (Hc' r Hin), (find_unique _ r Hu' Hin). reflexivity.
Qed.

Lemma upsert_keeps_primary_key_witness :
  paths_unique (items (upsertItems [sample_item "/d/b" "/d" 31 ""] three_rows))
  /\ paths_clean (items (upsertItems [sample_item "/d/b" "/d" 31 ""] three_rows))
  /\ (db_ three_rows = true ->
      forall r, In r (items (upsertItems [sample_item "/d/b" "/d" 31 ""] three_rows)) ->
                getItemByPath (r_path r)
                              (upsertItems [sample_item "/d/b" "/d" 31 ""] three_rows)
                = Some (row_to_item r)).
Proof.
  apply (upsert_keeps_primary_key [sample_item "/d/b" "/d" 31 ""] three_rows).
  - unfold paths_unique. cbn.
    repeat (constructor; [cbn; intuition discriminate|]). constructor.
  - unfold paths_clean. cbn. repeat constructor.
Defined.

(** ** What a batch does to the row of a path *)

(** X2.  The last write wins.  After a batch, the lookup of the path of
    an applied item that no later applied item of the batch writes again
    returns the columns of that item, each as [c_str()] and the width of its
    column leave it; [scannedUtc] is that of the item unless it is empty,
    and then the one the row had when the item was reached. *)
Theorem upsert_last_write_wins :
  forall pre n post db,
    db_ db = true ->
    valid_type (type n) = true ->
    Forall (fun m => ~ writes (path n) m) post ->
    exists it,
      getItemByPath (path n) (upsertItems (pre ++ n :: post) db) = Some it
      /\ path it = c_str (path n)
      /\ parent it = c_str (parent n)
      /\ type it = type n
      /\ sizeBytes it = sizeBytes n
      /\ fileCount it = wrap32 (fileCount n)
      /\ folderCount it = wrap32 (folderCount n)
      /\ lastWriteUtc it = c_str (lastWriteUtc n)
      /\ depth it = wrap32 (depth n)
      /\ runId it = c_str (runId n)
      /\ scannedUtc it
         = if is_empty (c_str (scannedUtc n))
           then match getItemByPath (path n) (upsertItems pre db) with
                | Some old => scannedUtc old
                | None => ""
                end
           else c_str (scannedUtc n).
Proof.
  intros pre n post db Hopen V Hpost.
  rewrite !getItemByPath_open by (rewrite upsertItems_open; exact Hopen).
  rewrite !items_upsertItems, Hopen.
  rewrite fold_left_app. cbn [fold_left].
  rewrite (find_fold_upsert_other post _ _ Hpost).
  rewrite (find_upsert_step_same _ n V).
  set (t := fold_left upsert_step pre (items db)).
  destruct (find (fun r => text_eqb (r_path r) (c_str (path n))) t) as [old|] eqn:E;
    cbn [option_map].
  - exists (row_to_item (on_conflict old (bind_item n))).
    split; [reflexivity|].
    cbn [row_to_item on_conflict bind_item path parent type sizeBytes fileCount
         folderCount lastWriteUtc depth runId scannedUtc
         r_path r_parent r_type r_sizeBytes r_fileCount r_folderCount
         r_lastWriteUtc r_scannedUtc r_depth r_runId].
    rewrite (find_some_path _ _ _ E), !c_str_idem.
    rewrite (c_str_valid_type _ V).
    repeat (split; [reflexivity|]).
    split.
    { destruct (parent n); cbn [is_empty]; [reflexivity | apply c_str_idem]. }
    repeat (split; [reflexivity|]).
    destruct (is_empty (c_str (scannedUtc n))); [reflexivity | apply c_str_idem].
  - exists (row_to_item (bind_item n)).
    split; [reflexivity|].
    cbn [row_to_item bind_item path parent type sizeBytes fileCount
         folderCount lastWriteUtc depth runId scannedUtc
         r_path r_parent r_type r_sizeBytes r_fileCount r_folderCount
         r_lastWriteUtc r_scannedUtc r_depth r_runId].
    rewrite !c_str_idem. rewrite (c_str_valid_type _ V).
    repeat (split; [reflexivity|]).
    split.
    { destruct (parent n); cbn [is_empty]; [reflexivity | apply c_str_idem]. }
    repeat (split; [reflexivity|]).
    destruct (c_str (scannedUtc n)); reflexivity.
Qed.

Lemma upsert_last_write_wins_witness :
  exists it,
    getItemByPath "/d/a"
      (upsertItems ([sample_item "/d/a" "/d" 11 ""]
                    ++ sample_item "/d/a" "/d" 12 "" :: [sample_item "/d/b" "/d" 31 ""])
                   three_rows) = Some it
    /\ sizeBytes it = 12
    /\ scannedUtc it = "2024-01-02T00:00:00.000Z".
Proof.
  destruct (upsert_last_write_wins [sample_item "/d/a" "/d" 11 ""]
              (sample_item "/d/a" "/d" 12 "") [sample_item "/d/b" "/d" 31 ""]
              three_rows)
    as [it [H [_ [_ [_ [Hsize [_ [_ [_ [_ [_ Hscanned]]]]]]]]]]].
  - reflexivity.
  - reflexivity.
  - constructor; [|constructor]. intros [_ E]. discriminate E.
  - exists it. split; [exact H|]. split; [exact Hsize | exact Hscanned].
Defined.

(** X3.  A batch leaves alone the paths it does not write: the lookup of a
    path that no applied item of the batch has returns what it returned
    before. *)
Theorem upsert_leaves_other_paths :
  forall batch db p,
    Forall (fun i => ~ writes p i) batch ->
    getItemByPath p (upsertItems batch db) = getItemByPath p db.
Proof.
  intros batch db p H. unfold getItemByPath.
  rewrite upsertItems_open, items_upsertItems.
  destruct (db_ db); cbn [negb]; [|reflexivity].
  rewrite (find_fold_upsert_other batch _ _ H). reflexivity.
Qed.

Lemma upsert_leaves_other_paths_witness :
  getItemByPath "/d/a" (upsertItems [sample_item "/d/b" "/d" 31 ""] three_rows)
  = getItemByPath "/d/a" three_rows.
Proof.
  apply (upsert_leaves_other_paths [sample_item "/d/b" "/d" 31 ""] three_rows "/d/a").
  constructor; [|constructor]. intros [_ E]. discriminate E.
Defined.

(** ** Growth *)

Lemma upsert_row_length :
  forall x t,
    (List.length t <= List.length (upsert_row x t) <= S (List.length t))%nat.
Proof.
  intros x t. induction t as [|r t IH]; cbn [upsert_row List.length]; [lia|].
  destruct (String.eqb (r_path r) (r_path x)); cbn [List.length]; lia.
Qed.

Lemma fold_upsert_length :
  forall batch t,
    (List.length t <= List.length (fold_left upsert_step batch t)
     <= List.length t + List.length (applied batch))%nat.
Proof.
  induction batch as [|i batch IH]; intros t; cbn [fold_left applied filter List.length];
    [lia|].
  specialize (IH (upsert_step t i)). fold (applied batch) in *.
  unfold upsert_step in *.
  destruct (valid_type (type i)); cbn [negb List.length] in *.
  - pose proof (upsert_row_length (bind_item i) t). lia.
  - lia.
Qed.

Lemma find_fold_upsert_some :
  forall batch t p r,
    find (fun x => text_eqb (r_path x) p) t = Some r ->
    exists r', find (fun x => text_eqb (r_path x) p) (fold_left upsert_step batch t)
               = Some r'.
Proof.
  induction batch as [|i batch IH]; intros t p r H; [exists r; exact H|].
  cbn [fold_left].
  assert (exists r1, find (fun x => text_eqb (r_path x) p) (upsert_step t i) = Some r1)
    as [r1 H1].
  { unfold upsert_step. destruct (negb _); [exists r; exact H|].
    destruct (String.eqb p (r_path (bind_item i))) eqn:E.
    - apply String.eqb_eq in E. subst p. rewrite find_upsert_row_same. eauto.
    - apply String.eqb_neq in E. rewrite (find_upsert_row_other _ _ _ E). eauto. }
  exact (IH _ _ _ H1).
Qed.

(** X4.  A batch deletes nothing.  The table has afterwards at least the
    rows it had and at most one more for each applied item, and a path
    that was found is still found, under the same path. *)
Theorem upsert_never_deletes :
  forall batch db,
    (List.length (items db) <= List.length (items (upsertItems batch db))
     <= List.length (items db) + List.length (applied batch))%nat
    /\ forall p it,
         getItemByPath p db = Some it ->
         exists it', getItemByPath p (upsertItems batch db) = Some it'
                     /\ path it' = path it.
Proof.
  intros batch db. split.
  - rewrite items_upsertItems. destruct (db_ db); [apply fold_upsert_length | lia].
  - intros p it H. unfold getItemByPath in *.
    rewrite upsertItems_open, items_upsertItems.
    destruct (db_ db); cbn [negb] in *; [|discriminate H].
    destruct (find _ (items db)) as [r|] eqn:E; [|discriminate H].
    injection H as <-.
    destruct (find_fold_upsert_some batch _ _ _ E) as [r' E'].
    rewrite E'. exists (row_to_item r'). split; [reflexivity|].
    cbn [row_to_item path].
    rewrite (find_some_path _ _ _ E), (find_some_path _ _ _ E'). reflexivity.
Qed.

(** X5.  Two batches one after the other do what the one batch that holds
    the items of both does, in its one transaction. *)
Theorem upsert_batches_compose :
  forall a b db, upsertItems (a ++ b) db = upsertItems b (upsertItems a db).
Proof.
  intros a b db.
  destruct db as [o t]. unfold upsertItems, commitTransaction, beginTransaction.
  cbn [db_ items]. destruct o; cbn [negb orb]; [|reflexivity].
  destruct a as [|x a]; cbn [app].
  - reflexivity.
  - cbn [db_ items negb orb]. destruct b as [|y b].
    + rewrite app_nil_r. reflexivity.
    + rewrite <- fold_left_app. reflexivity.
Qed.

(** ** [scannedUtc] *)

Lemma on_conflict_scanned_kept :
  forall old x,
    c_str (r_scannedUtc old) <> "" ->
    c_str (r_scannedUtc x) = r_scannedUtc x ->
    c_str (r_scannedUtc (on_conflict old x)) <> "".
Proof.
  intros old x Hold Hx. cbn [on_conflict r_scannedUtc].
  destruct (is_empty (r_scannedUtc x)) eqn:E; [exact Hold|].
  rewrite Hx. apply is_empty_false, E.
Qed.

Lemma find_upsert_step_scanned :
  forall t i p r,
    find (fun x => text_eqb (r_path x) p) t = Some r ->
    c_str (r_scannedUtc r) <> "" ->
    exists r', find (fun x => text_eqb (r_path x) p) (upsert_step t i) = Some r'
               /\ c_str (r_scannedUtc r') <> "".
Proof.
  intros t i p r H Hs. unfold upsert_step.
  destruct (negb _); [exists r; auto|].
  destruct (String.eqb p (r_path (bind_item i))) eqn:E.
  - apply String.eqb_eq in E. subst p. rewrite find_upsert_row_same, H.
    eexists. split; [reflexivity|].
    apply on_conflict_scanned_kept; [exact Hs | apply c_str_idem].
  - apply String.eqb_neq in E. rewrite (find_upsert_row_other _ _ _ E). eauto.
Qed.

(** X6.  A [scannedUtc] that is set is never erased: a row that holds one
    that is not empty holds one that is not empty after any batch. *)
Theorem scannedUtc_is_never_erased :
  forall batch db p it,
    getItemByPath p db = Some it ->
    scannedUtc it <> "" ->
    exists it', getItemByPath p (upsertItems batch db) = Some it'
                /\ scannedUtc it' <> "".
Proof.
  intros batch db p it H Hs. unfold getItemByPath in *.
  rewrite upsertItems_open, items_upsertItems.
  destruct (db_ db); cbn [negb] in *; [|discriminate H].
  destruct (find _ (items db)) as [r|] eqn:E; [|discriminate H].
  injection H as <-. cbn [row_to_item scannedUtc] in Hs.
  revert r E Hs. generalize (items db).
  induction batch as [|i batch IH]; intros t r E Hs; cbn [fold_left].
  - rewrite E. eexists. split; [reflexivity | exact Hs].
  - destruct (find_upsert_step_scanned t i _ r E Hs) as [r' [E' Hs']].
    exact (IH _ _ E' Hs').
Qed.

Lemma scannedUtc_is_never_erased_witness :
  exists it',
    getItemByPath "/d/a"
      (upsertItems [sample_item "/d/a" "/d" 11 ""; sample_item "/d/a" "/d" 12 ""]
                   three_rows) = Some it'
    /\ scannedUtc it' <> "".
Proof.
  apply (scannedUtc_is_never_erased
           [sample_item "/d/a" "/d" 11 ""; sample_item "/d/a" "/d" 12 ""]
           three_rows "/d/a"
           (mkItem "/d/a" "/d" "File" 10 1 0 "2024-01-01T00:00:00.000Z"
                   "2024-01-02T00:00:00.000Z" 1 "run-1")).
  - reflexivity.
  - discriminate.
Defined.

(** ** A batch twice *)

Lemma find_upsert_step_written :
  forall t i p,
    find (fun r => text_eqb (r_path r) p) (upsert_step t i)
    = write_row p (find (fun r => text_eqb (r_path r) p) t) i.
Proof.
  intros t i p. unfold upsert_step, write_row.
  destruct (valid_type (type i)); cbn [negb andb]; [|reflexivity].
  destruct (String.eqb (c_str (path i)) p) eqn:E.
  - apply String.eqb_eq in E. subst p.
    apply (find_upsert_row_same (bind_item i) t).
  - apply String.eqb_neq in E. apply find_upsert_row_other.
    cbn [bind_item r_path]. congruence.
Qed.

Lemma find_fold_upsert_written :
  forall batch t p,
    find (fun r => text_eqb (r_path r) p) (fold_left upsert_step batch t)
    = written batch p (find (fun r => text_eqb (r_path r) p) t).
Proof.
  unfold written. induction batch as [|i batch IH]; intros t p; [reflexivity|].
  cbn [fold_left]. rewrite IH, find_upsert_step_written. reflexivity.
Qed.

Lemma written_some :
  forall batch p b,
    exists c, written batch p (Some b) = Some c /\ r_path c = r_path b.
Proof.
  unfold written. induction batch as [|i batch IH]; intros p b; [exists b; auto|].
  cbn [fold_left]. unfold write_row at 2.
  destruct (valid_type (type i) && String.eqb (c_str (path i)) p); [|apply IH].
  destruct (IH p (on_conflict b (bind_item i))) as [c [Hc Hp]].
  exists c. split; [exact Hc | exact Hp].
Qed.

Lemma written_scanned :
  forall batch p o,
    match written batch p o with Some r => r_scannedUtc r | None => "" end
    = scanned_after batch p (match o with Some r => r_scannedUtc r | None => "" end).
Proof.
  unfold written, scanned_after.
  induction batch as [|i batch IH]; intros p o; [reflexivity|].
  cbn [fold_left]. rewrite IH. f_equal. unfold write_row.
  destruct (valid_type (type i) && String.eqb (c_str (path i)) p); [|reflexivity].
  destruct o as [old|]; cbn [on_conflict bind_item r_scannedUtc].
  - reflexivity.
  - destruct (c_str (scannedUtc i)); reflexivity.
Qed.

Lemma scanned_after_twice :
  forall batch p s,
    scanned_after batch p (scanned_after batch p s) = scanned_after batch p s.
Proof.
  unfold scanned_after.
  induction batch as [|i batch IH] using rev_ind; intros p s; [reflexivity|].
  rewrite !fold_left_app. cbn [fold_left].
  destruct (valid_type (type i) && String.eqb (c_str (path i)) p); [|apply IH].
  destruct (is_empty (c_str (scannedUtc i))); [apply IH | reflexivity].
Qed.

Lemma write_row_writes :
  forall p o i,
    valid_type (type i) && String.eqb (c_str (path i)) p = true ->
    write_row p o i = Some (match o with
                            | Some old => on_conflict old (bind_item i)
                            | None => bind_item i
                            end).
Proof. intros p o i H. unfold write_row. rewrite H. reflexivity. Qed.

Lemma write_row_skips :
  forall p o i,
    valid_type (type i) && String.eqb (c_str (path i)) p = false ->
    write_row p o i = o.
Proof. intros p o i H. unfold write_row. rewrite H. reflexivity. Qed.

Lemma written_last :
  forall batch i p o,
    written (batch ++ [i]) p o = write_row p (written batch p o) i.
Proof. intros batch i p o. unfold written. rewrite fold_left_app. reflexivity. Qed.

(** What a batch makes of a row it has already made is that row. *)
Lemma written_twice :
  forall batch p o, written batch p (written batch p o) = written batch p o.
Proof.
  induction batch as [|i batch IH] using rev_ind; intros p o; [reflexivity|].
  rewrite !written_last.
  destruct (valid_type (type i) && String.eqb (c_str (path i)) p) eqn:E.
  2:{ rewrite !(write_row_skips _ _ _ E). apply IH. }
  rewrite !(write_row_writes _ _ _ E).
  set (x := bind_item i). clearbody x.
  set (b := match written batch p o with
            | Some old => on_conflict old x
            | None => x
            end).
  destruct (written_some batch p b) as [c [Hc Hp]]. rewrite Hc. f_equal.
  pose proof (written_scanned batch p (Some b)) as Hs. rewrite Hc in Hs.
  pose proof (written_scanned batch p o) as Hs0.
  unfold b in *. clear b.
  destruct (written batch p o) as [a|] eqn:Ea.
  - cbn [on_conflict r_path r_scannedUtc] in Hp, Hs.
    unfold on_conflict. rewrite Hp. f_equal.
    destruct (is_empty (r_scannedUtc x)); [|reflexivity].
    rewrite Hs, Hs0. apply scanned_after_twice.
  - destruct x as [xp xparent xtype xsize xfiles xfolders xlast xscanned xdepth xrun].
    unfold on_conflict.
    cbn [r_path r_parent r_type r_sizeBytes r_fileCount r_folderCount r_lastWriteUtc
         r_scannedUtc r_depth r_runId] in *.
    rewrite Hp. f_equal.
    destruct (is_empty xscanned) eqn:Ex; [|reflexivity].
    apply is_empty_true in Ex. subst xscanned.
    rewrite Hs.
    pose proof (scanned_after_twice batch p
                  (match o with Some r => r_scannedUtc r | None => "" end)) as Ht.
    rewrite <- Hs0 in Ht. exact Ht.
Qed.

Lemma fold_upsert_same_paths :
  forall batch t,
    (forall i, In i batch -> valid_type (type i) = true ->
               In (c_str (path i)) (map r_path t)) ->
    map r_path (fold_left upsert_step batch t) = map r_path t.
Proof.
  induction batch as [|i batch IH]; intros t H; [reflexivity|].
  cbn [fold_left].
  assert (Hstep : map r_path (upsert_step t i) = map r_path t).
  { unfold upsert_step. destruct (valid_type (type i)) eqn:V; cbn [negb]; [|reflexivity].
    rewrite upsert_row_paths.
    destruct (existsb _ t) eqn:E; [reflexivity|].
    exfalso. apply not_true_iff_false in E. apply E.
    apply existsb_path_In. cbn [bind_item r_path].
    apply (H i (or_introl eq_refl) V). }
  rewrite IH; [exact Hstep|].
  intros j Hj Vj. rewrite Hstep. apply H; [right; exact Hj | exact Vj].
Qed.

Lemma find_nowhere :
  forall (f : Row -> bool) l, (forall r, In r l -> f r = false) -> find f l = None.
Proof.
  intros f l. induction l as [|x l IH]; intros H; [reflexivity|].
  cbn [find]. rewrite (H x (or_introl eq_refl)). apply IH.
  intros r Hr. apply H. right. exact Hr.
Qed.

Lemma table_by_paths :
  forall a b : Table,
    map r_path a = map r_path b ->
    paths_unique a ->
    (forall p, find (fun r => text_eqb (r_path r) p) a
               = find (fun r => text_eqb (r_path r) p) b) ->
    a = b.
Proof.
  unfold paths_unique, text_eqb.
  induction a as [|x a IH]; intros b Hmap Hnd Hfind.
  - destruct b; [reflexivity | discriminate Hmap].
  - destruct b as [|y b]; [discriminate Hmap|].
    cbn [map] in Hmap, Hnd. injection Hmap as Hp Hmap.
    inversion Hnd as [|? ? Hnot Hnd']; subst.
    assert (x = y).
    { specialize (Hfind (r_path x)). cbn [find] in Hfind.
      rewrite String.eqb_refl in Hfind. rewrite <- Hp, String.eqb_refl in Hfind.
      congruence. }
    subst y. f_equal. apply IH; [exact Hmap | exact Hnd'|].
    intros p. specialize (Hfind p). cbn [find] in Hfind.
    destruct (String.eqb (r_path x) p) eqn:E; [|exact Hfind].
    apply String.eqb_eq in E. subst p.
    assert (Ha : find (fun r => String.eqb (r_path r) (r_path x)) a = None).
    { apply find_nowhere. intros r Hr. apply String.eqb_neq. intros Er.
      apply Hnot. rewrite <- Er. apply in_map, Hr. }
    assert (Hb : find (fun r => String.eqb (r_path r) (r_path x)) b = None).
    { apply find_nowhere. intros r Hr. apply String.eqb_neq. intros Er.
      apply Hnot. rewrite Hmap, <- Er. apply in_map, Hr. }
    rewrite Ha, Hb. reflexivity.
Qed.

(** X7.  A batch upserted twice leaves the store as the batch upserted
    once leaves it, whatever the batch holds, items of the same path among
    them, when no two rows of the table share a path. *)
Theorem upsert_batch_twice :
  forall batch db,
    paths_unique (items db) ->
    upsertItems batch (upsertItems batch db) = upsertItems batch db.
Proof.
  intros batch db Hu. destruct db as [o t]. cbn [items] in Hu.
  assert (Hopen : forall t', upsertItems batch (mkDb true t')
                             = mkDb true (fold_left upsert_step batch t')).
  { intros t'. unfold upsertItems, commitTransaction, beginTransaction.
    cbn [db_ items negb orb]. destruct batch; reflexivity. }
  destruct o; [|unfold upsertItems; reflexivity].
  rewrite !Hopen. f_equal.
  apply table_by_paths.
  - apply fold_upsert_same_paths. intros i Hi Vi.
    destruct (fold_upsert_applies batch t i Hi Vi) as [r [Hr Hp]].
    rewrite <- Hp. apply in_map, Hr.
  - apply fold_upsert_unique, fold_upsert_unique, Hu.
  - intros p. rewrite !find_fold_upsert_written. apply written_twice.
Qed.

Lemma upsert_batch_twice_witness :
  upsertItems [sample_item "/d/a" "/d" 11 ""; sample_item "/n" "" 5 "x";
               sample_item "/d/a" "/d" 12 ""]
    (upsertItems [sample_item "/d/a" "/d" 11 ""; sample_item "/n" "" 5 "x";
                  sample_item "/d/a" "/d" 12 ""] three_rows)
  = upsertItems [sample_item "/d/a" "/d" 11 ""; sample_item "/n" "" 5 "x";
                 sample_item "/d/a" "/d" 12 ""] three_rows.
Proof.
  apply (upsert_batch_twice
           [sample_item "/d/a" "/d" 11 ""; sample_item "/n" "" 5 "x";
            sample_item "/d/a" "/d" 12 ""] three_rows).
  unfold paths_unique. cbn.
  repeat (constructor; [cbn; intuition discriminate|]). constructor.
Defined.

(** ** Paging *)

Lemma firstn_more :
  forall (A : Type) (k m : nat) (l : list A),
    firstn (k + m) l = firstn k l ++ firstn m (skipn k l).
Proof.
  intros A k m. induction k as [|k IH]; intros l; [reflexivity|].
  destruct l as [|x l]; cbn [Nat.add firstn skipn app].
  - rewrite firstn_nil. reflexivity.
  - rewrite IH. reflexivity.
Qed.

Lemma skipn_more :
  forall (A : Type) (o k : nat) (l : list A),
    skipn (o + k) l = skipn k (skipn o l).
Proof.
  intros A o k. induction o as [|o IH]; intros l; [reflexivity|].
  destruct l as [|x l]; cbn [Nat.add skipn]; [rewrite skipn_nil; reflexivity | apply IH].
Qed.

Lemma sql_pages :
  forall limit more offset l,
    0 <= limit -> 0 <= more -> 0 <= offset ->
    sql_limit limit (sql_offset offset l)
    ++ sql_limit more (sql_offset (offset + limit) l)
    = sql_limit (limit + more) (sql_offset offset l).
Proof.
  intros limit more offset l Hl Hm Ho. unfold sql_limit, sql_offset.
  destruct (limit <? 0) eqn:E1; [apply Z.ltb_lt in E1; lia|].
  destruct (more <? 0) eqn:E2; [apply Z.ltb_lt in E2; lia|].
  destruct (limit + more <? 0) eqn:E3; [apply Z.ltb_lt in E3; lia|].
  rewrite !Z2Nat.inj_add by assumption.
  rewrite skipn_more, firstn_more. reflexivity.
Qed.

(** X8.  Pages follow one another: a page of [limit] rows at [offset]
    and the page of [more] rows after it are together the page of
    [limit + more] rows at [offset]. *)
Theorem getChildren_pages_concatenate :
  forall parent sort includeFiles db limit more offset,
    0 <= limit -> 0 <= more -> 0 <= offset ->
    getChildren parent limit offset sort includeFiles db
    ++ getChildren parent more (offset + limit) sort includeFiles db
    = getChildren parent (limit + more) offset sort includeFiles db.
Proof.
  intros parent sort includeFiles db limit more offset Hl Hm Ho.
  unfold getChildren. destruct (db_ db); cbn [negb]; [|reflexivity].
  rewrite <- map_app, (sql_pages limit more offset _ Hl Hm Ho). reflexivity.
Qed.

Lemma getChildren_pages_concatenate_witness :
  getChildren (Some "/d") 1 0 "size_desc" true three_rows
  ++ getChildren (Some "/d") 5 (0 + 1) "size_desc" true three_rows
  = getChildren (Some "/d") (1 + 5) 0 "size_desc" true three_rows.
Proof.
  apply (getChildren_pages_concatenate (Some "/d") "size_desc" true three_rows 1 5 0);
    lia.
Defined.

(** ** Order *)

Lemma sql_offset_In : forall offset l y, In y (sql_offset offset l) -> In y l.
Proof.
  intros offset l y H. unfold sql_offset in H.
  rewrite <- (firstn_skipn (Z.to_nat offset) l). apply in_or_app. right. exact H.
Qed.

Lemma parent_matches_eq :
  forall parent r,
    parent_matches parent r = true <-> r_parent r = option_map c_str parent.
Proof.
  intros parent r. unfold parent_matches, text_eqb.
  destruct parent as [p|], (r_parent r) as [q|]; cbn [option_map];
    try (split; congruence).
  rewrite String.eqb_eq. split; congruence.
Qed.

(** X9.  [getChildren] lists children, in order.  The rows it returns are
    rows of the table whose parent is the one asked for (NULL for none),
    folders only when files are not wanted, by ascending path for
    ["name_asc"] and by descending size for any other [sort], and no more
    than a limit that is not negative; with no limit and no offset they are
    all such rows, each as often as the table holds it. *)
Theorem getChildren_lists_children_in_order :
  forall parent limit offset sort includeFiles db,
    exists rows,
      getChildren parent limit offset sort includeFiles db = map row_to_item rows
      /\ (forall r, In r rows ->
            In r (items db)
            /\ r_parent r = option_map c_str parent
            /\ (includeFiles = false -> r_type r = "Folder"))
      /\ (if String.eqb sort "name_asc"
          then StronglySorted path_asc rows else StronglySorted size_desc rows)
      /\ (0 <= limit -> Z.of_nat (List.length rows) <= limit)
      /\ (db_ db = true -> limit < 0 -> offset <= 0 ->
          Permutation rows
            (filter (fun r => parent_matches parent r
                              && (includeFiles || text_eqb (r_type r) "Folder"))
                    (items db))).
Proof.
  intros parent limit offset sort includeFiles db. unfold getChildren.
  destruct (db_ db); cbn [negb].
  - set (selected := filter _ (items db)).
    exists (sql_limit limit (sql_offset offset (sort_by (order_by sort) selected))).
    split; [reflexivity|]. split; [|split; [|split]].
    + intros r Hr. apply sql_limit_In, sql_offset_In, sort_by_In in Hr.
      apply filter_In in Hr. destruct Hr as [Hin Hsel].
      apply andb_true_iff in Hsel. destruct Hsel as [Hp Hk].
      split; [exact Hin|]. split; [apply parent_matches_eq, Hp|].
      intros ->. cbn [orb] in Hk. apply String.eqb_eq, Hk.
    + pose proof (order_by_sorted sort selected) as H.
      destruct (String.eqb sort "name_asc");
        apply sql_limit_sorted; unfold sql_offset; apply StronglySorted_skipn, H.
    + apply sql_limit_length.
    + intros _ Hl Ho. rewrite sql_limit_all by (left; exact Hl).
      unfold sql_offset. replace (Z.to_nat offset) with 0%nat by lia.
      cbn [skipn]. symmetry. apply sort_by_perm.
  - exists []. split; [reflexivity|]. split; [intros r []|].
    split; [destruct (String.eqb sort "name_asc"); constructor|].
    split; [cbn; lia|]. intros H. discriminate H.
Qed.

(** X10.  [getTop] returns the largest.  The rows of the type asked for
    are returned by descending size; those left out by the limit are none
    of them larger than any row returned, and rows are left out only when
    the limit is reached. *)
Theorem getTop_returns_the_largest :
  forall ty limit db,
    db_ db = true ->
    exists top rest,
      getTop ty limit db = map row_to_item top
      /\ Permutation (top ++ rest)
           (filter (fun r => text_eqb (r_type r) (c_str ty)) (items db))
      /\ StronglySorted size_desc top
      /\ (forall a b, In a top -> In b rest -> r_sizeBytes b <= r_sizeBytes a)
      /\ (rest <> [] -> Z.of_nat (List.length top) = limit).
Proof.
  intros ty limit db Hopen. unfold getTop. rewrite Hopen. cbn [negb].
  set (matching := filter _ (items db)).
  assert (Hs : StronglySorted size_desc (sort_by by_size_desc matching)).
  { pose proof (order_by_sorted "size_desc" matching) as H. exact H. }
  unfold sql_limit. destruct (limit <? 0) eqn:E.
  - exists (sort_by by_size_desc matching), [].
    split; [reflexivity|]. rewrite app_nil_r.
    split; [symmetry; apply sort_by_perm|]. split; [exact Hs|].
    split; [intros a b _ []|]. intros H. congruence.
  - apply Z.ltb_ge in E.
    exists (firstn (Z.to_nat limit) (sort_by by_size_desc matching)),
           (skipn (Z.to_nat limit) (sort_by by_size_desc matching)).
    split; [reflexivity|]. rewrite firstn_skipn.
    split; [symmetry; apply sort_by_perm|].
    split; [apply StronglySorted_firstn, Hs|].
    split; [intros a b Ha Hb; exact (StronglySorted_split _ _ _ Hs a b Ha Hb)|].
    intros Hrest. rewrite firstn_length_le; [lia|].
    destruct (Nat.le_gt_cases (Z.to_nat limit)
                (List.length (sort_by by_size_desc matching))) as [H|H]; [exact H|].
    exfalso. apply Hrest. apply skipn_all2. lia.
Qed.

Lemma getTop_returns_the_largest_witness :
  exists top rest,
    getTop "File" 1 three_rows = map row_to_item top
    /\ Permutation (top ++ rest)
         (filter (fun r => text_eqb (r_type r) (c_str "File")) (items three_rows))
    /\ StronglySorted size_desc top
    /\ (forall a b, In a top -> In b rest -> r_sizeBytes b <= r_sizeBytes a)
    /\ (rest <> [] -> Z.of_nat (List.length top) = 1).
Proof. apply (getTop_returns_the_largest "File" 1 three_rows). reflexivity. Defined.

(** ** The empty parent *)

Lemma upsert_row_no_empty_parent :
  forall x t,
    r_parent x <> Some "" -> no_empty_parent t -> no_empty_parent (upsert_row x t).
Proof.
  intros x t Hx H. induction H as [|r t Hr Ht IH]; cbn [upsert_row].
  - constructor; [exact Hx | constructor].
  - destruct (String.eqb (r_path r) (r_path x)).
    + constructor; [exact Hx | exact Ht].
    + constructor; [exact Hr | exact IH].
Qed.

Lemma bind_item_parent :
  forall i, (c_str (parent i) = "" -> parent i = "") -> r_parent (bind_item i) <> Some "".
Proof.
  intros i H. cbn [bind_item r_parent].
  destruct (is_empty (parent i)) eqn:E; [discriminate|].
  intros [= E']. apply is_empty_false in E. exact (E (H E')).
Qed.

Lemma fold_upsert_no_empty_parent :
  forall batch t,
    Forall (fun i => c_str (parent i) = "" -> parent i = "") batch ->
    no_empty_parent t -> no_empty_parent (fold_left upsert_step batch t).
Proof.
  induction batch as [|i batch IH]; intros t Hb Ht; [exact Ht|].
  inversion Hb as [|? ? Hi Hrest]; subst. cbn [fold_left]. apply (IH _ Hrest).
  unfold upsert_step. destruct (negb _); [exact Ht|].
  apply upsert_row_no_empty_parent; [apply bind_item_parent, Hi | exact Ht].
Qed.

Lemma filter_none :
  forall (A : Type) (f : A -> bool) (l : list A),
    (forall x, In x l -> f x = false) -> filter f l = [].
Proof.
  intros A f l. induction l as [|x l IH]; intros H; [reflexivity|].
  cbn [filter]. rewrite (H x (or_introl eq_refl)). apply IH.
  intros y Hy. apply H. right. exact Hy.
Qed.

Lemma sql_limit_nil : forall limit, sql_limit limit [] = [].
Proof. intros limit. unfold sql_limit. destruct (limit <? 0); [|rewrite firstn_nil]; reflexivity. Qed.

Lemma sql_offset_nil : forall offset, sql_offset offset [] = [].
Proof. intros offset. unfold sql_offset. apply skipn_nil. Qed.

(** X11.  The empty text is no parent.  When no item of the batches has
    a parent that begins with a NUL byte, no row is stored with the empty
    text as its parent (an empty parent is bound as NULL), so that the
    children of the empty path are none, whatever the store holds. *)
Theorem empty_path_has_no_children :
  forall batch db,
    no_empty_parent (items db) ->
    Forall (fun i => c_str (parent i) = "" -> parent i = "") batch ->
    no_empty_parent (items (upsertItems batch db))
    /\ forall limit offset sort includeFiles,
         getChildren (Some "") limit offset sort includeFiles (upsertItems batch db) = [].
Proof.
  intros batch db Ht Hb.
  assert (H : no_empty_parent (items (upsertItems batch db))).
  { rewrite items_upsertItems. destruct (db_ db); [|exact Ht].
    apply fold_upsert_no_empty_parent; assumption. }
  split; [exact H|].
  intros limit offset sort includeFiles. unfold getChildren.
  destruct (negb _); [reflexivity|].
  rewrite filter_none; [cbn [sort_by fold_right]; rewrite sql_offset_nil, sql_limit_nil;
                        reflexivity|].
  intros r Hr. unfold no_empty_parent in H. rewrite Forall_forall in H.
  specialize (H r Hr). unfold parent_matches, text_eqb.
  destruct (r_parent r) as [q|]; [|reflexivity].
  cbn [c_str]. destruct (String.eqb q "") eqn:E; [|reflexivity].
  apply String.eqb_eq in E. subst q. congruence.
Qed.

Lemma empty_path_has_no_children_witness :
  no_empty_parent (items (upsertItems [sample_item "/x" "" 5 ""] three_rows))
  /\ forall limit offset sort includeFiles,
       getChildren (Some "") limit offset sort includeFiles
                   (upsertItems [sample_item "/x" "" 5 ""] three_rows) = [].
Proof.
  apply (empty_path_has_no_children [sample_item "/x" "" 5 ""] three_rows).
  - unfold no_empty_parent. cbn. repeat (constructor; [discriminate|]). constructor.
  - constructor; [reflexivity | constructor].
Defined.

(** ** Roots of a store in which every parent is stored *)

(** X12.  When every parent that is not NULL is the path of a stored row,
    the roots are the rows without a parent: [getRoots] returns what
    [getChildren] returns for the absent parent, files included, from the
    first row. *)
Theorem roots_of_a_closed_store :
  forall limit sort db,
    parents_indexed (items db) ->
    getRoots limit sort db = getChildren None limit 0 sort true db.
Proof.
  intros limit sort db H. unfold getRoots, getChildren.
  destruct (negb _); [reflexivity|].
  rewrite sql_offset_none. do 3 f_equal.
  apply filter_ext_in. intros r Hr.
  unfold parents_indexed in H. rewrite Forall_forall in H. specialize (H r Hr).
  unfold is_root, parent_matches. destruct (r_parent r) as [p|].
  - rewrite H. reflexivity.
  - reflexivity.
Qed.

Lemma roots_of_a_closed_store_witness :
  getRoots 200 "size_desc" three_rows
  = getChildren None 200 0 "size_desc" true three_rows.
Proof.
  apply (roots_of_a_closed_store 200 "size_desc" three_rows).
  unfold parents_indexed. cbn. repeat constructor.
Defined.

(** ** Deep scan: what cannot be read *)

Lemma files_under_readable_part :
  forall n, files_under (readable_part n) = files_under n.
Proof.
  induction n as [size mtime|entries complete IH| | |] using FsNode_ind; try reflexivity.
  cbn [readable_part files_under].
  induction IH as [|[name child] rest Hchild Hrest IHrest]; [reflexivity|].
  cbn [flat_map snd fst] in *.
  destruct child as [[size|] [lwt|]|sub c| | |]; cbn [can_be_read app flat_map snd] in *;
    try (rewrite IHrest; reflexivity);
    try (rewrite Hchild, IHrest; reflexivity).
Qed.

Lemma is_directory_readable_part :
  forall n, is_directory (readable_part n) = is_directory n.
Proof. destruct n as [[?|] [?|]| | | |]; reflexivity. Qed.

Lemma folders_under_readable_part :
  forall n, folders_under (readable_part n) = folders_under n.
Proof.
  induction n as [size mtime|entries complete IH| | |] using FsNode_ind; try reflexivity.
  cbn [readable_part folders_under].
  induction IH as [|[name child] rest Hchild Hrest IHrest]; [reflexivity|].
  cbn [flat_map snd fst map fold_right] in *.
  destruct (can_be_read child) eqn:E.
  - cbn [app map fold_right snd]. rewrite is_directory_readable_part, Hchild, IHrest.
    reflexivity.
  - cbn [app]. rewrite IHrest.
    destruct child as [[?|] [?|]| | | |]; try discriminate E; reflexivity.
Qed.

Lemma readable_readable_part :
  forall n, can_be_read n = true -> readable (readable_part n) = true.
Proof.
  induction n as [size mtime|entries complete IH| | |] using FsNode_ind;
    intros Hn; try reflexivity; try discriminate Hn.
  - destruct size, mtime; try discriminate Hn; reflexivity.
  - clear Hn. cbn [readable_part readable andb].
    induction IH as [|[name child] rest Hchild Hrest IHrest]; [reflexivity|].
    cbn [flat_map snd fst] in *.
    destruct (can_be_read child) eqn:E; cbn [app forallb snd].
    + rewrite (Hchild eq_refl). exact IHrest.
    + exact IHrest.
Qed.

(** X13.  A deep scan leaves out what it cannot read, and nothing else:
    whatever throws below the start (the size or the time of a file, the
    status of an entry, the opening of a directory, a listing midway), a
    scan that is not cancelled returns the aggregate it returns for the
    tree without those entries, in which everything can be read. *)
Theorem deep_scan_skips_what_it_cannot_read :
  forall now runId hasCb start startPath depth st,
    is_directory start = true ->
    readable (readable_part start) = true
    /\ fst (scanFullAsync now runId None hasCb start startPath depth st)
       = fst (scanFullAsync now runId None hasCb (readable_part start)
                            startPath depth st)
    /\ fst (scanFullAsync now runId None hasCb start startPath depth st)
       = aggregate_of (readable_part start).
Proof.
  intros now runId hasCb start startPath depth st Hdir.
  assert (Hagg : aggregate_of (readable_part start) = aggregate_of start).
  { unfold aggregate_of.
    rewrite files_under_readable_part, folders_under_readable_part. reflexivity. }
  split.
  - apply readable_readable_part. destruct start as [[?|] [?|]| | | |];
      try discriminate Hdir; reflexivity.
  - rewrite (scanFullAsync_aggregate now runId hasCb start Hdir).
    rewrite (scanFullAsync_aggregate now runId hasCb (readable_part start))
      by (rewrite is_directory_readable_part; exact Hdir).
    split; symmetry; exact Hagg.
Qed.

Lemma deep_scan_skips_what_it_cannot_read_witness :
  readable (readable_part damaged_tree) = true
  /\ fst (scanFullAsync (fun _ => 0) "run-1" None true damaged_tree "/data" 0 new_scanner)
     = fst (scanFullAsync (fun _ => 0) "run-1" None true (readable_part damaged_tree)
                          "/data" 0 new_scanner)
  /\ fst (scanFullAsync (fun _ => 0) "run-1" None true damaged_tree "/data" 0 new_scanner)
     = aggregate_of (readable_part damaged_tree).
Proof.
  apply (deep_scan_skips_what_it_cannot_read (fun _ => 0) "run-1" true damaged_tree "/data" 0
           new_scanner).
  reflexivity.
Defined.

(** ** Deep scan: the counter and the count of files *)

Lemma wrap32_divide : forall z, (2 ^ 32 | wrap32 z - z).
Proof.
  intros z. unfold wrap32, wrap.
  exists (- ((z + 2 ^ (32 - 1)) / 2 ^ 32)).
  pose proof (Z.div_mod (z + 2 ^ (32 - 1)) (2 ^ 32) ltac:(lia)). lia.
Qed.

Lemma wrap32_of_divide : forall a b, (2 ^ 32 | a - b) -> wrap32 a = wrap32 b.
Proof.
  intros a b [k Hk]. unfold wrap32, wrap. f_equal.
  replace (a + 2 ^ (32 - 1)) with (b + 2 ^ (32 - 1) + k * 2 ^ 32) by lia.
  apply Z.mod_add. lia.
Qed.

Lemma counted_refl : forall result st, counted result result st st.
Proof.
  intros result st. split; [|split; auto].
  replace (_ - _ - _) with 0 by lia. apply Z.divide_0_r.
Qed.

Lemma counted_trans :
  forall r1 r2 r3 s1 s2 s3,
    counted r1 r2 s1 s2 -> counted r2 r3 s2 s3 -> counted r1 r3 s1 s3.
Proof.
  intros r1 r2 r3 s1 s2 s3 [D1 [R1 I1]] [D2 [R2 I2]]. split; [|split; auto].
  replace (res_fileCount r3 - res_fileCount r1 - (itemsScanned_ s3 - itemsScanned_ s1))
    with ((res_fileCount r2 - res_fileCount r1 - (itemsScanned_ s2 - itemsScanned_ s1))
          + (res_fileCount r3 - res_fileCount r2 - (itemsScanned_ s3 - itemsScanned_ s2)))
    by lia.
  apply Z.divide_add_r; assumption.
Qed.

Lemma counted_same :
  forall result result' st st',
    res_fileCount result' = res_fileCount result ->
    itemsScanned_ st' = itemsScanned_ st ->
    counted result result' st st'.
Proof.
  intros result result' st st' Hr Hs. unfold counted. rewrite Hr, Hs.
  split; [|split; auto]. replace (_ - _ - _) with 0 by lia. apply Z.divide_0_r.
Qed.

Lemma report_progress_items :
  forall runId hasCb p st,
    itemsScanned_ (report_progress runId hasCb p st) = itemsScanned_ st.
Proof.
  intros runId hasCb p st. unfold report_progress.
  destruct (PROGRESS_INTERVAL <=? _); reflexivity.
Qed.

Lemma counted_file :
  forall runId hasCb p result size lwt st,
    counted result (count_file result size lwt) st
            (report_progress runId hasCb p (increment_itemsScanned st)).
Proof.
  intros runId hasCb p result size lwt st. unfold counted.
  rewrite report_progress_items.
  cbn [count_file increment_itemsScanned res_fileCount itemsScanned_].
  split; [|split; intros _; apply wrap32_range].
  replace (_ - _ - _)
    with ((wrap32 (res_fileCount result + 1) - (res_fileCount result + 1))
          - (wrap32 (itemsScanned_ st + 1) - (itemsScanned_ st + 1))) by lia.
  apply Z.divide_sub_r; apply wrap32_divide.
Qed.

Lemma counted_subdir :
  forall runId hasCb p result subResult st st3,
    counted zero_result subResult st st3 ->
    counted result (fold_subdir result subResult) st
            (report_progress runId hasCb p st3).
Proof.
  intros runId hasCb p result subResult st st3 [D [_ I]]. unfold counted.
  rewrite report_progress_items.
  cbn [fold_subdir res_fileCount zero_result] in *.
  split; [|split; [intros _; apply wrap32_range | exact I]].
  replace (_ - _ - _)
    with ((wrap32 (res_fileCount result + res_fileCount subResult)
           - (res_fileCount result + res_fileCount subResult))
          + (res_fileCount subResult - 0 - (itemsScanned_ st3 - itemsScanned_ st)))
    by lia.
  apply Z.divide_add_r; [apply wrap32_divide | exact D].
Qed.

Lemma scan_entries_counted :
  forall now runId signal hasCb startPath depth entries,
    Forall (fun e =>
              forall p d st,
                counted zero_result
                        (fst (scanFullAsync now runId signal hasCb (snd e) p d st))
                        st
                        (snd (scanFullAsync now runId signal hasCb (snd e) p d st)))
           entries ->
    forall result batchItems st,
      counted result
              (fst (fst (scan_entries now runId signal hasCb
                                      (scanFullAsync now runId signal hasCb)
                                      startPath depth entries result batchItems st)))
              st
              (snd (scan_entries now runId signal hasCb
                                 (scanFullAsync now runId signal hasCb)
                                 startPath depth entries result batchItems st)).
Proof.
  intros now runId signal hasCb startPath depth entries Hsub.
  induction Hsub as [|[name child] rest Hchild Hrest IH]; intros result batchItems st.
  - rewrite scan_entries_nil. apply counted_refl.
  - rewrite scan_entries_cons. unfold load_cancelled.
    destruct (flag_at signal (loads st)); [apply counted_same; reflexivity|].
    cbv zeta. cbn [snd] in Hchild.
    set (st2 := record _ _).
    assert (H2 : forall r, counted r r st st2) by (intros r; apply counted_same; reflexivity).
    destruct child as [[size|] [lwt|]|sub complete| | |].
    + eapply counted_trans; [|apply IH].
      eapply counted_trans; [apply H2 | apply counted_file].
    + eapply counted_trans; [apply H2 | apply IH].
    + eapply counted_trans; [apply H2 | apply IH].
    + eapply counted_trans; [apply H2 | apply IH].
    + specialize (Hchild (child_path startPath name) (wrap32 (depth + 1)) st2).
      destruct (scanFullAsync _ _ _ _ _ _ _ _) as [subResult st3].
      cbn [fst snd] in Hchild.
      eapply counted_trans; [|apply IH].
      eapply counted_trans; [apply H2 | apply counted_subdir, Hchild].
    + specialize (Hchild (child_path startPath name) (wrap32 (depth + 1)) st2).
      destruct (scanFullAsync _ _ _ _ _ _ _ _) as [subResult st3].
      cbn [fst snd] in Hchild.
      eapply counted_trans; [|apply IH].
      eapply counted_trans; [apply H2 | apply counted_subdir, Hchild].
    + eapply counted_trans; [|apply IH].
      eapply counted_trans; [apply H2|].
      apply counted_same; [reflexivity | apply report_progress_items].
    + eapply counted_trans; [apply H2 | apply IH].
Qed.

Lemma scanFullAsync_counted :
  forall now runId signal hasCb start startPath depth st,
    counted zero_result
            (fst (scanFullAsync now runId signal hasCb start startPath depth st))
            st
            (snd (scanFullAsync now runId signal hasCb start startPath depth st)).
Proof.
  intros now runId signal hasCb start.
  induction start as [size mtime|entries complete IH| | |] using FsNode_ind;
    intros startPath depth st; rewrite scanFullAsync_unfold; unfold load_cancelled;
    destruct (flag_at signal (loads st)); cbv zeta;
    try (apply counted_same; reflexivity).
  set (st2 := record _ _).
  pose proof (scan_entries_counted now runId signal hasCb startPath depth entries IH
                zero_result [] st2) as H.
  destruct (scan_entries _ _ _ _ _ _ _ _ _ _ _) as [[result batch] st3].
  cbn [fst snd] in *.
  eapply counted_trans; [|exact H]. apply counted_same; reflexivity.
Qed.

(** X14.  The count of files of the aggregate is what the run has added
    to the counter of progress, cancelled or not: a deep scan that returns
    [fileCount] files leaves [itemsScanned_] that many further, in the
    width of an [int]. *)
Theorem counter_advances_by_fileCount :
  forall now runId signal hasCb start startPath depth st,
    in_int32 (itemsScanned_ st) ->
    let out := scanFullAsync now runId signal hasCb start startPath depth st in
    itemsScanned_ (snd out) = wrap32 (itemsScanned_ st + res_fileCount (fst out))
    /\ res_fileCount (fst out) = wrap32 (itemsScanned_ (snd out) - itemsScanned_ st).
Proof.
  intros now runId signal hasCb start startPath depth st Hst out.
  destruct (scanFullAsync_counted now runId signal hasCb start startPath depth st)
    as [D [R I]].
  fold out in D, R, I. cbn [zero_result res_fileCount] in *.
  assert (R0 : in_int32 0) by (unfold in_int32; lia).
  specialize (R R0). specialize (I Hst). split.
  - rewrite <- (wrap32_small _ I). apply wrap32_of_divide.
    apply Z.divide_opp_r in D.
    replace (itemsScanned_ (snd out) - (itemsScanned_ st + res_fileCount (fst out)))
      with (- (res_fileCount (fst out) - 0 - (itemsScanned_ (snd out) - itemsScanned_ st)))
      by lia.
    exact D.
  - rewrite <- (wrap32_small _ R) at 1. apply wrap32_of_divide.
    replace (res_fileCount (fst out) - (itemsScanned_ (snd out) - itemsScanned_ st))
      with (res_fileCount (fst out) - 0 - (itemsScanned_ (snd out) - itemsScanned_ st))
      by lia.
    exact D.
Qed.

Lemma counter_advances_by_fileCount_witness :
  let out := scanFullAsync (fun _ => 0) "run-1" (Some 5%nat) true sample_tree "/data" 0 new_scanner in
  itemsScanned_ (snd out) = wrap32 (itemsScanned_ new_scanner + res_fileCount (fst out))
  /\ res_fileCount (fst out)
     = wrap32 (itemsScanned_ (snd out) - itemsScanned_ new_scanner).
Proof.
  apply (counter_advances_by_fileCount (fun _ => 0) "run-1" (Some 5%nat) true sample_tree "/data" 0
           new_scanner).
  unfold in_int32. cbn. lia.
Defined.

(** ** Deep scan: what the aggregate does not depend on *)

Lemma same_counters_refl : forall st, same_counters st st.
Proof. intros st. repeat split. Qed.








(** ** Deep scan: without a callback *)

Lemma reports_last :
  forall events e,
    reports (events ++ [e])
    = reports events ++ match e with Progress p => [p] | _ => [] end.
Proof.
  intros events e. unfold reports. rewrite flat_map_app. cbn [flat_map].
  rewrite app_nil_r. reflexivity.
Qed.

Lemma silent_refl : forall st, silent st st.
Proof. intros st. reflexivity. Qed.

Lemma silent_trans : forall a b c, silent a b -> silent b c -> silent a c.
Proof. unfold silent. intros a b c H1 H2. congruence. Qed.

Lemma silent_load :
  forall signal st, silent st (snd (load_cancelled signal st)).
Proof.
  intros signal st. unfold silent, load_cancelled. cbn [snd log].
  rewrite reports_last, app_nil_r. reflexivity.
Qed.

Lemma silent_record :
  forall e st, (forall p, e <> Progress p) -> silent st (record e st).
Proof.
  intros e st H. unfold silent, record. cbn [log]. rewrite reports_last.
  destruct e; try apply app_nil_r. exfalso. exact (H p eq_refl).
Qed.

Lemma silent_report :
  forall run p st, silent st (report_progress run false p st).
Proof.
  intros run p st. unfold silent, report_progress.
  destruct (PROGRESS_INTERVAL <=? _); reflexivity.
Qed.

Lemma scan_entries_silent :
  forall now run signal startPath level entries,
    Forall (fun e =>
              forall p d st,
                silent st (snd (scanFullAsync now run signal false (snd e) p d st)))
           entries ->
    forall result batchItems st,
      silent st (snd (scan_entries now run signal false
                                   (scanFullAsync now run signal false)
                                   startPath level entries result batchItems st)).
Proof.
  intros now run signal startPath level entries Hsub.
  induction Hsub as [|[name child] rest Hchild Hrest IH]; intros result batchItems st.
  - rewrite scan_entries_nil. apply silent_refl.
  - rewrite scan_entries_cons.
    pose proof (silent_load signal st) as H1.
    destruct (load_cancelled signal st) as [stop st1]. cbn [snd] in H1.
    destruct stop; [exact H1|]. cbv zeta. cbn [snd] in Hchild.
    assert (H2 : silent st (record (Examine (child_path startPath name)) st1)).
    { eapply silent_trans; [exact H1|]. apply silent_record. discriminate. }
    destruct child as [[size|] [lwt|]|sub complete| | |].
    + eapply silent_trans; [|apply IH].
      eapply silent_trans; [exact H2|].
      eapply silent_trans; [|apply silent_report]. reflexivity.
    + eapply silent_trans; [exact H2 | apply IH].
    + eapply silent_trans; [exact H2 | apply IH].
    + eapply silent_trans; [exact H2 | apply IH].
    + specialize (Hchild (child_path startPath name) (wrap32 (level + 1))
                         (record (Examine (child_path startPath name)) st1)).
      destruct (scanFullAsync _ _ _ _ _ _ _ _) as [subResult st3]. cbn [snd] in Hchild.
      eapply silent_trans; [|apply IH].
      eapply silent_trans; [exact H2|].
      eapply silent_trans; [exact Hchild | apply silent_report].
    + specialize (Hchild (child_path startPath name) (wrap32 (level + 1))
                         (record (Examine (child_path startPath name)) st1)).
      destruct (scanFullAsync _ _ _ _ _ _ _ _) as [subResult st3]. cbn [snd] in Hchild.
      eapply silent_trans; [|apply IH].
      eapply silent_trans; [exact H2|].
      eapply silent_trans; [exact Hchild | apply silent_report].
    + eapply silent_trans; [|apply IH].
      eapply silent_trans; [exact H2 | apply silent_report].
    + eapply silent_trans; [exact H2 | apply IH].
Qed.

(** X16.  A deep scan that is given no callback calls none: the run
    leaves no progress event, however many files it counts and whenever it
    is cancelled. *)
Theorem no_callback_no_report :
  forall now run signal start startPath level st,
    reports (log (snd (scanFullAsync now run signal false start startPath level st)))
    = reports (log st).
Proof.
  intros now run signal start.
  induction start as [size mtime|entries complete IH| | |] using FsNode_ind;
    intros startPath level st; rewrite scanFullAsync_unfold;
    pose proof (silent_load signal st) as H1;
    destruct (load_cancelled signal st) as [stop st1]; cbn [snd] in H1;
    (destruct stop; [exact H1|]); cbv zeta;
    assert (H2 : silent st (record (Iterate startPath) st1))
      by (eapply silent_trans; [exact H1 | apply silent_record; discriminate]);
    try exact H2.
  pose proof (scan_entries_silent now run signal startPath level entries IH
                zero_result [] (record (Iterate startPath) st1)) as H.
  destruct (scan_entries _ _ _ _ _ _ _ _ _ _ _) as [[result batch] st3].
  cbn [snd] in *. exact (silent_trans _ _ _ H2 H).
Qed.

(** ** Paths *)

Lemma strip_sep_length :
  forall s, (String.length (strip_sep s) <= String.length s)%nat.
Proof.
  induction s as [|c s IH]; [cbn; lia|].
  cbn [strip_sep]. cbv zeta.
  destruct (Ascii.eqb c SEP && is_empty (strip_sep s)); cbn [String.length]; lia.
Qed.

Lemma strip_sep_shorter :
  forall s, ends_with_sep s = true ->
    (String.length (strip_sep s) < String.length s)%nat.
Proof.
  induction s as [|c s IH]; intro H; [discriminate H|].
  cbn [ends_with_sep] in H. cbn [strip_sep]. cbv zeta. destruct s as [|d s].
  - cbn [strip_sep is_empty]. rewrite H. cbn. lia.
  - specialize (IH H).
    destruct (Ascii.eqb c SEP && is_empty (strip_sep (String d s)));
      cbn [String.length] in *; lia.
Qed.

Lemma strip_name_length :
  forall s, (String.length (strip_name s) <= String.length s)%nat.
Proof.
  induction s as [|c s IH]; [cbn; lia|].
  cbn [strip_name]. cbv zeta.
  destruct (negb (Ascii.eqb c SEP) && is_empty (strip_name s));
    cbn [String.length]; lia.
Qed.

Lemma strip_name_shorter :
  forall s, s <> "" -> ends_with_sep s = false ->
    (String.length (strip_name s) < String.length s)%nat.
Proof.
  induction s as [|c s IH]; intros Hne H; [congruence|].
  cbn [ends_with_sep] in H. cbn [strip_name]. cbv zeta. destruct s as [|d s].
  - cbn [strip_name is_empty]. rewrite H. cbn. lia.
  - specialize (IH ltac:(discriminate) H).
    destruct (negb (Ascii.eqb c SEP) && is_empty (strip_name (String d s)));
      cbn [String.length] in *; lia.
Qed.

Lemma prefix_refl : forall s, String.prefix s s = true.
Proof.
  induction s as [|c s IH]; [reflexivity|].
  cbn [String.prefix]. destruct (ascii_dec c c); [exact IH | congruence].
Qed.

Lemma prefix_empty : forall s, String.prefix "" s = true.
Proof. intros s. destruct s; reflexivity. Qed.

Lemma prefix_cons :
  forall c a s, String.prefix a s = true -> String.prefix (String c a) (String c s) = true.
Proof.
  intros c a s H. cbn [String.prefix]. destruct (ascii_dec c c); [exact H | congruence].
Qed.

Lemma prefix_trans :
  forall a b c,
    String.prefix a b = true -> String.prefix b c = true -> String.prefix a c = true.
Proof.
  induction a as [|x a IH]; intros b c Hab Hbc; [apply prefix_empty|].
  destruct b as [|y b]; [discriminate Hab|].
  destruct c as [|z c]; [discriminate Hbc|].
  cbn [String.prefix] in *.
  destruct (ascii_dec x y) as [->|]; [|discriminate Hab].
  destruct (ascii_dec y z) as [->|]; [|discriminate Hbc].
  exact (IH b c Hab Hbc).
Qed.

Lemma strip_sep_prefix : forall s, String.prefix (strip_sep s) s = true.
Proof.
  induction s as [|c s IH]; [reflexivity|].
  cbn [strip_sep]. cbv zeta.
  destruct (Ascii.eqb c SEP && is_empty (strip_sep s));
    [reflexivity | apply prefix_cons, IH].
Qed.

Lemma strip_name_prefix : forall s, String.prefix (strip_name s) s = true.
Proof.
  induction s as [|c s IH]; [reflexivity|].
  cbn [strip_name]. cbv zeta.
  destruct (negb (Ascii.eqb c SEP) && is_empty (strip_name s));
    [reflexivity | apply prefix_cons, IH].
Qed.

(** Text that is not empty and of which nothing is left without the
    separators at its end begins with a separator. *)
Lemma strip_sep_nothing :
  forall s, s <> "" -> strip_sep s = "" -> String.prefix (String SEP "") s = true.
Proof.
  intros [|c s] Hne H; [congruence|].
  cbn [strip_sep] in H. cbv zeta in H.
  destruct (Ascii.eqb_spec c SEP) as [->|Hc]; [|discriminate H].
  cbn [String.prefix]. destruct (ascii_dec SEP SEP); [apply prefix_empty | congruence].
Qed.

Lemma parent_path_prefix : forall s, String.prefix (parent_path s) s = true.
Proof.
  intros s. unfold parent_path.
  destruct (is_empty (strip_sep s)); [apply prefix_refl|].
  destruct (ends_with_sep s); [apply strip_sep_prefix|].
  destruct (is_empty (strip_name s)) eqn:E1; [apply prefix_empty|].
  apply is_empty_false in E1.
  destruct (is_empty (strip_sep (strip_name s))) eqn:E2.
  - apply is_empty_true in E2.
    exact (prefix_trans _ _ _ (strip_sep_nothing _ E1 E2) (strip_name_prefix s)).
  - exact (prefix_trans _ _ _ (strip_sep_prefix _) (strip_name_prefix s)).
Qed.

Lemma parent_path_shorter :
  forall s,
    strip_sep s <> "" ->
    (String.length (parent_path s) < String.length s)%nat.
Proof.
  intros s Hnames. unfold parent_path.
  assert (Hs : s <> "") by (intros ->; apply Hnames; reflexivity).
  apply is_empty_false in Hnames. rewrite Hnames.
  destruct (ends_with_sep s) eqn:Eend; [apply strip_sep_shorter, Eend|].
  pose proof (strip_name_shorter s Hs Eend) as Hshort.
  destruct (is_empty (strip_name s)) eqn:E1.
  - destruct s; [congruence | cbn; lia].
  - apply is_empty_false in E1.
    destruct (is_empty (strip_sep (strip_name s))) eqn:E2.
    + destruct (strip_name s); [congruence|]. cbn [String.length] in *. lia.
    + pose proof (strip_sep_length (strip_name s)). lia.
Qed.

Lemma getParent_cases :
  forall p,
    getParent p = ""
    \/ (String.length (getParent p) < String.length p)%nat.
Proof.
  intros p. unfold getParent.
  destruct (has_parent_path p); [|left; reflexivity].
  destruct (is_empty (parent_path p) || String.eqb (parent_path p) p) eqn:E;
    [left; reflexivity|].
  right. apply orb_false_iff in E. destruct E as [_ E]. apply String.eqb_neq in E.
  apply parent_path_shorter. intros Hnil. apply E.
  unfold parent_path. rewrite Hnil. reflexivity.
Qed.

(** X17.  The parent of a path is a shorter beginning of it.  [getParent]
    returns either the empty text or a text that is strictly shorter than
    its argument and with which the argument begins, as it is written,
    hence never the path itself, and for a path without a name (the root,
    the empty path) the empty text: going from parent to parent comes to
    an end.  Separators that are doubled stay doubled. *)
Theorem getParent_is_shorter :
  forall p,
    (getParent p = "" \/ (String.length (getParent p) < String.length p)%nat)
    /\ String.prefix (getParent p) p = true
    /\ getParent p <> String SEP p
    /\ (p <> "" -> getParent p <> p)
    /\ (strip_sep p = "" -> getParent p = "")
    /\ map getParent [ "//a/b"; "/a//b/"; "a//b"; "/a"; "a/"; "a"; "//"; "" ]
       = [ "//a"; "/a//b"; "a"; "/"; "a"; ""; ""; "" ].
Proof.
  intros p. pose proof (getParent_cases p) as H.
  split; [exact H|]. split; [|split; [|split; [|split]]].
  - unfold getParent. destruct (has_parent_path p); [|apply prefix_empty].
    destruct (is_empty (parent_path p) || String.eqb (parent_path p) p);
      [apply prefix_empty | apply parent_path_prefix].
  - intros E. destruct H as [H|H]; rewrite E in H; [discriminate H|].
    cbn [String.length] in H. lia.
  - intros Hne E. destruct H as [H|H]; rewrite E in H; [congruence | lia].
  - intros Hnil. unfold getParent, has_parent_path, parent_path. rewrite Hnil.
    cbn [is_empty]. destruct (is_empty p) eqn:Ep; cbn [negb]; [reflexivity|].
    rewrite String.eqb_refl, orb_true_r. reflexivity.
  - reflexivity.
Qed.

(** ** Shallow statistics of a directory *)

Lemma stat_entry_in_range :
  forall result e, in_range result -> in_range (stat_entry result e).
Proof.
  intros result [name child] [H1 [H2 [H3 H4]]]. unfold stat_entry, in_range. cbn [snd].
  destruct child as [[size|] [lwt|]|sub c| | |];
    cbn [res_sizeBytes res_fileCount res_folderCount res_latestMs];
    repeat split; try assumption; try apply wrap64_range; try apply wrap32_range;
    try apply H1; try apply H2; try apply H3; lia.
Qed.

Lemma stat_fold :
  forall entries result,
    in_range result ->
    fold_left stat_entry entries result
    = mkResult (wrap64 (res_sizeBytes result + sum (immediate_sizes entries)))
               (wrap32 (res_fileCount result
                        + Z.of_nat (List.length (immediate_sizes entries))))
               (wrap32 (res_folderCount result + immediate_folders entries))
               (Z.max (res_latestMs result) (greatest (immediate_times entries))).
Proof.
  induction entries as [|[name child] entries IH]; intros result Hr.
  - destruct result as [a b c d]. destruct Hr as [H1 [H2 [H3 H4]]].
    cbn [fold_left immediate_sizes immediate_times immediate_folders flat_map filter
         List.length sum greatest fold_right res_sizeBytes res_fileCount
         res_folderCount res_latestMs Z.of_nat] in *.
    rewrite !Z.add_0_r, (wrap64_small _ H1), (wrap32_small _ H2), (wrap32_small _ H3).
    f_equal. lia.
  - cbn [fold_left]. rewrite (IH _ (stat_entry_in_range result (name, child) Hr)).
    unfold immediate_sizes, immediate_times, immediate_folders, stat_entry.
    cbn [flat_map filter snd].
    destruct child as [[size|] [lwt|]|sub c| | |];
      cbn [is_directory app List.length res_sizeBytes res_fileCount res_folderCount
           res_latestMs];
      try reflexivity.
    + rewrite wrap64_add_l, wrap32_add_l.
      change (sum (size :: ?l)) with (size + sum l).
      change (greatest (lwt :: ?l)) with (Z.max lwt (greatest l)).
      f_equal; try (f_equal; lia). lia.
    + rewrite wrap64_add_l, wrap32_add_l.
      change (sum (size :: ?l)) with (size + sum l).
      f_equal; f_equal; lia.
    + rewrite wrap32_add_l. f_equal. f_equal. lia.
    + rewrite wrap32_add_l. f_equal. f_equal. lia.
Qed.

(** X18.  [statDirShallow] looks at the entries of the directory and no
    further: it returns the sum of the sizes of the regular files among
    them, their number, the number of directories among them, and the
    greatest of the times of those files (from 0); a file whose size
    cannot be read is left out, one whose time alone cannot be read is
    counted without its time.  What cannot be listed gives zeros. *)
Theorem statDirShallow_counts_the_entries :
  forall entries complete,
    statDirShallow (Directory entries complete)
    = mkResult (wrap64 (sum (immediate_sizes entries)))
               (wrap32 (Z.of_nat (List.length (immediate_sizes entries))))
               (wrap32 (immediate_folders entries))
               (greatest (immediate_times entries))
    /\ statDirShallow NoListing = zero_result.
Proof.
  intros entries complete. split; [|reflexivity].
  unfold statDirShallow. rewrite (stat_fold entries zero_result in_range_zero).
  cbn [zero_result res_sizeBytes res_fileCount res_folderCount res_latestMs].
  f_equal. apply Z.max_r, greatest_nonneg.
Qed.




(** ** Shallow scan: the records *)

Lemma shallow_entry_emitted :
  forall now startPath run acc e,
    exists new,
      emitted (shallow_entry now startPath run acc e) = emitted acc ++ new
      /\ map (fun c => (path c, type c)) new
         = (if listed (snd e)
            then [(child_path startPath (fst e), kind_of (snd e))] else [])
      /\ Forall (fun c => valid_type (type c) = true /\ scannedUtc c = ""
                          /\ runId c = run /\ depth c = 1
                          /\ parent c = startPath) new
      /\ (is_directory (snd e) = true ->
          Forall (fun c => sizeBytes c = res_sizeBytes (statDirShallow (snd e))
                           /\ fileCount c = res_fileCount (statDirShallow (snd e))
                           /\ folderCount c = res_folderCount (statDirShallow (snd e)))
                 new).
Proof.
  intros now startPath run acc [name child]. unfold shallow_entry. cbn [fst snd].
  destruct child as [[size|] [lwt|]|sub c| | |]; cbn [emitted listed];
    try (exists []; rewrite app_nil_r; repeat split; constructor);
    (eexists; split; [reflexivity|]; split; [reflexivity|]; split;
     [repeat constructor | intros H; try discriminate H; repeat constructor]).
Qed.

Lemma shallow_children_emitted :
  forall now startPath run entries acc,
    exists new,
      emitted (fold_left (shallow_entry now startPath run) entries acc)
      = emitted acc ++ new
      /\ map (fun c => (path c, type c)) new
         = map (fun e => (child_path startPath (fst e), kind_of (snd e)))
               (filter (fun e => listed (snd e)) entries)
      /\ Forall (fun c => valid_type (type c) = true /\ scannedUtc c = ""
                          /\ runId c = run /\ depth c = 1
                          /\ parent c = startPath) new.
Proof.
  intros now startPath run entries.
  induction entries as [|e entries IH]; intros acc.
  - exists []. rewrite app_nil_r. repeat split. constructor.
  - cbn [fold_left].
    destruct (shallow_entry_emitted now startPath run acc e) as [new1 [E1 [M1 [F1 _]]]].
    destruct (IH (shallow_entry now startPath run acc e)) as [new2 [E2 [M2 F2]]].
    exists (new1 ++ new2). rewrite E2, E1, app_assoc. split; [reflexivity|].
    split; [|apply Forall_app; split; assumption].
    rewrite map_app, M1, M2. cbn [filter].
    destruct (listed (snd e)); reflexivity.
Qed.

Lemma scanShallow_records :
  forall now startPath run rootLwt start,
    Forall (fun c => valid_type (type c) = true /\ scannedUtc c = ""
                     /\ runId c = run)
           (scanShallow now startPath run rootLwt start).
Proof.
  intros now startPath run rootLwt start.
  destruct start as [size mtime|entries complete| | |]; try constructor.
  unfold scanShallow, shallow_children.
  destruct (shallow_children_emitted now startPath run entries (mkAcc 0 0 0 0 []))
    as [new [E [_ F]]].
  cbn [emitted app] in E. rewrite E.
  assert (F' : Forall (fun c => valid_type (type c) = true /\ scannedUtc c = ""
                                /\ runId c = run) new).
  { eapply Forall_impl; [|exact F]. cbn beta. intros c H. tauto. }
  destruct complete; [|exact F'].
  apply Forall_app. split; [exact F'|]. repeat constructor.
Qed.

(** X20.  The records of a shallow scan follow the listing.  There is
    one record for each entry that is a directory or a regular file whose
    size and time can be read, in the order of the listing, with the path
    and the type of the entry, and after them the record of the start when
    the listing ends well; entries of other kinds and entries that cannot
    be read have none.  Every record is a child of the start at depth 1,
    but the last, and a directory among them carries the statistics of
    [statDirShallow]. *)
Theorem shallow_scan_follows_the_listing :
  forall now startPath run rootLwt entries complete,
    exists children,
      scanShallow now startPath run rootLwt (Directory entries complete)
      = children
        ++ (if complete
            then [rootRec now startPath run rootLwt (shallow_children now startPath run entries)]
            else [])
      /\ map (fun c => (path c, type c)) children
         = map (fun e => (child_path startPath (fst e), kind_of (snd e)))
               (filter (fun e => listed (snd e)) entries)
      /\ Forall (fun c => depth c = 1 /\ parent c = startPath) children
      /\ (forall name sub,
            In (name, sub) entries -> is_directory sub = true ->
            exists c,
              In c children
              /\ path c = child_path startPath name
              /\ sizeBytes c = res_sizeBytes (statDirShallow sub)
              /\ fileCount c = res_fileCount (statDirShallow sub)
              /\ folderCount c = res_folderCount (statDirShallow sub)).
Proof.
  intros now startPath run rootLwt entries complete.
  unfold scanShallow, shallow_children.
  destruct (shallow_children_emitted now startPath run entries (mkAcc 0 0 0 0 []))
    as [new [E [M F]]].
  cbn [emitted app] in E. exists new. split.
  { rewrite E. destruct complete; [reflexivity | rewrite app_nil_r; reflexivity]. }
  split; [exact M|]. split.
  { eapply Forall_impl; [|exact F]. cbn beta. intros c H. tauto. }
  clear M F. revert new E. generalize (mkAcc 0 0 0 0 []).
  induction entries as [|e entries IH]; intros acc new E name sub Hin Hdir;
    [destruct Hin|].
  cbn [fold_left] in E.
  destruct Hin as [->|Hin].
  - destruct (shallow_entry_emitted now startPath run acc (name, sub))
      as [new1 [E1 [M1 [_ D1]]]].
    destruct (shallow_children_emitted now startPath run entries
                (shallow_entry now startPath run acc (name, sub))) as [new2 [E2 _]].
    cbn [fst snd] in *. specialize (D1 Hdir).
    assert (Hl : listed sub = true)
      by (destruct sub as [[?|] [?|]| | | |]; try discriminate Hdir; reflexivity).
    rewrite Hl in M1. destruct new1 as [|c [|c2 rest]]; try discriminate M1.
    injection M1 as Hp _. inversion D1 as [|? ? Hc _]; subst.
    exists c. split; [|split; [exact Hp | exact Hc]].
    rewrite E2, E1. apply in_or_app. left. apply in_or_app. right. left. reflexivity.
  - exact (IH (shallow_entry now startPath run acc e) new E name sub Hin Hdir).
Qed.

(** ** Paths of entries *)

Lemma child_path_path_of :
  forall names name,
    Forall (fun n => plain_name n = true) names ->
    child_path (path_of names) name = path_of (names ++ [name]).
Proof.
  intros names name Hall. unfold child_path, path_of. cbn [is_empty orb].
  destruct names as [|n names]; [reflexivity|].
  change (String SEP (join_sep (n :: names)))
    with (String SEP "" ++ join_sep (n :: names))%string at 1.
  rewrite ends_with_sep_join by (try exact Hall; discriminate).
  rewrite (join_sep_last (n :: names) name ltac:(discriminate)).
  reflexivity.
Qed.

(** X21.  The records of a shallow scan agree on parents.  When the start
    is given by its names from the root and the entries have plain names,
    the [parent] of every record is what [getParent] makes of its [path]:
    the start for an entry, and for the start the directory that holds
    it. *)
Theorem shallow_records_agree_on_parents :
  forall now names run rootLwt entries complete,
    Forall (fun n => plain_name n = true) names ->
    Forall (fun e => plain_name (fst e) = true) entries ->
    Forall (fun c => getParent (path c) = parent c)
           (scanShallow now (path_of names) run rootLwt (Directory entries complete)).
Proof.
  intros now names run rootLwt entries complete Hnames Hentries.
  unfold scanShallow, shallow_children.
  destruct (shallow_children_emitted now (path_of names) run entries (mkAcc 0 0 0 0 []))
    as [children [E [M F]]].
  cbn [emitted app] in E. rewrite E.
  assert (Hc : Forall (fun c => getParent (path c) = parent c) children).
  { apply Forall_forall. intros c Hin. rewrite Forall_forall in F.
    destruct (F c Hin) as [_ [_ [_ [_ Hp]]]]. rewrite Hp.
    assert (Hin' : In (path c, type c) (map (fun c => (path c, type c)) children))
      by (apply (in_map (fun c => (path c, type c))), Hin).
    rewrite M in Hin'. apply in_map_iff in Hin'. destruct Hin' as [e [He Hf]].
    injection He as He _. rewrite <- He.
    apply filter_In in Hf. destruct Hf as [Hf _].
    rewrite Forall_forall in Hentries. specialize (Hentries e Hf).
    rewrite (child_path_path_of names (fst e) Hnames).
    apply getParent_path_of. apply Forall_app. split; [exact Hnames|].
    constructor; [exact Hentries | constructor]. }
  destruct complete; [|exact Hc].
  apply Forall_app. split; [exact Hc|]. constructor; [reflexivity | constructor].
Qed.

Lemma shallow_records_agree_on_parents_witness :
  Forall (fun c => getParent (path c) = parent c)
         (scanShallow (fun _ => 1704070000000) (path_of ["home"; "u"]) "run-1" None flat_tree).
Proof.
  apply (shallow_records_agree_on_parents (fun _ => 1704070000000) ["home"; "u"] "run-1" None
           [ ("a", RegularFile (Some 10) (Some 100));
             ("b", Directory [] true);
             ("c", RegularFile (Some 200000) (Some 50));
             ("d", NoListing) ] true).
  - repeat constructor.
  - repeat constructor.
Defined.

(** ** Deep scan: the batch of a level *)

Lemma large_file_records_shape :
  forall now run startPath level entries reads,
    map (fun c => (path c, sizeBytes c))
        (large_file_records now run startPath level reads entries)
    = flat_map (fun e => match snd e with
                         | RegularFile (Some size) (Some _) =>
                             if 100 * 1024 <=? size
                             then [(child_path startPath (fst e), wrap64 size)]
                             else []
                         | _ => []
                         end) entries
    /\ Forall (fun c => type c = "File" /\ parent c = startPath
                        /\ depth c = wrap32 (level + 1)
                        /\ fileCount c = 1 /\ folderCount c = 0 /\ runId c = run)
              (large_file_records now run startPath level reads entries)
    /\ (Z.of_nat (List.length (large_file_records now run startPath level reads entries))
        <= Z.of_nat (List.length (immediate_times entries))).
Proof.
  intros now run startPath level entries. unfold immediate_times.
  change MIN_FILE_SIZE_FOR_DB with (100 * 1024).
  induction entries as [|[name child] entries IH]; intro reads;
    [split; [reflexivity | split; [constructor | reflexivity]]|].
  destruct (IH (reads + entry_reads (name, child))%nat) as [IH1 [IH2 IH3]].
  cbn [large_file_records flat_map snd fst].
  change MIN_FILE_SIZE_FOR_DB with (100 * 1024).
  destruct child as [[size|] [lwt|]|sub c| | |];
    try (split; [exact IH1 | split; [exact IH2 | exact IH3]]).
  destruct (100 * 1024 <=? size).
  - cbn [app map List.length]. rewrite IH1.
    split; [reflexivity|]. split; [constructor; [repeat split | exact IH2] | lia].
  - cbn [app List.length]. split; [exact IH1 | split; [exact IH2 | lia]].
Qed.

Lemma large_file_records_clock :
  forall now run startPath level entries reads,
    exists ks,
      map scannedUtc (large_file_records now run startPath level reads entries)
      = map (fun k => toIsoString (now k)) ks
      /\ StronglySorted lt ks
      /\ Forall (fun k => (reads < k <= reads + list_sum (map entry_reads entries))%nat)
                ks.
Proof.
  intros now run startPath level entries.
  induction entries as [|e entries IH]; intro reads.
  - exists []. split; [reflexivity|]. split; constructor.
  - destruct (IH (reads + entry_reads e)%nat) as [ks [Hmap [Hsorted Hrange]]].
    assert (He : (1 <= entry_reads e)%nat) by (unfold entry_reads; lia).
    assert (Hrange' :
      Forall (fun k => (S reads < k
                        <= reads + list_sum (map entry_reads (e :: entries)))%nat) ks).
    { eapply Forall_impl; [|exact Hrange]. cbn beta. intros k Hk.
      cbn [map]. rewrite list_sum_cons. lia. }
    cbn [large_file_records].
    assert (Hnone :
      exists ks0,
        map scannedUtc
            (large_file_records now run startPath level (reads + entry_reads e) entries)
        = map (fun k => toIsoString (now k)) ks0
        /\ StronglySorted lt ks0
        /\ Forall (fun k => (reads < k
                             <= reads + list_sum (map entry_reads (e :: entries)))%nat)
                  ks0).
    { exists ks. split; [exact Hmap|]. split; [exact Hsorted|].
      eapply Forall_impl; [|exact Hrange']. cbn beta. intros k Hk. lia. }
    destruct (snd e) as [[size|] [lwt|]|sub c| | |]; try exact Hnone.
    destruct (MIN_FILE_SIZE_FOR_DB <=? size); [|exact Hnone].
    exists (S reads :: ks). cbn [app map file_record scannedUtc]. rewrite Hmap.
    split; [reflexivity|]. split.
    + constructor; [exact Hsorted|].
      eapply Forall_impl; [|exact Hrange']. cbn beta. intros k Hk. lia.
    + cbn [map] in *. rewrite list_sum_cons in *.
      constructor; [lia|].
      eapply Forall_impl; [|exact Hrange']. cbn beta. intros k Hk. lia.
Qed.

(** X22.  The batch of a level of a deep scan that is not cancelled holds
    one record for each regular file among the entries of the level whose
    size is 100 KiB or more, in the order of the listing, and nothing for
    smaller files or for files further down: a [File] with the path of the
    entry, the start of the level as parent, the depth of the level plus
    one and the [runId] of the run.  Each record has for [scannedUtc] the
    reading of the clock taken when it is made: the readings are taken one
    after the other in the course of the scan of the level, a later record
    never from an earlier reading. *)
Theorem batch_of_a_level :
  forall now run hasCb entries complete startPath level st,
    let batch := batch_at_return now run None hasCb (Directory entries complete)
                                 startPath level st in
    map (fun c => (path c, sizeBytes c)) batch
    = flat_map (fun e => match snd e with
                         | RegularFile (Some size) (Some _) =>
                             if 100 * 1024 <=? size
                             then [(child_path startPath (fst e), wrap64 size)]
                             else []
                         | _ => []
                         end) entries
    /\ Forall (fun c => type c = "File" /\ parent c = startPath
                        /\ depth c = wrap32 (level + 1)
                        /\ fileCount c = 1 /\ folderCount c = 0 /\ runId c = run) batch
    /\ (exists reads,
          map scannedUtc batch = map (fun k => toIsoString (now k)) reads
          /\ StronglySorted lt reads
          /\ Forall (fun k => (S (loads st) < k
                               <= loads st + flag_reads (Directory entries complete))%nat)
                    reads)
    /\ Z.of_nat (List.length batch)
       <= Z.of_nat (List.length (immediate_times entries))
    /\ map scannedUtc
           (batch_at_return (fun k => 1704070000000 + 1000 * Z.of_nat k) "run-1" None true
                            (Directory
                               [ ("a", RegularFile (Some 200000) (Some 50));
                                 ("sub", Directory
                                           [ ("x", RegularFile (Some 300000) (Some 7)) ]
                                           true);
                                 ("b", RegularFile (Some 400000) (Some 60)) ] true)
                            "/data" 0 new_scanner)
       = [ "2024-01-01T00:46:42.000Z"; "2024-01-01T00:46:46.000Z" ].
Proof.
  intros now run hasCb entries complete startPath level st batch.
  unfold batch. rewrite batch_holds_large_files. clear batch.
  destruct (large_file_records_shape now run startPath level entries (S (loads st)))
    as [H1 [H2 H3]].
  split; [exact H1|]. split; [exact H2|]. split; [|split; [exact H3 | reflexivity]].
  destruct (large_file_records_clock now run startPath level entries (S (loads st)))
    as [ks [Hmap [Hsorted Hrange]]].
  exists ks. split; [exact Hmap|]. split; [exact Hsorted|].
  eapply Forall_impl; [|exact Hrange]. cbn beta. intros k Hk.
  rewrite flag_reads_directory. lia.
Qed.

(** ** A shallow scan into the store *)

Lemma find_upsert_step_unscanned :
  forall t i p r,
    c_str (scannedUtc i) = "" ->
    find (fun x => text_eqb (r_path x) p) t = Some r ->
    exists r', find (fun x => text_eqb (r_path x) p) (upsert_step t i) = Some r'
               /\ r_scannedUtc r' = r_scannedUtc r.
Proof.
  intros t i p r Hi H. unfold upsert_step.
  destruct (negb _); [exists r; auto|].
  destruct (String.eqb p (r_path (bind_item i))) eqn:E.
  - apply String.eqb_eq in E. subst p. rewrite find_upsert_row_same, H.
    eexists. split; [reflexivity|].
    cbn [on_conflict bind_item r_scannedUtc]. rewrite Hi. reflexivity.
  - apply String.eqb_neq in E. rewrite (find_upsert_row_other _ _ _ E). eauto.
Qed.

Lemma find_fold_upsert_unscanned :
  forall batch t p r,
    Forall (fun i => c_str (scannedUtc i) = "") batch ->
    find (fun x => text_eqb (r_path x) p) t = Some r ->
    exists r', find (fun x => text_eqb (r_path x) p) (fold_left upsert_step batch t)
               = Some r'
               /\ r_scannedUtc r' = r_scannedUtc r.
Proof.
  induction batch as [|i batch IH]; intros t p r Hb H; [exists r; auto|].
  inversion Hb as [|? ? Hi Hrest]; subst. cbn [fold_left].
  destruct (find_upsert_step_unscanned t i p r Hi H) as [r1 [H1 E1]].
  destruct (IH _ _ _ Hrest H1) as [r2 [H2 E2]].
  exists r2. split; [exact H2 | congruence].
Qed.

Lemma scanShallow_unscanned :
  forall now startPath run rootLwt start,
    Forall (fun c => c_str (scannedUtc c) = "")
           (scanShallow now startPath run rootLwt start).
Proof.
  intros now startPath run rootLwt start.
  eapply Forall_impl; [|apply (scanShallow_records now startPath run rootLwt start)].
  cbn beta. intros c [_ [-> _]]. reflexivity.
Qed.

(** X23.  A shallow scan erases no [scannedUtc], and no row.  Whatever
    the scan finds, a row that was stored is still stored after
    [ScanShallow], under its path and with the [scannedUtc] it had. *)
Theorem shallow_scan_keeps_scannedUtc :
  forall now uuid startPath rootLwt start db p it,
    GetItemByPath p (Some db) = Returned (Some it) ->
    exists it',
      GetItemByPath p (snd (ScanShallow now uuid startPath rootLwt start (Some db)))
      = Returned (Some it')
      /\ path it' = path it
      /\ scannedUtc it' = scannedUtc it.
Proof.
  intros now uuid startPath rootLwt start db p it H.
  unfold ScanShallow.
  pose proof (scanShallow_unscanned now startPath uuid rootLwt start) as Hb.
  destruct (scanShallow now startPath uuid rootLwt start) as [|c found] eqn:Efound;
    cbn [snd]; [exists it; auto|].
  cbn [GetItemByPath] in *. injection H as H.
  unfold getItemByPath in *. rewrite upsertItems_open, items_upsertItems.
  destruct (db_ db); cbn [negb] in *; [|discriminate H].
  destruct (find _ (items db)) as [r|] eqn:E; [|discriminate H].
  cbn [option_map] in H. injection H as <-.
  destruct (find_fold_upsert_unscanned (c :: found) _ _ _ Hb E) as [r' [E' Hs]].
  rewrite E'. exists (itemRecordToJS (row_to_item r')). split; [reflexivity|].
  cbn [itemRecordToJS row_to_item path scannedUtc].
  rewrite (find_some_path _ _ _ E), (find_some_path _ _ _ E'), Hs. auto.
Qed.

Lemma scanned_of_upsert_step :
  forall t i p,
    c_str (scannedUtc i) = "" ->
    match find (fun x => text_eqb (r_path x) p) (upsert_step t i) with
    | Some r => r_scannedUtc r
    | None => ""
    end
    = match find (fun x => text_eqb (r_path x) p) t with
      | Some r => r_scannedUtc r
      | None => ""
      end.
Proof.
  intros t i p Hi. unfold upsert_step. destruct (negb _); [reflexivity|].
  destruct (String.eqb p (r_path (bind_item i))) eqn:E.
  - apply String.eqb_eq in E. subst p. rewrite find_upsert_row_same.
    destruct (find _ t) as [old|]; cbn [on_conflict bind_item r_scannedUtc];
      rewrite Hi; reflexivity.
  - apply String.eqb_neq in E. rewrite (find_upsert_row_other _ _ _ E). reflexivity.
Qed.

Lemma scanned_of_fold_upsert :
  forall batch t p,
    Forall (fun i => c_str (scannedUtc i) = "") batch ->
    match find (fun x => text_eqb (r_path x) p) (fold_left upsert_step batch t) with
    | Some r => r_scannedUtc r
    | None => ""
    end
    = match find (fun x => text_eqb (r_path x) p) t with
      | Some r => r_scannedUtc r
      | None => ""
      end.
Proof.
  induction batch as [|i batch IH]; intros t p Hb; [reflexivity|].
  inversion Hb as [|? ? Hi Hrest]; subst. cbn [fold_left].
  rewrite (IH _ _ Hrest). apply scanned_of_upsert_step, Hi.
Qed.

Lemma to_double_small : forall z, Z.abs z < 2 ^ 53 -> to_double z = z.
Proof.
  intros z H. unfold to_double. cbv zeta.
  apply Z.ltb_lt in H. rewrite H. reflexivity.
Qed.

(** X24.  After [ScanShallow] of a directory that can be listed, the
    store holds for the start path the record that the scan emitted for
    it, the last of the batch, whatever the store held and whatever the
    children are: [getItemByPath] returns a folder at depth 0 with the
    totals of the scan, the parent of the start path and the [runId] that
    the call returns; its [scannedUtc] is the one the store had for the
    path, if any.  The binding hands the same record to JavaScript, its
    size as a [double]: the size itself when it is below 2^53. *)
Theorem shallow_scan_stores_the_start :
  forall now uuid startPath rootLwt entries db,
    db_ db = true ->
    exists children root it,
      scanShallow now startPath uuid rootLwt (Directory entries true) = children ++ [root]
      /\ ScanShallow now uuid startPath rootLwt (Directory entries true) (Some db)
         = (Returned uuid, Some (upsertItems (children ++ [root]) db))
      /\ getItemByPath startPath (upsertItems (children ++ [root]) db) = Some it
      /\ path it = c_str startPath
      /\ parent it = c_str (getParent startPath)
      /\ type it = "Folder"
      /\ depth it = 0
      /\ sizeBytes it = sizeBytes root
      /\ fileCount it = wrap32 (fileCount root)
      /\ folderCount it = wrap32 (folderCount root)
      /\ lastWriteUtc it = c_str (lastWriteUtc root)
      /\ runId it = c_str uuid
      /\ scannedUtc it = match getItemByPath startPath db with
                         | Some old => scannedUtc old
                         | None => ""
                         end
      /\ GetItemByPath startPath (Some (upsertItems (children ++ [root]) db))
         = Returned (Some (itemRecordToJS it))
      /\ sizeBytes (itemRecordToJS it) = to_double (sizeBytes root)
      /\ (Z.abs (sizeBytes root) < 2 ^ 53 ->
          sizeBytes (itemRecordToJS it) = sizeBytes root).
Proof.
  intros now uuid startPath rootLwt entries db Hopen.
  set (acc := shallow_children now startPath uuid entries).
  set (root := rootRec now startPath uuid rootLwt acc).
  pose proof (scanShallow_unscanned now startPath uuid rootLwt (Directory entries true))
    as Hb.
  cbn [scanShallow] in Hb. fold acc in Hb. fold root in Hb.
  apply Forall_app in Hb. destruct Hb as [Hchildren _].
  assert (Hget :
    getItemByPath startPath (upsertItems (emitted acc ++ [root]) db)
    = Some (row_to_item
              (match find (fun x => text_eqb (r_path x) (c_str startPath))
                          (fold_left upsert_step (emitted acc) (items db)) with
               | Some old => on_conflict old (bind_item root)
               | None => bind_item root
               end))).
  { rewrite getItemByPath_open by (rewrite upsertItems_open; exact Hopen).
    rewrite items_upsertItems, Hopen, fold_left_app. cbn [fold_left].
    change (c_str startPath) with (c_str (path root)).
    rewrite (find_upsert_step_same _ root eq_refl). reflexivity. }
  exists (emitted acc), root. eexists.
  split; [reflexivity|]. split.
  { unfold ScanShallow. cbn [scanShallow]. fold acc. fold root.
    destruct (emitted acc ++ [root]) eqn:E;
      [destruct (emitted acc); discriminate E | reflexivity]. }
  split; [exact Hget|].
  assert (Hjs : forall it,
             getItemByPath startPath (upsertItems (emitted acc ++ [root]) db) = Some it ->
             sizeBytes it = sizeBytes root ->
             GetItemByPath startPath (Some (upsertItems (emitted acc ++ [root]) db))
             = Returned (Some (itemRecordToJS it))
             /\ sizeBytes (itemRecordToJS it) = to_double (sizeBytes root)
             /\ (Z.abs (sizeBytes root) < 2 ^ 53 ->
                 sizeBytes (itemRecordToJS it) = sizeBytes root)).
  { intros it Hit Hsize. cbn [GetItemByPath]. rewrite Hit. cbn [option_map itemRecordToJS sizeBytes].
    rewrite Hsize. split; [reflexivity|]. split; [reflexivity|]. apply to_double_small. }
  specialize (Hjs _ Hget).
  rewrite getItemByPath_open by exact Hopen.
  pose proof (scanned_of_fold_upsert (emitted acc) (items db) (c_str startPath) Hchildren)
    as Hs.
  unfold root in *. cbn [rootRec path] in *.
  destruct (find _ (fold_left upsert_step (emitted acc) (items db))) as [old|] eqn:E.
  - cbn [row_to_item on_conflict bind_item rootRec path parent type sizeBytes
         fileCount folderCount lastWriteUtc depth runId scannedUtc
         r_path r_parent r_type r_sizeBytes r_fileCount r_folderCount
         r_lastWriteUtc r_scannedUtc r_depth r_runId c_str is_empty] in *.
    rewrite (find_some_path _ _ _ E), !c_str_idem.
    split; [reflexivity|]. split.
    { destruct (getParent startPath); cbn [is_empty]; [reflexivity | apply c_str_idem]. }
    do 7 (split; [reflexivity|]).
    split; [|exact (Hjs eq_refl)].
    rewrite Hs. destruct (find _ (items db)); reflexivity.
  - cbn [row_to_item bind_item rootRec path parent type sizeBytes
         fileCount folderCount lastWriteUtc depth runId scannedUtc
         r_path r_parent r_type r_sizeBytes r_fileCount r_folderCount
         r_lastWriteUtc r_scannedUtc r_depth r_runId c_str is_empty] in *.
    rewrite !c_str_idem.
    split; [reflexivity|]. split.
    { destruct (getParent startPath); cbn [is_empty]; [reflexivity | apply c_str_idem]. }
    do 7 (split; [reflexivity|]).
    split; [|exact (Hjs eq_refl)].
    destruct (find _ (items db)) as [r0|]; cbn [option_map row_to_item scannedUtc];
      [rewrite <- Hs|]; reflexivity.
Qed.

Lemma shallow_scan_stores_the_start_witness :
  exists children root it,
    scanShallow (fun _ => 1704070000000) "/d" "run-9" None flat_tree = children ++ [root]
    /\ getItemByPath "/d" (upsertItems (children ++ [root]) three_rows) = Some it
    /\ sizeBytes it = sizeBytes root
    /\ depth it = 0
    /\ GetItemByPath "/d" (Some (upsertItems (children ++ [root]) three_rows))
       = Returned (Some (itemRecordToJS it)).
Proof.
  destruct (shallow_scan_stores_the_start (fun _ => 1704070000000) "run-9" "/d" None
              [ ("a", RegularFile (Some 10) (Some 100));
                ("b", Directory [] true);
                ("c", RegularFile (Some 200000) (Some 50));
                ("d", NoListing) ] three_rows)
    as [children [root [it [H1 [_ [H2 [_ [_ [_ [H3 [H4 [_ [_ [_ [_ [_ [H5 _]]]]]]]]]]]]]]]]].
  - reflexivity.
  - exists children, root, it. auto.
Defined.

Lemma shallow_scan_keeps_scannedUtc_witness :
  exists it',
    GetItemByPath "/d/a"
      (snd (ScanShallow (fun _ => 1704070000000) "run-9" "/d" None flat_tree (Some three_rows)))
    = Returned (Some it')
    /\ scannedUtc it' = "2024-01-02T00:00:00.000Z".
Proof.
  destruct (shallow_scan_keeps_scannedUtc (fun _ => 1704070000000) "run-9" "/d" None flat_tree
              three_rows "/d/a"
              (mkItem "/d/a" "/d" "File" 10 1 0 "2024-01-01T00:00:00.000Z"
                      "2024-01-02T00:00:00.000Z" 1 "run-1"))
    as [it' [H [_ Hs]]].
  - reflexivity.
  - exists it'. split; [exact H | exact Hs].
Defined.

(** ** The roots after a first shallow scan *)

Lemma c_str_app_clean :
  forall a b, c_str a = a -> c_str (a ++ b) = (a ++ c_str b)%string.
Proof.
  induction a as [|c a IH]; intros b H; [reflexivity|].
  cbn [c_str append] in *. destruct (Ascii.eqb c NUL); [discriminate H|].
  injection H as H. rewrite (IH b H). reflexivity.
Qed.

Lemma c_str_length : forall s, (String.length (c_str s) <= String.length s)%nat.
Proof.
  induction s as [|c s IH]; [reflexivity|]. cbn [c_str].
  destruct (Ascii.eqb c NUL); cbn [String.length]; lia.
Qed.

Lemma child_path_prefix :
  forall dir name, exists rest, child_path dir name = (dir ++ rest)%string.
Proof.
  intros dir name. unfold child_path.
  destruct (is_empty dir || ends_with_sep dir); eexists; reflexivity.
Qed.

Lemma child_path_length :
  forall dir name,
    c_str dir = dir ->
    (String.length dir <= String.length (c_str (child_path dir name)))%nat.
Proof.
  intros dir name H. destruct (child_path_prefix dir name) as [rest ->].
  rewrite (c_str_app_clean _ _ H), length_append. lia.
Qed.

Lemma upsert_row_child_rows :
  forall dir x t,
    child_row dir x -> Forall (child_row dir) t -> Forall (child_row dir) (upsert_row x t).
Proof.
  intros dir x t Hx H. induction H as [|r t Hr Ht IH]; cbn [upsert_row].
  - constructor; [exact Hx | constructor].
  - destruct (String.eqb (r_path r) (r_path x)).
    + constructor; [|exact Ht]. destruct Hx as [Hp _], Hr as [_ Hl].
      split; [exact Hp | exact Hl].
    + constructor; [exact Hr | exact IH].
Qed.

Lemma fold_upsert_child_rows :
  forall dir batch t,
    dir <> "" -> c_str dir = dir ->
    Forall (fun c => parent c = dir /\ exists name, path c = child_path dir name) batch ->
    Forall (child_row dir) t ->
    Forall (child_row dir) (fold_left upsert_step batch t).
Proof.
  intros dir batch t Hne Hclean. revert t.
  induction batch as [|c batch IH]; intros t Hb Ht; [exact Ht|].
  apply Forall_cons_iff in Hb. destruct Hb as [[Hp [name Hn]] Hrest]. cbn [fold_left].
  apply (IH _ Hrest). unfold upsert_step. destruct (negb _); [exact Ht|].
  apply upsert_row_child_rows; [|exact Ht].
  split; cbn [bind_item r_parent r_path].
  - rewrite Hp. destruct dir; [congruence|]. cbn [is_empty]. rewrite Hclean. reflexivity.
  - rewrite Hn. apply child_path_length, Hclean.
Qed.

(** The table after the record of the start has been applied. *)
Lemma upsert_row_start :
  forall dir x t,
    r_path x = dir -> Forall (child_row dir) t ->
    exists pre row post,
      upsert_row x t = pre ++ row :: post
      /\ r_path row = dir
      /\ r_parent row = r_parent x
      /\ r_type row = r_type x
      /\ r_depth row = r_depth x
      /\ Forall (child_row dir) (pre ++ post).
Proof.
  intros dir x t Hx H. induction H as [|r t Hr Ht IH]; cbn [upsert_row].
  - exists [], x, []. repeat split; [exact Hx | constructor].
  - destruct (String.eqb (r_path r) (r_path x)) eqn:E.
    + apply String.eqb_eq in E. exists [], (on_conflict r x), t.
      split; [reflexivity|]. split; [cbn [on_conflict r_path]; congruence|].
      repeat (split; [reflexivity|]). exact Ht.
    + destruct IH as [pre [row [post [E1 [E2 [E3 [E4 [E5 E6]]]]]]]].
      exists (r :: pre), row, post. rewrite E1.
      split; [reflexivity|]. repeat (split; [assumption|]).
      constructor; [exact Hr | exact E6].
Qed.

Lemma roots_of_start :
  forall dir pre row post,
    r_path row = dir ->
    (r_parent row = None
     \/ exists q, r_parent row = Some q
                  /\ (String.length q < String.length dir)%nat) ->
    Forall (child_row dir) (pre ++ post) ->
    filter (is_root (pre ++ row :: post)) (pre ++ row :: post) = [row].
Proof.
  intros dir pre row post Hpath Hparent Hall.
  set (t := pre ++ row :: post).
  assert (Hin : In row t) by (apply in_or_app; right; left; reflexivity).
  assert (Hidx : parent_indexed t dir = true).
  { unfold parent_indexed. apply existsb_exists. exists row.
    split; [exact Hin | apply String.eqb_eq, Hpath]. }
  assert (Hchild : forall r, In r (pre ++ post) -> is_root t r = false).
  { intros r Hr. rewrite Forall_forall in Hall. destruct (Hall r Hr) as [Hp _].
    unfold is_root. rewrite Hp, Hidx. reflexivity. }
  assert (Hrow : is_root t row = true).
  { unfold is_root. destruct Hparent as [Hp0|[q [Hp0 Hq]]]; rewrite Hp0; [reflexivity|].
    apply andb_true_iff. split; apply negb_true_iff.
    - unfold parent_indexed. apply not_true_is_false. intros H.
      apply existsb_exists in H. destruct H as [r [Hr E]].
      apply String.eqb_eq in E.
      apply in_app_or in Hr. destruct Hr as [Hr|[<-|Hr]].
      + rewrite Forall_forall in Hall.
        destruct (Hall r (in_or_app _ _ _ (or_introl Hr))) as [_ Hl].
        rewrite E in Hl. lia.
      + rewrite Hpath in E. subst q. lia.
      + rewrite Forall_forall in Hall.
        destruct (Hall r (in_or_app _ _ _ (or_intror Hr))) as [_ Hl].
        rewrite E in Hl. lia.
    - unfold under_known_root. apply not_true_is_false. intros H.
      apply existsb_exists in H. destruct H as [r [Hr E]].
      apply in_app_or in Hr. destruct Hr as [Hr|[<-|Hr]].
      + rewrite Forall_forall in Hall.
        destruct (Hall r (in_or_app _ _ _ (or_introl Hr))) as [Hp _].
        rewrite Hp in E. discriminate E.
      + rewrite Hp0 in E. discriminate E.
      + rewrite Forall_forall in Hall.
        destruct (Hall r (in_or_app _ _ _ (or_intror Hr))) as [Hp _].
        rewrite Hp in E. discriminate E. }
  unfold t at 2. rewrite filter_app. cbn [filter]. rewrite Hrow.
  rewrite (filter_none _ _ pre), (filter_none _ _ post); [reflexivity| |].
  - intros r Hr. apply Hchild, in_or_app. right. exact Hr.
  - intros r Hr. apply Hchild, in_or_app. left. exact Hr.
Qed.

(** X25.  After the shallow scan of a directory into an empty store, the
    store has one root, the directory: its children are stored with it as
    their parent and are no roots, and the parent of the directory, which
    is not stored, makes it one.  (The start path is not empty and holds no
    NUL byte; the limit leaves room for one row.) *)
Theorem roots_after_a_first_shallow_scan :
  forall now uuid startPath rootLwt entries limit sort,
    startPath <> "" ->
    c_str startPath = startPath ->
    limit < 0 \/ 1 <= limit ->
    exists it,
      GetRoots limit sort
        (snd (ScanShallow now uuid startPath rootLwt (Directory entries true)
                          (Some (mkDb true []))))
      = Returned ([it], 1)
      /\ path it = startPath
      /\ type it = "Folder"
      /\ depth it = 0.
Proof.
  intros now uuid startPath rootLwt entries limit sort Hne Hclean Hlimit.
  destruct (shallow_children_emitted now startPath uuid entries (mkAcc 0 0 0 0 []))
    as [children [E [M F]]].
  cbn [emitted app] in E. fold (shallow_children now startPath uuid entries) in E.
  set (acc := shallow_children now startPath uuid entries) in *.
  set (root := rootRec now startPath uuid rootLwt acc).
  assert (Hfound : scanShallow now startPath uuid rootLwt (Directory entries true)
                   = children ++ [root]).
  { cbn [scanShallow]. fold acc. rewrite E. reflexivity. }
  assert (Hscan : ScanShallow now uuid startPath rootLwt (Directory entries true)
                              (Some (mkDb true []))
                  = (Returned uuid, Some (upsertItems (children ++ [root]) (mkDb true [])))).
  { unfold ScanShallow. rewrite Hfound. destruct children; reflexivity. }
  rewrite Hscan. cbn [snd GetRoots]. unfold getRoots.
  rewrite upsertItems_open. cbn [db_ negb].
  rewrite items_upsertItems. cbn [db_ items].
  rewrite fold_left_app. cbn [fold_left].
  assert (Hrows : Forall (child_row startPath) (fold_left upsert_step children [])).
  { apply fold_upsert_child_rows; [exact Hne | exact Hclean | | constructor].
    apply Forall_forall. intros c Hc. rewrite Forall_forall in F.
    split; [apply (F c Hc)|].
    assert (Hin : In (path c, type c) (map (fun c => (path c, type c)) children))
      by (apply (in_map (fun c => (path c, type c))), Hc).
    rewrite M in Hin. apply in_map_iff in Hin. destruct Hin as [e [He _]].
    exists (fst e). congruence. }
  change (upsert_step (fold_left upsert_step children []) root)
    with (upsert_row (bind_item root) (fold_left upsert_step children [])).
  destruct (upsert_row_start startPath (bind_item root) _ Hclean Hrows)
    as [pre [row [post [Et [Hpath [Hparent [Htype [Hdepth Hall]]]]]]]].
  rewrite Et, (roots_of_start startPath pre row post Hpath); [| |exact Hall].
  - cbn [sort_by fold_right insert_by].
    rewrite sql_limit_all by (cbn [List.length]; lia).
    cbn [map listing List.length]. exists (itemRecordToJS (row_to_item row)).
    split; [reflexivity|].
    cbn [itemRecordToJS row_to_item path type depth].
    rewrite Hpath, Hclean, Htype, Hdepth.
    repeat split.
  - rewrite Hparent. cbn [bind_item r_parent root rootRec parent].
    destruct (is_empty (getParent startPath)) eqn:Eg; [left; reflexivity|].
    right. eexists. split; [reflexivity|].
    destruct (getParent_cases startPath) as [H|H];
      [rewrite H in Eg; discriminate Eg|].
    pose proof (c_str_length (getParent startPath)). lia.
Qed.

Lemma roots_after_a_first_shallow_scan_witness :
  exists it,
    GetRoots 200 "size_desc"
      (snd (ScanShallow (fun _ => 1704070000000) "run-9" "/d" None flat_tree (Some (mkDb true []))))
    = Returned ([it], 1)
    /\ path it = "/d"
    /\ type it = "Folder"
    /\ depth it = 0.
Proof.
  apply (roots_after_a_first_shallow_scan (fun _ => 1704070000000) "run-9" "/d" None
           [ ("a", RegularFile (Some 10) (Some 100));
             ("b", Directory [] true);
             ("c", RegularFile (Some 200000) (Some 50));
             ("d", NoListing) ] 200 "size_desc").
  - discriminate.
  - reflexivity.
  - right. lia.
Defined.

(** ** Run identifiers *)

Lemma fixed_hex_length : forall w n, String.length (fixed_hex w n) = w.
Proof.
  induction w as [|w IH]; intros n; [reflexivity|].
  cbn [fixed_hex]. rewrite length_append, IH. cbn. lia.
Qed.

Lemma hex_digit_is_hex : forall d, 0 <= d < 16 -> is_hex_digit (hex_digit d) = true.
Proof.
  intros d H. unfold hex_digit.
  assert (Hn : (Z.to_nat d < 16)%nat) by lia.
  revert Hn. generalize (Z.to_nat d). intros n Hn.
  do 16 (destruct n as [|n]; [reflexivity|]). lia.
Qed.

Lemma all_hex_app : forall a b, all_hex (a ++ b) = all_hex a && all_hex b.
Proof.
  induction a as [|c a IH]; intros b; [reflexivity|].
  cbn [append all_hex]. rewrite IH, andb_assoc. reflexivity.
Qed.

Lemma fixed_hex_all_hex : forall w n, all_hex (fixed_hex w n) = true.
Proof.
  induction w as [|w IH]; intros n; [reflexivity|].
  cbn [fixed_hex]. rewrite all_hex_app, IH. cbn [all_hex andb].
  rewrite hex_digit_is_hex; [reflexivity | apply Z.mod_pos_bound; lia].
Qed.

Lemma fixed_hex_zero : forall w, fixed_hex w 0 = zeros w.
Proof.
  induction w as [|w IH]; [reflexivity|].
  cbn [fixed_hex]. change (0 / 16) with 0. rewrite IH.
  clear IH. induction w as [|w IH]; [reflexivity|].
  cbn [zeros append]. rewrite IH. reflexivity.
Qed.

Lemma hex_digits_length :
  forall w fuel n,
    0 <= n < 16 ^ Z.of_nat w -> (w <= fuel)%nat -> (1 <= w)%nat ->
    (1 <= String.length (hex_digits fuel n) <= w)%nat.
Proof.
  induction w as [|w IH]; intros fuel n Hn Hf Hw; [lia|].
  destruct fuel as [|fuel]; [lia|]. cbn [hex_digits].
  destruct (n <? 16) eqn:E; [cbn; lia|]. apply Z.ltb_ge in E.
  rewrite length_append. cbn [String.length].
  destruct w as [|w]; [cbn in Hn; lia|].
  assert (0 <= n / 16 < 16 ^ Z.of_nat (S w)).
  { rewrite Nat2Z.inj_succ, Z.pow_succ_r in Hn by lia.
    split; [apply Z.div_pos; lia | apply Z.div_lt_upper_bound; lia]. }
  specialize (IH fuel (n / 16) H ltac:(lia) ltac:(lia)). lia.
Qed.

(** A number printed in base 16 with a width that holds it shows its
    [width] last digits. *)
Lemma setw_to_hex :
  forall w fuel n,
    0 <= n < 16 ^ Z.of_nat w -> (w <= fuel)%nat -> (1 <= w)%nat ->
    setw w (hex_digits fuel n) = fixed_hex w n.
Proof.
  induction w as [|w IH]; intros fuel n Hn Hf Hw; [lia|].
  destruct fuel as [|fuel]; [lia|]. cbn [hex_digits fixed_hex].
  destruct (n <? 16) eqn:E.
  - apply Z.ltb_lt in E. rewrite Z.div_small, Z.mod_small by lia.
    rewrite fixed_hex_zero. unfold setw. cbn [String.length].
    replace (S w - 1)%nat with w by lia. reflexivity.
  - apply Z.ltb_ge in E.
    destruct w as [|w]; [cbn in Hn; lia|].
    assert (H : 0 <= n / 16 < 16 ^ Z.of_nat (S w)).
    { rewrite Nat2Z.inj_succ, Z.pow_succ_r in Hn by lia.
      split; [apply Z.div_pos; lia | apply Z.div_lt_upper_bound; lia]. }
    rewrite <- (IH fuel (n / 16) H ltac:(lia) ltac:(lia)).
    unfold setw. rewrite length_append. cbn [String.length].
    pose proof (hex_digits_length (S w) fuel (n / 16) H ltac:(lia) ltac:(lia)).
    replace (S (S w) - (String.length (hex_digits fuel (n / 16)) + 1))%nat
      with (S w - String.length (hex_digits fuel (n / 16)))%nat by lia.
    rewrite append_assoc. reflexivity.
Qed.

Lemma land_mask :
  forall r k, 0 <= k -> 0 <= Z.land r (2 ^ k - 1) < 2 ^ k.
Proof.
  intros r k Hk. replace (2 ^ k - 1) with (Z.ones k) by (rewrite Z.ones_equiv; lia).
  rewrite Z.land_ones by exact Hk. apply Z.mod_pos_bound. lia.
Qed.

Lemma lor_high_bit :
  forall a k, 0 <= k -> 0 <= a < 2 ^ k -> Z.lor a (2 ^ k) = a + 2 ^ k.
Proof.
  intros a k Hk Ha.
  assert (Hland : Z.land a (2 ^ k) = 0).
  { apply Z.bits_inj'. intros m Hm. rewrite Z.land_spec, Z.bits_0.
    rewrite Z.pow2_bits_eqb by exact Hk.
    destruct (Z.eqb_spec k m) as [<-|_]; [|apply andb_false_r].
    rewrite andb_true_r.
    destruct (Z.eq_dec a 0) as [->|Hne]; [apply Z.bits_0|].
    apply Z.bits_above_log2; [lia|]. apply Z.log2_lt_pow2; lia. }
  rewrite <- (Z.lxor_lor _ _ Hland). symmetry. apply Z.add_nocarry_lxor, Hland.
Qed.

Lemma fixed_hex_4 :
  forall n,
    fixed_hex 4 n
    = String (hex_digit (n / 4096 mod 16))
        (String (hex_digit (n / 256 mod 16))
           (String (hex_digit (n / 16 mod 16))
              (String (hex_digit (n mod 16)) ""))).
Proof.
  intros n. cbn [fixed_hex append]. rewrite !Z.div_div by lia. reflexivity.
Qed.

(** X26.  A run identifier has the form of a random UUID, whatever the
    five numbers drawn: 36 characters in groups of 8, 4, 4, 4 and 12 digits
    of base 16 in lower case, with hyphens between them; the third group
    begins with [4] (the version) and the fourth with [8], [9], [a] or [b]
    (the variant). *)
Theorem generateUUID_is_a_version_4_uuid :
  forall r1 r2 r3 r4 r5,
    exists g1 g2 g3 v g4 g5,
      generateUUID r1 r2 r3 r4 r5
      = (g1 ++ "-" ++ g2 ++ "-" ++ String "4" g3 ++ "-" ++ String v g4 ++ "-" ++ g5)%string
      /\ String.length g1 = 8%nat /\ String.length g2 = 4%nat
      /\ String.length g3 = 3%nat /\ String.length g4 = 3%nat
      /\ String.length g5 = 12%nat
      /\ all_hex (g1 ++ g2 ++ g3 ++ g4 ++ g5) = true
      /\ In v ["8"; "9"; "a"; "b"]%char
      /\ String.length (generateUUID r1 r2 r3 r4 r5) = 36%nat.
Proof.
  intros r1 r2 r3 r4 r5. unfold generateUUID, to_hex.
  pose proof (land_mask r1 32 ltac:(lia)) as H1.
  pose proof (land_mask r2 16 ltac:(lia)) as H2.
  pose proof (land_mask r3 12 ltac:(lia)) as H3.
  pose proof (land_mask r4 14 ltac:(lia)) as H4.
  pose proof (land_mask r5 48 ltac:(lia)) as H5.
  change (2 ^ 32 - 1) with 0xFFFFFFFF in H1.
  change (2 ^ 16 - 1) with 0xFFFF in H2.
  change (2 ^ 12 - 1) with 0x0FFF in H3.
  change (2 ^ 14 - 1) with 0x3FFF in H4.
  change (2 ^ 48 - 1) with 0xFFFFFFFFFFFF in H5.
  set (a1 := Z.land r1 0xFFFFFFFF) in *.
  set (a2 := Z.land r2 0xFFFF) in *.
  set (a3 := Z.land r3 0x0FFF) in *.
  set (a4 := Z.land r4 0x3FFF) in *.
  set (a5 := Z.land r5 0xFFFFFFFFFFFF) in *.
  assert (E3 : Z.lor a3 0x4000 = a3 + 16384).
  { apply (lor_high_bit a3 14); lia. }
  assert (E4 : Z.lor a4 0x8000 = a4 + 32768).
  { pose proof (lor_high_bit a4 15 ltac:(lia)) as H. apply H. lia. }
  rewrite E3, E4.
  rewrite (setw_to_hex 8 16 a1), (setw_to_hex 4 16 a2),
    (setw_to_hex 4 16 (a3 + 16384)), (setw_to_hex 4 16 (a4 + 32768)),
    (setw_to_hex 12 16 a5) by (try lia; cbn; lia).
  rewrite (fixed_hex_4 (a3 + 16384)), (fixed_hex_4 (a4 + 32768)).
  assert (D3 : (a3 + 16384) / 4096 mod 16 = 4).
  { replace ((a3 + 16384) / 4096) with 4; [reflexivity|].
    apply Z.div_unique with (r := a3); lia. }
  rewrite D3. change (hex_digit 4) with "4"%char.
  set (v := hex_digit ((a4 + 32768) / 4096 mod 16)).
  eexists (fixed_hex 8 a1), (fixed_hex 4 a2), _, v, _, (fixed_hex 12 a5).
  split; [reflexivity|].
  rewrite !fixed_hex_length.
  repeat (split; [reflexivity|]).
  split.
  { rewrite !all_hex_app, !fixed_hex_all_hex. cbn [all_hex andb].
    rewrite !hex_digit_is_hex by (apply Z.mod_pos_bound; lia). reflexivity. }
  split.
  { assert (Hq : 8 <= (a4 + 32768) / 4096 <= 11).
    { split; [apply Z.div_le_lower_bound; lia|].
      assert ((a4 + 32768) / 4096 < 12) by (apply Z.div_lt_upper_bound; lia). lia. }
    unfold v. rewrite Z.mod_small by lia.
    assert (Hc : (a4 + 32768) / 4096 = 8 \/ (a4 + 32768) / 4096 = 9
                 \/ (a4 + 32768) / 4096 = 10 \/ (a4 + 32768) / 4096 = 11) by lia.
    destruct Hc as [->|[->|[->| ->]]]; cbn; auto. }
  rewrite !length_append, !fixed_hex_length. reflexivity.
Qed.

(** ** Timestamps *)

Lemma Z_range_forallb :
  forall (f : Z -> bool) lo n,
    forallb f (Z_range lo n) = true ->
    forall z, lo <= z < lo + Z.of_nat n -> f z = true.
Proof.
  intros f lo n. revert lo. induction n as [|n IH]; intros lo H z Hz; [lia|].
  cbn [Z_range forallb] in H. apply andb_true_iff in H. destruct H as [H0 H].
  destruct (Z.eq_dec z lo) as [->|Hne]; [exact H0|].
  apply (IH (lo + 1) H). lia.
Qed.

Lemma four_digits_all : forall y, 1000 <= y < 10000 -> four_digits y = true.
Proof.
  intros y H. apply (Z_range_forallb four_digits 1000 (Z.to_nat 9000)); [|lia].
  vm_compute. reflexivity.
Qed.

Lemma two_digits_all : forall z, 0 <= z < 100 -> two_digits_ok z = true.
Proof.
  intros z H. apply (Z_range_forallb two_digits_ok 0 (Z.to_nat 100)); [|lia].
  vm_compute. reflexivity.
Qed.

Lemma civil_from_days_bounds :
  forall days,
    0 <= days < 106752 ->
    let '(y, m, d) := civil_from_days days in
    1970 <= y <= 2262 /\ 1 <= m <= 12 /\ 1 <= d <= 31.
Proof.
  intros days H. unfold civil_from_days. cbv zeta.
  set (z := days + 719468).
  set (era := z / 146097).
  set (doe := z - era * 146097).
  set (yoe := (doe - doe / 1460 + doe / 36524 - doe / 146096) / 365).
  set (doy := doe - (365 * yoe + yoe / 4 - yoe / 100)).
  set (mp := (5 * doy + 2) / 153).
  destruct (mp <? 10) eqn:E1; [apply Z.ltb_lt in E1 | apply Z.ltb_ge in E1].
  - destruct (mp + 3 <=? 2) eqn:E2; [apply Z.leb_le in E2 | apply Z.leb_gt in E2];
      unfold mp, doy, yoe, doe, era, z in *; Z.div_mod_to_equations; lia.
  - destruct (mp - 9 <=? 2) eqn:E2; [apply Z.leb_le in E2 | apply Z.leb_gt in E2];
      unfold mp, doy, yoe, doe, era, z in *; Z.div_mod_to_equations; lia.
Qed.

(** The seconds that [to_time_t] makes of milliseconds that fit, as
    nanoseconds, in 64 bits. *)
Lemma seconds_of_milliseconds :
  forall epochMs,
    0 <= epochMs <= 9223372036854 ->
    Z.quot (wrap64 (epochMs * 1000000)) 1000000000 = epochMs / 1000.
Proof.
  intros epochMs H.
  rewrite wrap64_small by (unfold in_int64; lia).
  rewrite Z.quot_div_nonneg by lia.
  change 1000000000 with (1000 * 1000000).
  apply Z.div_mul_cancel_r; lia.
Qed.

(** X27.  A time from 1970 up to 9223372036854 milliseconds, the last
    that fits as nanoseconds in 64 bits (in the year 2262), is written as
    24 characters, [YYYY-MM-DDTHH:MM:SS.000Z]: a year of four digits, a
    month from 1 to 12, a day from 1 to 31 and the hour, minute and second
    of the day, each of two digits.  The milliseconds are dropped: two
    times within one second are written alike.  The millisecond after the
    last is written as a time of the year 1677. *)
Theorem toIsoString_has_24_characters :
  forall epochMs,
    0 <= epochMs <= 9223372036854 ->
    (exists y mo d h mi s,
        toIsoString epochMs
        = (decimal y ++ "-" ++ two_digits mo ++ "-" ++ two_digits d ++ "T"
           ++ two_digits h ++ ":" ++ two_digits mi ++ ":" ++ two_digits s
           ++ ".000Z")%string
        /\ 1970 <= y <= 2262 /\ 1 <= mo <= 12 /\ 1 <= d <= 31
        /\ 0 <= h < 24 /\ 0 <= mi < 60 /\ 0 <= s < 60
        /\ h * 3600 + mi * 60 + s = (epochMs / 1000) mod 86400
        /\ String.length (decimal y) = 4%nat
        /\ String.length (two_digits mo) = 2%nat
        /\ String.length (two_digits d) = 2%nat
        /\ String.length (two_digits h) = 2%nat
        /\ String.length (two_digits mi) = 2%nat
        /\ String.length (two_digits s) = 2%nat)
    /\ String.length (toIsoString epochMs) = 24%nat
    /\ toIsoString epochMs = toIsoString (epochMs - epochMs mod 1000)
    /\ toIsoString 9223372036854 = "2262-04-11T23:47:16.000Z"
    /\ toIsoString 9223372036855 = "1677-09-21T00:12:44.000Z".
Proof.
  intros epochMs H.
  pose proof (seconds_of_milliseconds epochMs H) as Hq.
  assert (Htime : 0 <= epochMs / 1000 < 9223372037).
  { split; [apply Z.div_pos; lia | apply Z.div_lt_upper_bound; lia]. }
  set (time := epochMs / 1000) in *.
  assert (Hdays : 0 <= time / 86400 < 106752).
  { split; [apply Z.div_pos; lia | apply Z.div_lt_upper_bound; lia]. }
  pose proof (civil_from_days_bounds (time / 86400) Hdays) as Hc.
  pose proof (Z.mod_pos_bound time 86400 ltac:(lia)) as Hs.
  set (sec := time mod 86400) in *.
  assert (Hh : 0 <= sec / 3600 < 24).
  { split; [apply Z.div_pos; lia | apply Z.div_lt_upper_bound; lia]. }
  pose proof (Z.mod_pos_bound (sec / 60) 60 ltac:(lia)) as Hmi.
  pose proof (Z.mod_pos_bound sec 60 ltac:(lia)) as Hse.
  assert (Hsum : sec / 3600 * 3600 + sec / 60 mod 60 * 60 + sec mod 60 = sec).
  { pose proof (Z.div_mod sec 60 ltac:(lia)).
    pose proof (Z.div_mod (sec / 60) 60 ltac:(lia)).
    rewrite Z.div_div in * by lia. change (60 * 60) with 3600 in *. lia. }
  assert (Hshape :
    exists y mo d h mi s,
      toIsoString epochMs
      = (decimal y ++ "-" ++ two_digits mo ++ "-" ++ two_digits d ++ "T"
         ++ two_digits h ++ ":" ++ two_digits mi ++ ":" ++ two_digits s
         ++ ".000Z")%string
      /\ 1970 <= y <= 2262 /\ 1 <= mo <= 12 /\ 1 <= d <= 31
      /\ 0 <= h < 24 /\ 0 <= mi < 60 /\ 0 <= s < 60
      /\ h * 3600 + mi * 60 + s = sec
      /\ String.length (decimal y) = 4%nat
      /\ String.length (two_digits mo) = 2%nat
      /\ String.length (two_digits d) = 2%nat
      /\ String.length (two_digits h) = 2%nat
      /\ String.length (two_digits mi) = 2%nat
      /\ String.length (two_digits s) = 2%nat).
  { unfold toIsoString. cbv zeta. rewrite Hq. fold sec.
    destruct (civil_from_days (time / 86400)) as [[y mo] d].
    destruct Hc as [Hy [Hmo Hd]].
    exists y, mo, d, (sec / 3600), (sec / 60 mod 60), (sec mod 60).
    split; [reflexivity|].
    do 6 (split; [lia|]).
    split; [exact Hsum|].
    split; [apply Nat.eqb_eq, (four_digits_all y); lia|].
    repeat split; apply Nat.eqb_eq; apply two_digits_all; lia. }
  split; [exact Hshape|]. split; [|split; [|split; reflexivity]].
  - destruct Hshape as [y [mo [d [h [mi [s [E [_ [_ [_ [_ [_ [_ [_ [L1 [L2 [L3 [L4 [L5 L6]]]]]]]]]]]]]]]]]]].
    rewrite E, !length_append, L1, L2, L3, L4, L5, L6. reflexivity.
  - pose proof (Z.mod_pos_bound epochMs 1000 ltac:(lia)) as Hm.
    pose proof (Z.div_mod epochMs 1000 ltac:(lia)) as Hdm.
    unfold toIsoString. cbv zeta. rewrite Hq.
    rewrite (seconds_of_milliseconds (epochMs - epochMs mod 1000)) by lia.
    replace ((epochMs - epochMs mod 1000) / 1000) with time; [reflexivity|].
    unfold time. apply Z.div_unique_exact; lia.
Qed.

Lemma toIsoString_has_24_characters_witness :
  String.length (toIsoString 1704067300999) = 24%nat
  /\ toIsoString 1704067300999 = toIsoString (1704067300999 - 1704067300999 mod 1000).
Proof.
  destruct (toIsoString_has_24_characters 1704067300999) as [_ [H1 [H2 _]]];
    [lia | split; [exact H1 | exact H2]].
Defined.

(** ** Threads: no increment is lost *)

Lemma thread_step_count :
  forall t s t' s',
    thread_step t s = Some (t', s') ->
    0 <= sh_itemsScanned s ->
    sh_itemsScanned s + files_todo t < 2 ^ 31 ->
    0 <= sh_itemsScanned s'
    /\ sh_itemsScanned s' + files_todo t' = sh_itemsScanned s + files_todo t.
Proof.
  intros t s t' s' H H0 Hlt. unfold thread_step in H.
  destruct t as [run cb p pc todo]. cbn [th_pc th_todo th_runId th_hasCb th_path] in *.
  unfold files_todo in *. cbn [th_todo] in *.
  destruct pc as [| |cur|cur lastU|cur].
  - destruct todo as [|[isFile dir] rest]; [discriminate H|].
    injection H as <- <-. cbn [th_todo filter fst] in *.
    destruct isFile; cbn [sh_itemsScanned List.length] in *.
    + rewrite wrap32_small by (unfold in_int32; lia). lia.
    + lia.
  - injection H as <- <-. cbn [at_pc th_todo]. lia.
  - injection H as <- <-. cbn [at_pc th_todo]. lia.
  - destruct (PROGRESS_INTERVAL <=? _); [destruct (_ =? _)|];
      injection H as <- <-; cbn [at_pc th_todo sh_itemsScanned]; lia.
  - injection H as <- <-. cbn [at_pc th_todo].
    destruct cb; cbn [sh_itemsScanned]; lia.
Qed.

Lemma step_count_inv :
  forall total sys sys',
    total < 2 ^ 31 -> count_inv total sys -> step sys sys' -> count_inv total sys'.
Proof.
  intros total sys sys' Ht [H0 Hsum] Hstep.
  destruct Hstep as [before t after s t' s' Hts]. unfold count_inv in *.
  cbn [fst snd] in *. rewrite files_left_app, files_left_cons in *.
  pose proof (files_left_nonneg before). pose proof (files_left_nonneg after).
  destruct (thread_step_count t s t' s' Hts H0 ltac:(lia)) as [Hpos Hkeep]. lia.
Qed.

(** X28.  No increment of the counter is lost between threads.  Whatever
    the order in which the threads of several scans on one [Scanner] take
    their steps, the counter holds at every moment the number of regular
    files handled so far by all of them, and their whole number when all
    have returned. *)
Theorem no_count_is_lost_between_threads :
  forall threads sys,
    files_left threads < 2 ^ 31 ->
    steps (initial threads) sys ->
    sh_itemsScanned (snd sys) + files_left (fst sys) = files_left threads
    /\ (Forall returned (fst sys) -> sh_itemsScanned (snd sys) = files_left threads).
Proof.
  intros threads sys Hlt Hsteps.
  assert (Hinv : count_inv (files_left threads) sys).
  { remember (initial threads) as sys0 eqn:E0.
    induction Hsteps as [sys|sys1 sys2 sys3 H12 IH H23].
    - subst sys. unfold count_inv, initial. cbn [fst snd sh_itemsScanned]. lia.
    - exact (step_count_inv _ _ _ Hlt (IH E0) H23). }
  destruct Hinv as [H0 Hsum]. split; [exact Hsum|].
  intros Hret. rewrite <- Hsum.
  assert (Hzero : files_left (fst sys) = 0).
  { clear - Hret. induction Hret as [|t ts [_ Ht] Hts IH]; [reflexivity|].
    rewrite files_left_cons, IH. unfold files_todo. rewrite Ht. reflexivity. }
  lia.
Qed.

Lemma no_count_is_lost_between_threads_witness :
  sh_itemsScanned (snd contended) + files_left (fst contended) = files_left two_threads
  /\ (Forall returned (fst contended)
      -> sh_itemsScanned (snd contended) = files_left two_threads).
Proof.
  apply (no_count_is_lost_between_threads two_threads contended).
  - vm_compute. reflexivity.
  - apply run_steps.
Defined.

(** ** Threads: every run ends *)

Lemma thread_step_work :
  forall t s t' s', thread_step t s = Some (t', s') -> (S (work t') <= work t)%nat.
Proof.
  intros t s t' s' H. unfold thread_step in H.
  destruct t as [run cb p pc todo]. cbn [th_pc th_todo th_runId th_hasCb th_path] in *.
  unfold work. cbn [th_pc th_todo].
  destruct pc as [| |cur|cur lastU|cur].
  - destruct todo as [|[isFile dir] rest]; [discriminate H|].
    injection H as <- _. cbn [th_pc th_todo pc_rank List.length]. lia.
  - injection H as <- _. cbn [at_pc th_pc th_todo pc_rank]. lia.
  - injection H as <- _. cbn [at_pc th_pc th_todo pc_rank]. lia.
  - destruct (PROGRESS_INTERVAL <=? _); [destruct (_ =? _)|];
      injection H as <- _; cbn [at_pc th_pc th_todo pc_rank]; lia.
  - injection H as <- _. cbn [at_pc th_pc th_todo pc_rank]. lia.
Qed.

Lemma total_work_app :
  forall a b s s',
    total_work (a ++ b, s) = (total_work (a, s') + total_work (b, s'))%nat.
Proof.
  intros a b s s'. unfold total_work. cbn [fst].
  induction a as [|t a IH]; cbn [app fold_right]; [reflexivity|]. rewrite IH. lia.
Qed.

Lemma step_work :
  forall sys sys', step sys sys' -> (S (total_work sys') <= total_work sys)%nat.
Proof.
  intros sys sys' H. destruct H as [before t after s t' s' Hts].
  rewrite (total_work_app before (t' :: after) s' s).
  rewrite (total_work_app before (t :: after) s s).
  unfold total_work at 2 4. cbn [fst fold_right].
  pose proof (thread_step_work t s t' s' Hts). lia.
Qed.

Lemma thread_step_none :
  forall t s, thread_step t s = None <-> returned t.
Proof.
  intros t s. unfold thread_step, returned.
  destruct (th_pc t) eqn:Hpc.
  - destruct (th_todo t) as [|[isFile dir] rest]; split;
      try discriminate; try tauto. intros [_ H]. discriminate H.
  - split; [discriminate | intros [H _]; discriminate H].
  - split; [discriminate | intros [H _]; discriminate H].
  - destruct (PROGRESS_INTERVAL <=? _); [destruct (_ =? _)|];
      (split; [discriminate | intros [H _]; discriminate H]).
  - split; [discriminate | intros [H _]; discriminate H].
Qed.

(** X29.  Scans on one [Scanner] do not wait for one another, and every
    run ends.  A thread that has not returned can take its next step
    whatever the others have done (the exchange is tried once, not until
    it succeeds); a thread takes five steps for an entry at most, so that
    a run has no more steps than five for each entry there is to handle;
    and when no step is left every thread has returned. *)
Theorem threads_never_wait :
  forall sys,
    (forall before t after,
        fst sys = before ++ t :: after -> ~ returned t ->
        exists t' s', thread_step t (snd sys) = Some (t', s')
                      /\ step sys (before ++ t' :: after, s'))
    /\ (forall n sys', steps_in n sys sys' -> (n + total_work sys' <= total_work sys)%nat)
    /\ ((forall sys', ~ step sys sys') -> Forall returned (fst sys)).
Proof.
  intros [threads s]. cbn [fst snd]. split; [|split].
  - intros before t after -> Hnot.
    destruct (thread_step t s) as [[t' s']|] eqn:E.
    + exists t', s'. split; [reflexivity | apply step_thread, E].
    + exfalso. apply Hnot. apply (thread_step_none t s), E.
  - intros n sys' H. induction H as [sys|n sys1 sys2 sys3 H12 H23 IH]; [lia|].
    pose proof (step_work _ _ H12). lia.
  - intros Hstuck. apply Forall_forall. intros t Hin.
    apply in_split in Hin. destruct Hin as [before [after ->]].
    destruct (thread_step t s) as [[t' s']|] eqn:E.
    + exfalso. apply (Hstuck (before ++ t' :: after, s')). apply step_thread, E.
    + apply (thread_step_none t s), E.
Qed.

(** ** A thread alone *)

(** X30.  A thread that handles an entry with no other thread stepping in
    between leaves in the counters and among the reports what the
    increment and the progress block leave when taken as one step: the
    exchange then finds the value that was read and succeeds. *)
Theorem thread_alone_is_the_sequential_block :
  forall run hasCb path0 isFile dir rest st,
    let t := mkThread run hasCb path0 NextEntry ((isFile, dir) :: rest) in
    entry_alone t (shared_of st)
    = (mkThread run hasCb dir NextEntry rest,
       shared_of (handle_entry run hasCb isFile dir st))
    /\ steps ([t], shared_of st)
             ([mkThread run hasCb dir NextEntry rest],
              shared_of (handle_entry run hasCb isFile dir st)).
Proof.
  intros run hasCb path0 isFile dir rest st t.
  assert (E : entry_alone t (shared_of st)
              = (mkThread run hasCb dir NextEntry rest,
                 shared_of (handle_entry run hasCb isFile dir st))).
  { unfold t, handle_entry. destruct isFile.
    - apply entry_alone_file.
    - apply entry_alone_other. }
  split; [exact E|].
  pose proof (entry_alone_steps t (shared_of st)) as H. rewrite E in H. exact H.
Qed.
